(** * internal/fuzz/worker.go: the coordinator/worker RPC and the minimizer

    A shallow embedding of the worker server ([serve], [fuzz], [minimize],
    [minimizeInput]), of the worker client ([workerClient.fuzz],
    [workerClient.minimize]) and of the supervisor's minimize path
    ([worker.minimize], the [minimizeC] case of [worker.coordinate]).

    The worker process is sequential, so its methods are state transformers
    over the pieces of state they touch; a call may also never return a
    response (a Go panic, the user's function taking the process down), which
    is the [Abort] outcome below. *)

From Stdlib Require Import ZArith List String Ascii Bool Lia.
From Stdlib Require Import Strings.Byte Floats.SpecFloat.
Import ListNotations.

Local Open Scope string_scope.
Local Open Scope list_scope.
Local Open Scope Z_scope.

(** ** Go base types *)

Definition bytes := list byte.

(** A non-nil Go [error], by the text its [Error()] method gives. A value of
    type [error] that may be nil is an [option error]. *)
Definition error := string.

Module GoInt.
(** Conversion to an unsigned type of [w] bits. *)
Definition wrapU (w z : Z) : Z := z mod 2 ^ w.

(** Conversion to a signed type of [w] bits (two's complement). *)
Definition wrapS (w z : Z) : Z := (z + 2 ^ (w - 1)) mod 2 ^ w - 2 ^ (w - 1).

(** [x++] on an int64. *)
Definition incr64 (z : Z) : Z := wrapS 64 (z + 1).
End GoInt.

(** float32(c) for a float64 [c]: rounding to nearest even into binary32. *)
Definition toFloat32 (c : spec_float) : spec_float :=
  match c with
  | S754_finite s m e => binary_round 24 128 s m e
  | _ => c
  end.

(** ** Corpus values: the dynamic types a [[]interface{}] of a corpus entry holds *)

Inductive value : Type :=
| VBool (b : bool)
| VFloat32 (f : spec_float)
| VFloat64 (f : spec_float)
| VUint (n : Z)
| VUint8 (n : Z)
| VUint16 (n : Z)
| VUint32 (n : Z)
| VUint64 (n : Z)
| VInt (n : Z)
| VInt8 (n : Z)
| VInt16 (n : Z)
| VInt32 (n : Z)
| VInt64 (n : Z)
| VString (s : string)
| VBytes (b : bytes).

(** The dynamic type of a value, what a Go type switch looks at. *)
Inductive kind : Type :=
| KBool | KFloat32 | KFloat64
| KUint | KUint8 | KUint16 | KUint32 | KUint64
| KInt | KInt8 | KInt16 | KInt32 | KInt64
| KString | KBytes.

Definition kindOf (v : value) : kind :=
  match v with
  | VBool _ => KBool | VFloat32 _ => KFloat32 | VFloat64 _ => KFloat64
  | VUint _ => KUint | VUint8 _ => KUint8 | VUint16 _ => KUint16
  | VUint32 _ => KUint32 | VUint64 _ => KUint64
  | VInt _ => KInt | VInt8 _ => KInt8 | VInt16 _ => KInt16
  | VInt32 _ => KInt32 | VInt64 _ => KInt64
  | VString _ => KString | VBytes _ => KBytes
  end.

Record CorpusEntry : Type := {
  Parent : string;
  Path : string;
  Data : option bytes;
  Values : list value;
  Generation : Z;
  IsSeed : bool
}.

(** CorpusEntry{} *)
Definition zeroCorpusEntry : CorpusEntry :=
  {| Parent := ""; Path := ""; Data := None; Values := [];
     Generation := 0; IsSeed := false |}.

(** ** Outcomes: a response, or no response at all *)

Inductive halt : Type :=
| Panic (msg : string)   (* a Go panic: the process exits *)
| Crash                  (* the user's function exits or crashes the process *)
| Fuel.                  (* the call is still running when observed *)

Inductive outcome (S A : Type) : Type :=
| Ret (a : A) (s : S)
| Abort (h : halt) (s : S).

Arguments Ret {S A} a s.
Arguments Abort {S A} h s.

Definition M (S A : Type) : Type := S -> outcome S A.

Definition ret {S A} (a : A) : M S A := fun s => Ret a s.

Definition bind {S A B} (c : M S A) (k : A -> M S B) : M S B :=
  fun s => match c s with
           | Ret a s' => k a s'
           | Abort h s' => Abort h s'
           end.

Definition panic {S A} (msg : string) : M S A := fun s => Abort (Panic msg) s.
Definition gets {S A} (f : S -> A) : M S A := fun s => Ret (f s) s.
Definition modify {S} (f : S -> S) : M S unit := fun s => Ret tt (f s).

Definition finalState {S A} (o : outcome S A) : S :=
  match o with Ret _ s => s | Abort _ s => s end.

(** What the caller receives, when the computation returns. *)
Definition answer {S A} (o : outcome S A) : option A :=
  match o with Ret a _ => Some a | Abort _ _ => None end.

(** [c] run on a part of the state: [from] builds the part, [back] stores it. *)
Definition zoom {S T A} (from : S -> T) (back : T -> S -> S) (c : M T A) : M S A :=
  fun s => match c (from s) with
           | Ret a t => Ret a (back t s)
           | Abort h t => Abort h (back t s)
           end.

(** ** Shared memory

    Modelled from the spec: mem.go ([sharedMem], its header and its accessors)
    is not among the sources. The spec gives a header ([count], [valueLen],
    [randState], [randInc]) followed by the payload, with [valueRef] the
    payload as bytes of length [valueLen], [valueCopy] an owned copy of it,
    and [setValue] copying bytes in and updating [valueLen]; [valueLen] never
    exceeds the payload capacity, so [setValue] of more bytes than the
    capacity is a fault and writes nothing. [region] is the payload area
    (the mapping after the header); its length is [cap(mem.valueRef())]. *)

Record sharedMemHeader : Type := {
  count : Z;
  valueLen : Z;
  randState : Z;
  randInc : Z
}.

Record sharedMem : Type := {
  header : sharedMemHeader;
  region : bytes
}.

Definition valueRef (mem : sharedMem) : bytes :=
  firstn (Z.to_nat (valueLen (header mem))) (region mem).

Definition valueCopy (mem : sharedMem) : bytes := valueRef mem.

Definition valueCap (mem : sharedMem) : Z := Z.of_nat (List.length (region mem)).

Definition setValue (b : bytes) (mem : sharedMem) : option sharedMem :=
  if Z.of_nat (List.length b) >? valueCap mem then None
  else Some {| header := {| count := count (header mem);
                            valueLen := Z.of_nat (List.length b);
                            randState := randState (header mem);
                            randInc := randInc (header mem) |};
               region := b ++ skipn (List.length b) (region mem) |}.

Definition setCount (n : Z) (mem : sharedMem) : sharedMem :=
  {| header := {| count := n;
                  valueLen := valueLen (header mem);
                  randState := randState (header mem);
                  randInc := randInc (header mem) |};
     region := region mem |}.

Definition setRand (st inc : Z) (mem : sharedMem) : sharedMem :=
  {| header := {| count := count (header mem);
                  valueLen := valueLen (header mem);
                  randState := st;
                  randInc := inc |};
     region := region mem |}.

(** What a reader of the payload can observe: the bytes and their length. *)
Definition payload (mem : sharedMem) : Z * bytes :=
  (valueLen (header mem), region mem).

(** ** Shrinkers

    Modelled from the spec: minimize.go ([minimizeFloat], [minimizeInteger],
    [minimizeBytes]) is not among the sources. The spec gives each as a free
    function that repeatedly proposes candidates through [try], reads its
    verdict, and consults [shouldStop]; nothing else of the worker is in its
    reach. A shrinker is therefore the tree of its interactions: it ends,
    asks [shouldStop], or tries a candidate, and goes on from the answer. *)

Inductive shrinker (C : Type) : Type :=
| Done
| AskStop (k : bool -> shrinker C)
| Try (c : C) (k : bool -> shrinker C).

Arguments Done {C}.
Arguments AskStop {C} k.
Arguments Try {C} c k.

Fixpoint runShrinker {S C} (sh : shrinker C)
    (try : C -> M S bool) (shouldStop : M S bool) : M S unit :=
  match sh with
  | Done => ret tt
  | AskStop k => bind shouldStop (fun b => runShrinker (k b) try shouldStop)
  | Try c k => bind (try c) (fun b => runShrinker (k b) try shouldStop)
  end.

(** ** What the user's function reports *)

Inductive fnres : Type :=
| Pass                (* returned nil *)
| Fail (e : error)    (* returned an error *)
| Died.               (* exited or crashed the process *)

(** ** RPC records *)

Module FuzzArgs.
Record t : Type := {
  Timeout : Z;
  Limit : Z;
  Warmup : bool;
  CoverageData : option bytes
}.
End FuzzArgs.
Definition fuzzArgs : Type := FuzzArgs.t.

Module FuzzResponse.
Record t : Type := {
  TotalDuration : Z;
  InterestingDuration : Z;
  Count : Z;
  CoverageData : option bytes;
  Err : string
}.
Definition zero : t :=
  {| TotalDuration := 0; InterestingDuration := 0; Count := 0;
     CoverageData := None; Err := "" |}.
Definition withErr (e : string) (r : t) : t :=
  {| TotalDuration := TotalDuration r; InterestingDuration := InterestingDuration r;
     Count := Count r; CoverageData := CoverageData r; Err := e |}.
Definition withInterestingDuration (d : Z) (r : t) : t :=
  {| TotalDuration := TotalDuration r; InterestingDuration := d;
     Count := Count r; CoverageData := CoverageData r; Err := Err r |}.
Definition withCoverageData (c : option bytes) (r : t) : t :=
  {| TotalDuration := TotalDuration r; InterestingDuration := InterestingDuration r;
     Count := Count r; CoverageData := c; Err := Err r |}.
Definition withCount (n : Z) (r : t) : t :=
  {| TotalDuration := TotalDuration r; InterestingDuration := InterestingDuration r;
     Count := n; CoverageData := CoverageData r; Err := Err r |}.
Definition withTotalDuration (d : Z) (r : t) : t :=
  {| TotalDuration := d; InterestingDuration := InterestingDuration r;
     Count := Count r; CoverageData := CoverageData r; Err := Err r |}.
End FuzzResponse.
Definition fuzzResponse : Type := FuzzResponse.t.

Module MinimizeArgs.
Record t : Type := {
  Timeout : Z;
  Limit : Z;
  KeepCoverage : option bytes
}.
End MinimizeArgs.
Definition minimizeArgs : Type := MinimizeArgs.t.

Module MinimizeResponse.
Record t : Type := {
  Success : bool;
  Err : string;
  CoverageData : option bytes;
  Duration : Z;
  Count : Z
}.
Definition zero : t :=
  {| Success := false; Err := ""; CoverageData := None; Duration := 0; Count := 0 |}.
Definition withSuccess (b : bool) (r : t) : t :=
  {| Success := b; Err := Err r; CoverageData := CoverageData r;
     Duration := Duration r; Count := Count r |}.
Definition withErr (e : string) (r : t) : t :=
  {| Success := Success r; Err := e; CoverageData := CoverageData r;
     Duration := Duration r; Count := Count r |}.
Definition withCoverageData (c : option bytes) (r : t) : t :=
  {| Success := Success r; Err := Err r; CoverageData := c;
     Duration := Duration r; Count := Count r |}.
Definition withDuration (d : Z) (r : t) : t :=
  {| Success := Success r; Err := Err r; CoverageData := CoverageData r;
     Duration := d; Count := Count r |}.
Definition withCount (n : Z) (r : t) : t :=
  {| Success := Success r; Err := Err r; CoverageData := CoverageData r;
     Duration := Duration r; Count := n |}.
End MinimizeResponse.
Definition minimizeResponse : Type := MinimizeResponse.t.

(** pingArgs and pingResponse are empty structs. *)
Definition pingArgs := unit.
Definition pingResponse := unit.

(** The call record: a pointer per method, nil when absent. *)
Record call : Type := {
  Ping : option pingArgs;
  Fuzz : option fuzzArgs;
  Minimize : option minimizeArgs
}.

(** ** The collaborators

    What worker.go consumes from the rest of the package and from the
    process it runs in. [world] is the worker process's surroundings: the
    user's function and what it has done so far, the coverage counters, the
    clock and the call's context. Every operation that may observe time
    passing takes and returns the world. *)

Class Collaborators : Type := {
  (** The host's word size: [uint] and [int] have 64 bits, or 32. *)
  host64 : bool;

  world : Type;
  (** ws.fuzzFn(entry) *)
  fuzzFn : CorpusEntry -> world -> fnres * world;
  (** The package variable [coverageSnapshot], as the last run left it. *)
  coverageSnapshot : world -> bytes;
  (** The package constant [coverageEnabled]. *)
  coverageEnabled : bool;
  (** ctx.Err() != nil, which is also whether ctx.Done() is ready. *)
  ctxErr : world -> bool * world;
  (** context.WithTimeout(ctx, d) replacing the call's context. *)
  withTimeout : Z -> world -> world;
  (** time.Now(), in nanoseconds. *)
  now : world -> Z;

  (** The mutator's PRNG state, with [save] and [restore]. *)
  prng : Type;
  prngSave : prng -> Z * Z;
  prngRestore : Z -> Z -> prng -> prng;
  (** m.mutate(vals, maxBytes): rewrites [vals] in place, steps the PRNG. *)
  mutate : list value -> Z -> prng -> list value * prng;

  marshalCorpusFile : list value -> bytes;
  unmarshalCorpusFile : bytes -> error + list value;
  CorpusEntryData : CorpusEntry -> error + bytes;

  (** enc.Encode(resp) on the fuzz_out pipe: nil, or the write's error. *)
  pipeWrite : world -> option error * world;

  countNewCoverageBits : bytes -> bytes -> Z;
  hasCoverageBit : bytes -> bytes -> bool;

  minimizeFloat : spec_float -> shrinker spec_float;
  minimizeInteger : Z -> shrinker Z;
  minimizeBytes : bytes -> shrinker bytes
}.

(** ** The content-addressed name of an entry

    Modelled from the spec: crypto/sha256 and fmt are not among the sources.
    The spec gives [Path] as the first 4 bytes of SHA-256 of [Data],
    hex-encoded; SHA-256 is written out below from its standard (FIPS 180-4),
    on 32-bit words as [Z] with the wrap-around explicit. *)

Module Sha256.
Definition add32 (a b : Z) : Z := (a + b) mod 2 ^ 32.
Definition rotr (n x : Z) : Z :=
  Z.lor (Z.shiftr x n) (Z.shiftl x (32 - n) mod 2 ^ 32).
Definition ch (x y z : Z) : Z :=
  Z.lxor (Z.land x y) (Z.land (Z.lxor x 0xffffffff) z).
Definition maj (x y z : Z) : Z :=
  Z.lxor (Z.lxor (Z.land x y) (Z.land x z)) (Z.land y z).
Definition bsig0 (x : Z) : Z := Z.lxor (Z.lxor (rotr 2 x) (rotr 13 x)) (rotr 22 x).
Definition bsig1 (x : Z) : Z := Z.lxor (Z.lxor (rotr 6 x) (rotr 11 x)) (rotr 25 x).
Definition ssig0 (x : Z) : Z := Z.lxor (Z.lxor (rotr 7 x) (rotr 18 x)) (Z.shiftr x 3).
Definition ssig1 (x : Z) : Z := Z.lxor (Z.lxor (rotr 17 x) (rotr 19 x)) (Z.shiftr x 10).

(** The first sixty-four primes. *)
Definition primes : list Z :=
  [ 2; 3; 5; 7; 11; 13; 17; 19; 23; 29; 31; 37; 41; 43; 47; 53;
    59; 61; 67; 71; 73; 79; 83; 89; 97; 101; 103; 107; 109; 113; 127; 131;
    137; 139; 149; 151; 157; 163; 167; 173; 179; 181; 191; 193; 197; 199; 211; 223;
    227; 229; 233; 239; 241; 251; 257; 263; 269; 271; 277; 281; 283; 293; 307; 311 ].

(** The integer cube root of [n] below 2 ^ bits, found bit by bit from the
    top. *)
Fixpoint cubeRoot (bits : nat) (n r : Z) : Z :=
  match bits with
  | O => r
  | S b =>
      let r' := r + 2 ^ Z.of_nat b in
      cubeRoot b n (if r' * r' * r' <=? n then r' else r)
  end.

(** The round constants: the first 32 bits of the fractional parts of the
    cube roots of the primes. *)
Definition K : list Z :=
  Eval vm_compute in map (fun p => cubeRoot 36 (p * 2 ^ 96) 0 mod 2 ^ 32) primes.

(** The initial hash value: the first 32 bits of the fractional parts of the
    square roots of the first eight primes. *)
Definition H0 : list Z :=
  Eval vm_compute in map (fun p => Z.sqrt (p * 2 ^ 64) mod 2 ^ 32) (firstn 8 primes).

(** The [n] low bytes of [z], most significant first. *)
Fixpoint bigEndian (n : nat) (z : Z) : list Z :=
  match n with
  | O => []
  | S n' => (Z.shiftr z (8 * Z.of_nat n')) mod 256 :: bigEndian n' z
  end.

Definition pad (msg : list Z) : list Z :=
  let l := Z.of_nat (List.length msg) in
  msg ++ [0x80] ++ repeat 0 (Z.to_nat ((55 - l) mod 64)) ++ bigEndian 8 (8 * l).

(** Big-endian 32-bit words of a byte sequence. *)
Fixpoint words (n : nat) (bs : list Z) : list Z :=
  match n, bs with
  | S n', b0 :: b1 :: b2 :: b3 :: tl =>
      (((b0 * 256 + b1) * 256 + b2) * 256 + b3) :: words n' tl
  | _, _ => []
  end.

(** [rw] holds the schedule so far, latest word first. *)
Fixpoint extend (n : nat) (rw : list Z) : list Z :=
  match n with
  | O => rw
  | S n' =>
      let w := add32 (add32 (ssig1 (nth 1 rw 0)) (nth 6 rw 0))
                     (add32 (ssig0 (nth 14 rw 0)) (nth 15 rw 0)) in
      extend n' (w :: rw)
  end.

Definition schedule (block : list Z) : list Z := rev (extend 48 (rev block)).

Definition round (st : list Z) (kw : Z * Z) : list Z :=
  match st with
  | [a; b; c; d; e; f; g; h] =>
      let t1 := add32 (add32 (add32 h (bsig1 e)) (add32 (ch e f g) (fst kw))) (snd kw) in
      let t2 := add32 (bsig0 a) (maj a b c) in
      [add32 t1 t2; a; b; c; add32 d t1; e; f; g]
  | _ => st
  end.

Definition compress (h : list Z) (block : list Z) : list Z :=
  map (fun p => add32 (fst p) (snd p))
      (combine h (fold_left round (combine K (schedule block)) h)).

(** The digest of the 16-word blocks of [ws], [n] of them at most. *)
Fixpoint blocks (n : nat) (h : list Z) (ws : list Z) : list Z :=
  match n with
  | O => h
  | S n' =>
      match ws with
      | [] => h
      | _ => blocks n' (compress h (firstn 16 ws)) (skipn 16 ws)
      end
  end.

Definition byteOfZ (z : Z) : byte :=
  match Byte.of_N (Z.to_N (z mod 256)) with
  | Some b => b
  | None => x00
  end.

Definition zOfByte (b : byte) : Z := Z.of_N (Byte.to_N b).

(** sha256.Sum256(data) *)
Definition Sum256 (data : bytes) : bytes :=
  let padded := pad (map zOfByte data) in
  let ws := words (List.length padded) padded in
  map byteOfZ (flat_map (bigEndian 4) (blocks (List.length ws) H0 ws)).
End Sha256.

Definition hexDigit (n : Z) : ascii :=
  nth (Z.to_nat n)
      ["0"; "1"; "2"; "3"; "4"; "5"; "6"; "7"; "8"; "9"; "a"; "b"; "c"; "d"; "e"; "f"]%char
      "0"%char.

(** fmt.Sprintf("%x", b) for a byte slice [b] *)
Fixpoint hex (b : bytes) : string :=
  match b with
  | [] => EmptyString
  | x :: tl =>
      let z := Sha256.zOfByte x in
      String (hexDigit (z / 16)) (String (hexDigit (z mod 16)) (hex tl))
  end.

(** name := fmt.Sprintf("%x", h[:4]) for h := sha256.Sum256(data) *)
Definition pathOf (data : bytes) : string := hex (firstn 4 (Sha256.Sum256 data)).

(** ** The worker server *)

Section Worker.
Context {C : Collaborators}.

Definition uintSize : Z := if host64 then 64 else 32.

(** What a test observes of a server besides its responses: each run of the
    user's function with the entry it was given, and each mutation step. *)
Inductive event : Type :=
| Ran (entry : CorpusEntry)
| Mutated (maxBytes : Z).

(** The server with the shared memory it maps. [log] is ghost state. *)
Record workerServer : Type := {
  mem : sharedMem;
  mutator : prng;
  coverageMask : option bytes;
  env : world;
  log : list event
}.

Definition withMem (f : sharedMem -> sharedMem) (ws : workerServer) : workerServer :=
  {| mem := f (mem ws); mutator := mutator ws; coverageMask := coverageMask ws;
     env := env ws; log := log ws |}.
Definition withMutator (r : prng) (ws : workerServer) : workerServer :=
  {| mem := mem ws; mutator := r; coverageMask := coverageMask ws;
     env := env ws; log := log ws |}.
Definition withCoverageMask (c : option bytes) (ws : workerServer) : workerServer :=
  {| mem := mem ws; mutator := mutator ws; coverageMask := c;
     env := env ws; log := log ws |}.
Definition withEnv (w : world) (ws : workerServer) : workerServer :=
  {| mem := mem ws; mutator := mutator ws; coverageMask := coverageMask ws;
     env := w; log := log ws |}.
Definition logged (e : event) (ws : workerServer) : workerServer :=
  {| mem := mem ws; mutator := mutator ws; coverageMask := coverageMask ws;
     env := env ws; log := log ws ++ [e] |}.

Definition entryOf (vals : list value) : CorpusEntry :=
  {| Parent := ""; Path := ""; Data := None; Values := vals;
     Generation := 0; IsSeed := false |}.

(** mem.header().count++ *)
Definition incrCount : M workerServer unit :=
  modify (withMem (fun m => setCount (GoInt.incr64 (count (header m))) m)).

(** ws.fuzzFn(CorpusEntry{Values: vals}) *)
Definition callFuzzFn (vals : list value) : M workerServer (option error) :=
  fun ws =>
    let (r, w) := fuzzFn (entryOf vals) (env ws) in
    let ws' := logged (Ran (entryOf vals)) (withEnv w ws) in
    match r with
    | Pass => Ret None ws'
    | Fail e => Ret (Some e) ws'
    | Died => Abort Crash ws'
    end.

(** ctx.Err() != nil *)
Definition ctxCancelled : M workerServer bool :=
  fun ws => let (b, w) := ctxErr (env ws) in Ret b (withEnv w ws).

(** if timeout != 0 { ctx, cancel = context.WithTimeout(ctx, timeout) } *)
Definition applyTimeout (timeout : Z) : M workerServer unit :=
  if timeout =? 0 then ret tt else modify (fun ws => withEnv (withTimeout timeout (env ws)) ws).

(** *** minimizeInput *)

(** The variables the closures of minimizeInput share: the [vals] slice and
    the named result [retErr]; [count] points into the shared memory header,
    which is reached through [srv]. *)
Record minimizing : Type := {
  srv : workerServer;
  vals : list value;
  retErr : option error
}.

Definition onServer {A} (c : M workerServer A) : M minimizing A :=
  zoom srv (fun ws st => {| srv := ws; vals := vals st; retErr := retErr st |}) c.
Definition setVals (vs : list value) : M minimizing unit :=
  modify (fun st => {| srv := srv st; vals := vs; retErr := retErr st |}).
Definition setRetErr (e : option error) : M minimizing unit :=
  modify (fun st => {| srv := srv st; vals := vals st; retErr := e |}).

Definition isNil {A} (o : option A) : bool :=
  match o with None => true | Some _ => false end.

(** The body of the shouldStop closure, on what it reads. *)
Definition shouldStopWhen (cancelled : bool) (limit cnt : Z)
    (err : option error) (wantError : bool) : bool :=
  cancelled
  || ((0 <? limit) && (limit <=? cnt))
  || (negb (isNil err) && negb wantError).

Definition shouldStop (limit : Z) (wantError : bool) : M minimizing bool :=
  bind (onServer ctxCancelled) (fun cancelled =>
  bind (gets (fun st => count (header (mem (srv st))))) (fun cnt =>
  bind (gets retErr) (fun err =>
  ret (shouldStopWhen cancelled limit cnt err wantError)))).

(** The type switches of tryMinimized: the value stored for [candidate] in
    a slot holding [prev]; [None] is panic("impossible"). *)
Definition castCandidate (candidate prev : value) : option value :=
  match candidate with
  | VFloat64 c =>
      match prev with
      | VFloat32 _ => Some (VFloat32 (toFloat32 c))
      | VFloat64 _ => Some (VFloat64 c)
      | _ => None
      end
  | VUint c =>
      match prev with
      | VUint _ => Some (VUint c)
      | VUint8 _ => Some (VUint8 (GoInt.wrapU 8 c))
      | VUint16 _ => Some (VUint16 (GoInt.wrapU 16 c))
      | VUint32 _ => Some (VUint32 (GoInt.wrapU 32 c))
      | VUint64 _ => Some (VUint64 (GoInt.wrapU 64 c))
      | VInt _ => Some (VInt (GoInt.wrapS uintSize c))
      | VInt8 _ => Some (VInt8 (GoInt.wrapS 8 c))
      | VInt16 _ => Some (VInt16 (GoInt.wrapS 16 c))
      | VInt32 _ => Some (VInt32 (GoInt.wrapS 32 c))
      | VInt64 _ => Some (VInt64 (GoInt.wrapS 64 c))
      | _ => None
      end
  | VBytes c =>
      match prev with
      | VBytes _ => Some (VBytes c)
      | VString _ => Some (VString (string_of_list_byte c))
      | _ => None
      end
  | _ => None
  end.

(** vals[i] = v, for [i] in range. *)
Fixpoint setNth (i : nat) (v : value) (vs : list value) : list value :=
  match vs, i with
  | [], _ => []
  | _ :: tl, O => v :: tl
  | hd :: tl, S i' => hd :: setNth i' v tl
  end.

Definition tryMinimized (keepCoverage : option bytes) (valI : nat)
    (candidate : value) : M minimizing bool :=
  let wantError := isNil keepCoverage in
  bind (gets vals) (fun vs =>
  match nth_error vs valI with
  | None => panic "index out of range"
  | Some prev =>
      match castCandidate candidate prev with
      | None => panic "impossible"
      | Some v =>
          (* vals[valI] = prev *)
          let restore :=
            bind (gets vals) (fun cur => setVals (setNth valI prev cur)) in
          bind (setVals (setNth valI v vs)) (fun _ =>
          bind (onServer incrCount) (fun _ =>
          bind (onServer (callFuzzFn (setNth valI v vs))) (fun err =>
          match err with
          | Some e =>
              bind (setRetErr (Some e)) (fun _ =>
              ret wantError)
          | None =>
              bind (gets (fun st => coverageSnapshot (env (srv st)))) (fun snapshot =>
              match keepCoverage with
              | Some keep =>
                  if hasCoverageBit keep snapshot then ret true
                  else bind restore (fun _ => ret false)
              | None =>
                  bind restore (fun _ => ret false)
              end)
          end)))
      end
  end).

(** The type switch of the shrinking loop at slot [valI] holding [v]. The
    shrinkers' candidates have Go type float64, uint and []byte. *)
Definition shrinkValue (limit : Z) (keepCoverage : option bytes)
    (valI : nat) (v : value) : M minimizing unit :=
  let stop := shouldStop limit (isNil keepCoverage) in
  let tryFloat c := tryMinimized keepCoverage valI (VFloat64 c) in
  let tryUint c := tryMinimized keepCoverage valI (VUint (GoInt.wrapU uintSize c)) in
  let tryBytes c := tryMinimized keepCoverage valI (VBytes c) in
  let toUint n := GoInt.wrapU uintSize n in
  match v with
  | VBool _ => ret tt
  | VFloat32 f => runShrinker (minimizeFloat f) tryFloat stop
  | VFloat64 f => runShrinker (minimizeFloat f) tryFloat stop
  | VUint n => runShrinker (minimizeInteger n) tryUint stop
  | VUint8 n => runShrinker (minimizeInteger (toUint n)) tryUint stop
  | VUint16 n => runShrinker (minimizeInteger (toUint n)) tryUint stop
  | VUint32 n => runShrinker (minimizeInteger (toUint n)) tryUint stop
  | VUint64 n =>
      if negb (GoInt.wrapU 64 (toUint n) =? n) then ret tt
      else runShrinker (minimizeInteger (toUint n)) tryUint stop
  | VInt n => runShrinker (minimizeInteger (toUint n)) tryUint stop
  | VInt8 n => runShrinker (minimizeInteger (toUint n)) tryUint stop
  | VInt16 n => runShrinker (minimizeInteger (toUint n)) tryUint stop
  | VInt32 n => runShrinker (minimizeInteger (toUint n)) tryUint stop
  | VInt64 n =>
      if negb (GoInt.wrapS 64 (GoInt.wrapS uintSize n) =? n) then ret tt
      else runShrinker (minimizeInteger (toUint n)) tryUint stop
  | VString s => runShrinker (minimizeBytes (list_byte_of_string s)) tryBytes stop
  | VBytes b => runShrinker (minimizeBytes b) tryBytes stop
  end.

(** for valI = range vals { if shouldStop() { break }; switch ... }, with
    [n] slots left to visit. *)
Fixpoint shrinkLoop (limit : Z) (keepCoverage : option bytes)
    (n valI : nat) : M minimizing unit :=
  match n with
  | O => ret tt
  | S n' =>
      bind (shouldStop limit (isNil keepCoverage)) (fun stop =>
      if stop then ret tt
      else
        bind (gets vals) (fun vs =>
        match nth_error vs valI with
        | None => panic "index out of range"
        | Some v =>
            bind (shrinkValue limit keepCoverage valI v) (fun _ =>
            shrinkLoop limit keepCoverage n' (S valI))
        end))
  end.

Definition minimizeInput (limit : Z) (keepCoverage : option bytes)
    : M minimizing (bool * option error) :=
  let wantError := isNil keepCoverage in
  bind (shouldStop limit wantError) (fun stop =>
  if stop then ret (false, None)
  else
    bind (onServer incrCount) (fun _ =>
    bind (gets vals) (fun vs =>
    bind (onServer (callFuzzFn vs)) (fun err =>
    bind (setRetErr err) (fun _ =>
    bind (gets (fun st => coverageSnapshot (env (srv st)))) (fun snapshot =>
    if isNil err && wantError then ret (false, None)
    else if negb (isNil err) && negb wantError then ret (false, err)
    else if match keepCoverage with
            | Some keep => negb (hasCoverageBit keep snapshot)
            | None => false
            end
    then ret (false, None)
    else
      bind (shrinkLoop limit keepCoverage (List.length vs) 0%nat) (fun _ =>
      bind (gets retErr) (fun e =>
      ret (wantError || isNil e, e))))))))).

(** *** minimize *)

Definition writeToMem (vs : list value) : M workerServer unit :=
  fun ws =>
    match setValue (marshalCorpusFile vs) (mem ws) with
    | Some m' => Ret tt (withMem (fun _ => m') ws)
    | None => Abort (Panic "value larger than shared memory capacity") ws
    end.

(** ws.minimizeInput(ctx, vals, &mem.header().count, limit, keepCoverage),
    giving also [vals] as the call left the slice. *)
Definition callMinimizeInput (vs : list value) (limit : Z)
    (keepCoverage : option bytes)
    : M workerServer (bool * option error * list value) :=
  fun ws =>
    match minimizeInput limit keepCoverage {| srv := ws; vals := vs; retErr := None |} with
    | Ret r st => Ret (r, vals st) (srv st)
    | Abort h st => Abort h (srv st)
    end.

Definition minimize (args : minimizeArgs) : M workerServer minimizeResponse :=
  bind (gets (fun ws => now (env ws))) (fun start =>
  bind (gets (fun ws => unmarshalCorpusFile (valueCopy (mem ws)))) (fun decoded =>
  match decoded with
  | inl e => panic e
  | inr vs =>
      bind (applyTimeout (MinimizeArgs.Timeout args)) (fun _ =>
      bind (callMinimizeInput vs (MinimizeArgs.Limit args)
              (MinimizeArgs.KeepCoverage args)) (fun '(success, err, vs') =>
      let resp := MinimizeResponse.withSuccess success MinimizeResponse.zero in
      bind (if success then writeToMem vs' else ret tt) (fun _ =>
      bind (gets (fun ws => coverageSnapshot (env ws))) (fun snapshot =>
      let resp :=
        match err with
        | Some e => MinimizeResponse.withErr e resp
        | None =>
            if success then MinimizeResponse.withCoverageData (Some snapshot) resp
            else resp
        end in
      bind (gets (fun ws => now (env ws))) (fun finish =>
      ret (MinimizeResponse.withDuration (finish - start) resp))))))
  end)).

(** *** ping *)

Definition ping (_ : pingArgs) : M workerServer pingResponse := ret tt.

(** *** fuzz *)

(** The shouldStop closure of fuzz. *)
Definition fuzzShouldStop (limit : Z) : M workerServer bool :=
  gets (fun ws => (0 <? limit) && (limit <=? count (header (mem ws)))).

(** The fuzzOnce closure: the duration of the run, the coverage snapshot
    when it has bits outside the mask, the error text. *)
Definition fuzzOnce (vs : list value) : M workerServer (Z * option bytes * string) :=
  bind incrCount (fun _ =>
  bind (gets (fun ws => now (env ws))) (fun start =>
  bind (callFuzzFn vs) (fun err =>
  bind (gets (fun ws => now (env ws))) (fun finish =>
  let dur := finish - start in
  match err with
  | Some e =>
      let errMsg := if String.eqb e "" then "fuzz function failed with no input" else e in
      ret (dur, None, errMsg)
  | None =>
      bind (gets coverageMask) (fun mask =>
      bind (gets (fun ws => coverageSnapshot (env ws))) (fun snapshot =>
      match mask with
      | Some mk =>
          if countNewCoverageBits mk snapshot >? 0 then ret (dur, Some snapshot, "")
          else ret (dur, None, "")
      | None => ret (dur, None, "")
      end))
  end)))).

(** ws.m.mutate(vals, cap(mem.valueRef())) *)
Definition mutateVals (vs : list value) : M workerServer (list value) :=
  fun ws =>
    let maxBytes := valueCap (mem ws) in
    let (vs', r) := mutate vs maxBytes (mutator ws) in
    Ret vs' (logged (Mutated maxBytes) (withMutator r ws)).

(** The args.Warmup branch. *)
Definition fuzzWarmup (vs : list value) (resp : fuzzResponse) : M workerServer fuzzResponse :=
  bind (fuzzOnce vs) (fun '(dur, _, errMsg) =>
  if negb (String.eqb errMsg "") then ret (FuzzResponse.withErr errMsg resp)
  else
    let resp := FuzzResponse.withInterestingDuration dur resp in
    if coverageEnabled then
      bind (gets (fun ws => coverageSnapshot (env ws))) (fun snapshot =>
      ret (FuzzResponse.withCoverageData (Some snapshot) resp))
    else ret resp).

(** The main loop, for at most [fuel] rounds; [vs] is the slice the mutator
    rewrites in place from one round to the next. *)
Fixpoint fuzzLoop (fuel : nat) (limit : Z) (vs : list value) (resp : fuzzResponse)
    : M workerServer fuzzResponse :=
  match fuel with
  | O => fun ws => Abort Fuel ws
  | S fuel' =>
      bind ctxCancelled (fun done =>
      if done then ret resp
      else
        bind (mutateVals vs) (fun vs' =>
        bind (fuzzOnce vs') (fun '(dur, cov, errMsg) =>
        if negb (String.eqb errMsg "") then ret (FuzzResponse.withErr errMsg resp)
        else
          let next :=
            bind (fuzzShouldStop limit) (fun stop =>
            if stop then ret resp else fuzzLoop fuel' limit vs' resp) in
          match cov with
          | Some _ =>
              (* new coverage: run the same values once more to deflake *)
              bind (fuzzShouldStop limit) (fun stop =>
              bind (if negb stop then fuzzOnce vs' else ret (dur, cov, errMsg))
                (fun '(dur2, cov2, errMsg2) =>
              if negb stop && negb (String.eqb errMsg2 "")
              then ret (FuzzResponse.withErr errMsg2 resp)
              else
                match cov2 with
                | Some c =>
                    ret (FuzzResponse.withInterestingDuration dur2
                           (FuzzResponse.withCoverageData (Some c) resp))
                | None => next
                end))
          | None => next
          end))
      )
  end.

Definition installCoverage (data : option bytes) : M workerServer unit :=
  match data with
  | None => ret tt
  | Some cov =>
      bind (gets coverageMask) (fun mask =>
      match mask with
      | Some mk =>
          if negb (Nat.eqb (List.length cov) (List.length mk))
          then panic "unexpected size for CoverageData"
          else modify (withCoverageMask (Some cov))
      | None => modify (withCoverageMask (Some cov))
      end)
  end.

Definition fuzz (fuel : nat) (args : fuzzArgs) : M workerServer fuzzResponse :=
  bind (installCoverage (FuzzArgs.CoverageData args)) (fun _ =>
  bind (gets (fun ws => now (env ws))) (fun start =>
  bind (applyTimeout (FuzzArgs.Timeout args)) (fun _ =>
  bind (modify (fun ws =>
          let (st, inc) := prngSave (mutator ws) in withMem (setRand st inc) ws)) (fun _ =>
  bind (fuzzShouldStop (FuzzArgs.Limit args)) (fun exceeded =>
  if exceeded then panic "mem.header().count already exceeds args.Limit"
  else
    bind (gets (fun ws => unmarshalCorpusFile (valueCopy (mem ws)))) (fun decoded =>
    match decoded with
    | inl e => panic e
    | inr vs =>
        bind (if FuzzArgs.Warmup args then fuzzWarmup vs FuzzResponse.zero
              else fuzzLoop fuel (FuzzArgs.Limit args) vs FuzzResponse.zero) (fun resp =>
        (* the deferred functions *)
        bind (gets (fun ws => count (header (mem ws)))) (fun cnt =>
        bind (gets (fun ws => now (env ws))) (fun finish =>
        ret (FuzzResponse.withTotalDuration (finish - start)
               (FuzzResponse.withCount cnt resp)))))
    end)))))).

(** *** serve *)

Inductive response : Type :=
| RFuzz (r : fuzzResponse)
| RMinimize (r : minimizeResponse)
| RPing (r : pingResponse).

(** What dec.Decode(&c) gives on the fuzz_in pipe. *)
Inductive decoded : Type :=
| Decoded (c : call)
| EndOfCalls                (* io.EOF, or the context's error *)
| DecodeError (e : error).

(** The switch of serve: the response of the method called, or [None] in
    the default case. *)
Definition dispatch (fuel : nat) (c : call) : M workerServer (option response) :=
  match Fuzz c with
  | Some a => bind (fuzz fuel a) (fun r => ret (Some (RFuzz r)))
  | None =>
      match Minimize c with
      | Some a => bind (minimize a) (fun r => ret (Some (RMinimize r)))
      | None =>
          match Ping c with
          | Some a => bind (ping a) (fun r => ret (Some (RPing r)))
          | None => ret None
          end
      end
  end.

Definition encode (r : response) : M workerServer (option error) :=
  fun ws => let (e, w) := pipeWrite (env ws) in Ret e (withEnv w ws).

(** One round of serve's loop after a call was decoded: the error serve
    returns, or the response written on fuzz_out. *)
Definition handle (fuel : nat) (c : call) : M workerServer (error + response) :=
  bind (dispatch fuel c) (fun r =>
  match r with
  | None => ret (inl "no arguments provided for any call")
  | Some resp =>
      bind (encode resp) (fun werr =>
      match werr with
      | Some e => ret (inl e)
      | None => ret (inr resp)
      end)
  end).

(** serve over the records [calls] still to come on fuzz_in; [sent] are the
    responses written so far. With no record left the server is blocked in
    Decode. The result is serve's error and the responses written. *)
Fixpoint serve (fuel : nat) (calls : list decoded) (sent : list response)
    : M workerServer (option error * list response) :=
  match calls with
  | [] => fun ws => Abort Fuel ws
  | EndOfCalls :: _ => ret (None, sent)
  | DecodeError e :: _ => ret (Some e, sent)
  | Decoded c :: rest =>
      bind (handle fuel c) (fun r =>
      match r with
      | inl e => ret (Some e, sent)
      | inr resp => serve fuel rest (sent ++ [resp])
      end)
  end.

(** ** The worker client *)

(** bytes.Equal *)
Fixpoint bytesEqual (a b : bytes) : bool :=
  match a, b with
  | [], [] => true
  | x :: a', y :: b' => Byte.eqb x y && bytesEqual a' b'
  | _, _ => false
  end.

Definition errSharedMemClosed : error :=
  "internal error: shared memory was closed and unmapped".

(** The client with the process at the other end of its pipes; the shared
    memory is the one [peer] maps. [clientMutator] is wc.m. *)
Record workerClient : Type := {
  peer : workerServer;
  clientMutator : prng
}.

Definition onPeer {A} (c : M workerServer A) : M workerClient A :=
  zoom peer (fun ws wc => {| peer := ws; clientMutator := clientMutator wc |}) c.
Definition setClientMutator (r : prng) : M workerClient unit :=
  modify (fun wc => {| peer := peer wc; clientMutator := r |}).

(** What the pipes and the coordinator's other goroutines do around one
    call: Encode failing on fuzz_in, the error Decode gives when no response
    arrives (end of stream, or the context's error), and whether cleanup
    closed [memMu] before either of the two receives on it. *)
Record surroundings : Type := {
  sendErr : option error;
  recvErr : error;
  closedBefore : bool;
  closedAfter : bool
}.

(** wc.callLocked(ctx, c, &resp): the error, and the response decoded. A
    server that stops, or that is still running when the read is cancelled,
    leaves the shared memory as it was then. *)
Definition callLocked (fuel : nat) (io : surroundings) (c : call)
    : M workerClient (option error * option response) :=
  match sendErr io with
  | Some e => ret (Some e, None)
  | None =>
      fun wc =>
        let back ws := {| peer := ws; clientMutator := clientMutator wc |} in
        match handle fuel c (peer wc) with
        | Ret (inr resp) ws => Ret (None, Some resp) (back ws)
        | Ret (inl _) ws => Ret (Some (recvErr io), None) (back ws)
        | Abort _ ws => Ret (Some (recvErr io), None) (back ws)
        end
  end.

(** mem.setValue(inp) by the client *)
Definition clientSetValue (inp : bytes) : M workerClient unit :=
  onPeer (fun ws =>
    match setValue inp (mem ws) with
    | Some m' => Ret tt (withMem (fun _ => m') ws)
    | None => Abort (Panic "value larger than shared memory capacity") ws
    end).

(** [n] rounds of wc.m.mutate(valuesOut, maxBytes) *)
Fixpoint replay (n : nat) (maxBytes : Z) (vs : list value) (r : prng)
    : list value * prng :=
  match n with
  | O => (vs, r)
  | S n' => let (vs', r') := mutate vs maxBytes r in replay n' maxBytes vs' r'
  end.

(** entryIn.Generation + 1, on the host's int *)
Definition nextGeneration (g : Z) : Z := GoInt.wrapS uintSize (g + 1).

(** workerClient.fuzz once the shared memory is held again: from
    resp.Count = mem.header().count to the return. *)
Definition fuzzReturn (entryIn : CorpusEntry) (args : fuzzArgs) (inp : bytes)
    (callErr : option error) (resp : fuzzResponse)
    : M workerClient (CorpusEntry * fuzzResponse * option error) :=
  bind (gets (fun wc => mem (peer wc))) (fun m =>
  let resp := FuzzResponse.withCount (count (header m)) resp in
  if negb (bytesEqual inp (valueRef m)) then panic "workerServer.fuzz modified input"
  else
    let needEntryOut :=
      negb (isNil callErr)
      || negb (String.eqb (FuzzResponse.Err resp) "")
      || (negb (FuzzArgs.Warmup args) && negb (isNil (FuzzResponse.CoverageData resp))) in
    if needEntryOut then
      match unmarshalCorpusFile inp with
      | inl e => panic ("unmarshaling fuzz input value after call: " ++ e)
      | inr valuesOut =>
          bind (gets clientMutator) (fun r0 =>
          let r1 := prngRestore (randState (header m)) (randInc (header m)) r0 in
          let (valuesOut', r2) :=
            if FuzzArgs.Warmup args then (valuesOut, r1)
            else replay (Z.to_nat (count (header m))) (valueCap m) valuesOut r1 in
          bind (setClientMutator r2) (fun _ =>
          let dataOut := marshalCorpusFile valuesOut' in
          ret ({| Parent := Path entryIn;
                  Path := pathOf dataOut;
                  Data := Some dataOut;
                  Values := [];
                  Generation := nextGeneration (Generation entryIn);
                  IsSeed := if FuzzArgs.Warmup args then IsSeed entryIn else false |},
               resp, callErr)))
      end
    else ret (zeroCorpusEntry, resp, callErr)).

Definition clientFuzz (fuel : nat) (io : surroundings)
    (entryIn : CorpusEntry) (args : fuzzArgs)
    : M workerClient (CorpusEntry * fuzzResponse * option error) :=
  if closedBefore io then ret (zeroCorpusEntry, FuzzResponse.zero, Some errSharedMemClosed)
  else
    bind (onPeer (modify (withMem (setCount 0)))) (fun _ =>
    match CorpusEntryData entryIn with
    | inl e => ret (zeroCorpusEntry, FuzzResponse.zero, Some e)
    | inr inp =>
        bind (clientSetValue inp) (fun _ =>
        bind (callLocked fuel io
                {| Ping := None; Fuzz := Some args; Minimize := None |}) (fun '(callErr, r) =>
        let resp := match r with Some (RFuzz x) => x | _ => FuzzResponse.zero end in
        if closedAfter io
        then ret (zeroCorpusEntry, FuzzResponse.zero, Some errSharedMemClosed)
        else fuzzReturn entryIn args inp callErr resp))
    end).

Definition clientMinimize (fuel : nat) (io : surroundings)
    (entryIn : CorpusEntry) (args : minimizeArgs)
    : M workerClient (CorpusEntry * minimizeResponse * option error) :=
  if closedBefore io
  then ret (zeroCorpusEntry, MinimizeResponse.zero, Some errSharedMemClosed)
  else
    bind (onPeer (modify (withMem (setCount 0)))) (fun _ =>
    match CorpusEntryData entryIn with
    | inl e => ret (zeroCorpusEntry, MinimizeResponse.zero, Some e)
    | inr inp =>
        bind (clientSetValue inp) (fun _ =>
        bind (callLocked fuel io
                {| Ping := None; Fuzz := None; Minimize := Some args |}) (fun '(callErr, r) =>
        let resp := match r with Some (RMinimize x) => x | _ => MinimizeResponse.zero end in
        if closedAfter io
        then ret (zeroCorpusEntry, MinimizeResponse.zero, Some errSharedMemClosed)
        else
          bind (gets (fun wc => mem (peer wc))) (fun m =>
          let resp := MinimizeResponse.withCount (count (header m)) resp in
          if MinimizeResponse.Success resp then
            let data := valueCopy m in
            match unmarshalCorpusFile data with
            | inl e => panic ("workerClient.minimize unmarshaling minimized value: " ++ e)
            | inr values =>
                ret ({| Parent := Parent entryIn;
                        Path := pathOf data;
                        Data := Some data;
                        Values := values;
                        Generation := Generation entryIn;
                        IsSeed := false |},
                     resp, callErr)
            end
          else ret (entryIn, resp, callErr))))
    end).

End Worker.

(** ** The supervisor's minimize path *)

(** Modelled from the spec: fuzz.go, which declares [fuzzMinimizeInput] and
    [fuzzResult], is not among the sources; the fields are those worker.go
    reads and writes, with the zero value of Go for the ones a literal
    leaves out. *)
Module FuzzMinimizeInput.
Record t : Type := {
  entry : CorpusEntry;
  crasherMsg : string;
  limit : Z;
  timeout : Z;
  keepCoverage : option bytes
}.
End FuzzMinimizeInput.
Definition fuzzMinimizeInput : Type := FuzzMinimizeInput.t.

Module FuzzResult.
Record t : Type := {
  entry : CorpusEntry;
  crasherMsg : string;
  canMinimize : bool;
  coverageData : option bytes;
  limit : Z;
  count : Z;
  totalDuration : Z;
  entryDuration : Z
}.
(** fuzzResult{} *)
Definition zero : t :=
  {| entry := zeroCorpusEntry; crasherMsg := ""; canMinimize := false;
     coverageData := None; limit := 0; count := 0; totalDuration := 0;
     entryDuration := 0 |}.
Definition withCrasherMsg (msg : string) (r : t) : t :=
  {| entry := entry r; crasherMsg := msg; canMinimize := canMinimize r;
     coverageData := coverageData r; limit := limit r; count := count r;
     totalDuration := totalDuration r; entryDuration := entryDuration r |}.
End FuzzResult.
Definition fuzzResult : Type := FuzzResult.t.

(** What worker.minimize reads of the supervisor once w.stop() returned:
    ctx.Err() != nil, w.interrupted, w.waitErr and isInterruptError of it. *)
Record stopped : Type := {
  ctxDone : bool;
  interrupted : bool;
  waitErr : option error;
  waitErrIsInterrupt : bool
}.

(** The %w verb on an error that may be nil. *)
Definition verbW (e : option error) : string :=
  match e with
  | Some t => t
  | None => "%!w(<nil>)"
  end.

(** worker.minimize from the return of w.client.minimize on. *)
Definition minimizeResult (input : fuzzMinimizeInput)
    (rpc : CorpusEntry * minimizeResponse * option error) (after : stopped)
    : fuzzResult * option error :=
  let '(entryOut, resp, err) := rpc in
  match err with
  | Some _ =>
      if ctxDone after || interrupted after || waitErrIsInterrupt after then
        ({| FuzzResult.entry := FuzzMinimizeInput.entry input;
            FuzzResult.crasherMsg := FuzzMinimizeInput.crasherMsg input;
            FuzzResult.canMinimize := false;
            FuzzResult.coverageData := FuzzMinimizeInput.keepCoverage input;
            FuzzResult.limit := FuzzMinimizeInput.limit input;
            FuzzResult.count := 0;
            FuzzResult.totalDuration := 0;
            FuzzResult.entryDuration := 0 |}, None)
      else
        (FuzzResult.zero,
         Some ("fuzzing process terminated unexpectedly while minimizing: "
               ++ verbW (waitErr after))%string)
  | None =>
      if negb (String.eqb (FuzzMinimizeInput.crasherMsg input) "")
         && String.eqb (MinimizeResponse.Err resp) ""
         && negb (MinimizeResponse.Success resp)
      then (FuzzResult.zero, Some "attempted to minimize but could not reproduce")
      else
        ({| FuzzResult.entry := entryOut;
            FuzzResult.crasherMsg := MinimizeResponse.Err resp;
            FuzzResult.canMinimize := false;
            FuzzResult.coverageData := MinimizeResponse.CoverageData resp;
            FuzzResult.limit := FuzzMinimizeInput.limit input;
            FuzzResult.count := MinimizeResponse.Count resp;
            FuzzResult.totalDuration := MinimizeResponse.Duration resp;
            FuzzResult.entryDuration := 0 |}, None)
  end.

(** worker.minimize *)
Definition workerMinimize {C : Collaborators} (fuel : nat) (io : surroundings)
    (after : stopped) (input : fuzzMinimizeInput)
    : M workerClient (fuzzResult * option error) :=
  let args := {| MinimizeArgs.Limit := FuzzMinimizeInput.limit input;
                 MinimizeArgs.Timeout := FuzzMinimizeInput.timeout input;
                 MinimizeArgs.KeepCoverage := FuzzMinimizeInput.keepCoverage input |} in
  bind (clientMinimize fuel io (FuzzMinimizeInput.entry input) args) (fun rpc =>
  ret (minimizeResult input rpc after)).

(** The minimizeC case of worker.coordinate, from the return of w.minimize
    on: the result sent on resultC. *)
Definition coordinateMinimized (input : fuzzMinimizeInput)
    (r : fuzzResult * option error) : fuzzResult :=
  match snd r with
  | Some err =>
      let result :=
        {| FuzzResult.entry := FuzzMinimizeInput.entry input;
           FuzzResult.crasherMsg := FuzzMinimizeInput.crasherMsg input;
           FuzzResult.canMinimize := false;
           FuzzResult.coverageData := None;
           FuzzResult.limit := FuzzMinimizeInput.limit input;
           FuzzResult.count := 0;
           FuzzResult.totalDuration := 0;
           FuzzResult.entryDuration := 0 |} in
      if String.eqb (FuzzResult.crasherMsg result) ""
      then FuzzResult.withCrasherMsg err result
      else result
  | None => fst r
  end.

(** The minimizeC case of worker.coordinate. *)
Definition coordinateMinimize {C : Collaborators} (fuel : nat) (io : surroundings)
    (after : stopped) (input : fuzzMinimizeInput) : M workerClient fuzzResult :=
  bind (workerMinimize fuel io after input) (fun r =>
  ret (coordinateMinimized input r)).

(** ** Vocabulary of the statements *)

(** Every outcome of [c], a return or not, leaves [P] of the state as it
    was. *)
Definition keeps {S X A} (P : S -> X) (c : M S A) : Prop :=
  forall s, P (finalState (c s)) = P s.

(** The candidates a slot of kind [k] takes without fault. *)
Definition accepts (candidate : value) (k : kind) : bool :=
  match candidate, k with
  | VFloat64 _, (KFloat32 | KFloat64) => true
  | VUint _, (KUint | KUint8 | KUint16 | KUint32 | KUint64
              | KInt | KInt8 | KInt16 | KInt32 | KInt64) => true
  | VBytes _, (KBytes | KString) => true
  | _, _ => false
  end.

(** The third disjunct of shouldStop as the specification words it: crash
    mode, an error in hand, and attempts that stopped reproducing it. *)
Definition specShouldStop (cancelled : bool) (limit cnt : Z)
    (err : option error) (wantError stoppedReproducing : bool) : bool :=
  cancelled
  || ((0 <? limit) && (limit <=? cnt))
  || (wantError && negb (isNil err) && stoppedReproducing).

(** How many variants of a call record are populated. *)
Definition populated (c : call) : nat :=
  (if isNil (Ping c) then 0 else 1)
  + (if isNil (Fuzz c) then 0 else 1)
  + (if isNil (Minimize c) then 0 else 1).

Section Vocabulary.
Context {C : Collaborators}.

Definition serverPayload (ws : workerServer) : Z * bytes := payload (mem ws).
Definition minimizingPayload (st : minimizing) : Z * bytes := payload (mem (srv st)).
Definition clientPayload (wc : workerClient) : Z * bytes := payload (mem (peer wc)).

(** The outcome is not the fault of workerClient.fuzz on a modified input. *)
Definition notModifiedFault {A} (o : outcome workerClient A) : Prop :=
  match o with
  | Abort (Panic msg) _ => msg <> "workerServer.fuzz modified input"
  | _ => True
  end.

(** The server once args.Timeout is applied, and the call's context then. *)
Definition afterTimeout (d : Z) (ws : workerServer) : workerServer :=
  finalState (applyTimeout d ws).

Definition timed (d : Z) (w : world) : world :=
  if d =? 0 then w else withTimeout d w.

(** The mask lengths agree, so that the first check of fuzz passes, and the
    server with the mask installed. *)
Definition maskFits (data : option bytes) (ws : workerServer) : Prop :=
  forall cov mk, data = Some cov -> coverageMask ws = Some mk ->
    List.length cov = List.length mk.

Definition installed (data : option bytes) (ws : workerServer) : workerServer :=
  match data with
  | Some cov => withCoverageMask (Some cov) ws
  | None => ws
  end.

(** Crash mode after the first run: the slots keep their dynamic types and
    an error is in hand. *)
Definition crashInv (ks : list kind) (st : minimizing) : Prop :=
  map kindOf (vals st) = ks /\ retErr st <> None.

(** Some run of the user's function takes the process down. *)
Definition mayDie : Prop := exists entry w, fst (fuzzFn entry w) = Died.

(** [c] keeps [I], and stops only when the user's function takes the
    process down. *)
Definition sound {A} (I : minimizing -> Prop) (c : M minimizing A) : Prop :=
  forall st, I st ->
    match c st with
    | Ret _ st' => I st'
    | Abort h _ => h = Crash /\ mayDie
    end.

(** serve once the method's response [resp] is in hand. *)
Definition reply (fuel : nat) (rest : list decoded) (sent : list response)
    (resp : response) : M workerServer (option error * list response) :=
  bind (encode resp) (fun werr =>
  match werr with
  | Some e => ret (Some e, sent)
  | None => serve fuel rest (sent ++ [resp])
  end).

(** The entry workerClient.fuzz builds around [dataOut]. *)
Definition fuzzEntryOut (entryIn : CorpusEntry) (args : fuzzArgs) (dataOut : bytes)
    : CorpusEntry :=
  {| Parent := Path entryIn;
     Path := pathOf dataOut;
     Data := Some dataOut;
     Values := [];
     Generation := nextGeneration (Generation entryIn);
     IsSeed := if FuzzArgs.Warmup args then IsSeed entryIn else false |}.

(** The entry workerClient.minimize builds from the minimized payload. *)
Definition minimizeEntryOut (entryIn : CorpusEntry) (data : bytes) (values : list value)
    : CorpusEntry :=
  {| Parent := Parent entryIn;
     Path := pathOf data;
     Data := Some data;
     Values := values;
     Generation := Generation entryIn;
     IsSeed := false |}.

End Vocabulary.

(** ** A closed instance of the collaborators

    A small worker to run the definitions on: corpus entries of one byte
    string, a user function that fails on byte strings of odd length and
    sets the first coverage counter otherwise, a mutator that drops the last
    byte, a byte shrinker that drops the last two, an integer shrinker that
    tries the half. *)

Record demoWorld : Type := {
  clock : Z;
  deadline : Z;          (* 0: none *)
  snapshot : bytes
}.

Definition demoRan (cov : bytes) (w : demoWorld) : demoWorld :=
  {| clock := clock w + 1; deadline := deadline w; snapshot := cov |}.

Definition demoFn (e : CorpusEntry) (w : demoWorld) : fnres * demoWorld :=
  match Values e with
  | VBytes b :: _ =>
      if Nat.odd (List.length b) then (Fail "odd length", demoRan [x00] w)
      else (Pass, demoRan [x01] w)
  | _ => (Pass, demoRan [x00] w)
  end.

Definition demoCtxErr (w : demoWorld) : bool * demoWorld :=
  ((0 <? deadline w) && (deadline w <=? clock w), w).

Definition demoWithTimeout (d : Z) (w : demoWorld) : demoWorld :=
  {| clock := clock w; deadline := clock w + d; snapshot := snapshot w |}.

Definition demoMutate (vs : list value) (maxBytes : Z) (r : Z) : list value * Z :=
  match vs with
  | VBytes b :: tl => (VBytes (removelast b) :: tl, r + 1)
  | _ => (vs, r + 1)
  end.

Definition demoMarshal (vs : list value) : bytes :=
  match vs with
  | [VBytes b] => b
  | _ => []
  end.

Definition demoUnmarshal (b : bytes) : error + list value := inr [VBytes b].

Definition demoEntryData (e : CorpusEntry) : error + bytes :=
  match Data e with
  | Some d => inr d
  | None => inl "open: no such file or directory"
  end.

(** bits.OnesCount8 *)
Definition onesCount8 (z : Z) : Z :=
  fold_left (fun n i => if Z.testbit z i then n + 1 else n) [0; 1; 2; 3; 4; 5; 6; 7] 0.

Fixpoint demoCountNew (base snap : bytes) : Z :=
  match snap, base with
  | s :: snap', b :: base' =>
      onesCount8 (Z.land (Sha256.zOfByte s) (Z.lxor (Sha256.zOfByte b) 255))
      + demoCountNew base' snap'
  | _, _ => 0
  end.

Fixpoint demoHasBit (base snap : bytes) : bool :=
  match snap, base with
  | s :: snap', b :: base' =>
      negb (Z.land (Sha256.zOfByte s) (Sha256.zOfByte b) =? 0) || demoHasBit base' snap'
  | _, _ => false
  end.

Fixpoint dropTail (n : nat) (b : bytes) : shrinker bytes :=
  match n with
  | O => Done
  | S n' =>
      AskStop (fun stop =>
        if stop then Done
        else
          let c := removelast (removelast b) in
          Try c (fun ok => if ok then dropTail n' c else Done))
  end.

Definition halveOnce (v : Z) : shrinker Z :=
  AskStop (fun stop => if stop then Done else Try (v / 2) (fun _ => Done)).

Definition demo : Collaborators :=
  {| host64 := true;
     world := demoWorld;
     fuzzFn := demoFn;
     coverageSnapshot := snapshot;
     coverageEnabled := true;
     ctxErr := demoCtxErr;
     withTimeout := demoWithTimeout;
     now := clock;
     prng := Z;
     prngSave := fun r => (r, 1);
     prngRestore := fun st _ _ => st;
     mutate := demoMutate;
     marshalCorpusFile := demoMarshal;
     unmarshalCorpusFile := demoUnmarshal;
     CorpusEntryData := demoEntryData;
     pipeWrite := fun w => (None, w);
     countNewCoverageBits := demoCountNew;
     hasCoverageBit := demoHasBit;
     minimizeFloat := fun _ => Try (S754_zero false) (fun _ => Done);
     minimizeInteger := halveOnce;
     minimizeBytes := fun b => dropTail (List.length b) b |}.

Definition demoMem (b : bytes) : sharedMem :=
  {| header := {| count := 0; valueLen := Z.of_nat (List.length b);
                  randState := 0; randInc := 0 |};
     region := b ++ repeat x00 (16 - List.length b) |}.

Definition demoStart : demoWorld :=
  {| clock := 0; deadline := 0; snapshot := [] |}.

Definition demoServer (b : bytes) : @workerServer demo :=
  @Build_workerServer demo (demoMem b) 7 None demoStart [].

Definition demoClient (b : bytes) : @workerClient demo :=
  @Build_workerClient demo (demoServer b) 3.

Definition demoEntry (b : bytes) : CorpusEntry :=
  {| Parent := "seed"; Path := pathOf b; Data := Some b; Values := [VBytes b];
     Generation := 4; IsSeed := true |}.

Definition quiet : surroundings :=
  {| sendErr := None; recvErr := "EOF"; closedBefore := false; closedAfter := false |}.

Definition ab : bytes := list_byte_of_string "ab".
Definition a_ : bytes := list_byte_of_string "a".

Definition demoWarmup : fuzzArgs :=
  {| FuzzArgs.Timeout := 0; FuzzArgs.Limit := 0; FuzzArgs.Warmup := true;
     FuzzArgs.CoverageData := None |}.

Definition demoFuzzArgs : fuzzArgs :=
  {| FuzzArgs.Timeout := 0; FuzzArgs.Limit := 1; FuzzArgs.Warmup := false;
     FuzzArgs.CoverageData := None |}.

Definition demoCrashArgs : minimizeArgs :=
  {| MinimizeArgs.Timeout := 0; MinimizeArgs.Limit := 0; MinimizeArgs.KeepCoverage := None |}.

Definition demoCoverArgs : minimizeArgs :=
  {| MinimizeArgs.Timeout := 0; MinimizeArgs.Limit := 0;
     MinimizeArgs.KeepCoverage := Some [x01] |}.

(** Coverage the demo function never reaches. *)
Definition demoLostArgs : minimizeArgs :=
  {| MinimizeArgs.Timeout := 0; MinimizeArgs.Limit := 0;
     MinimizeArgs.KeepCoverage := Some [x02] |}.

Definition aba : bytes := list_byte_of_string "aba".

(** A call record with two variants populated. *)
Definition twoVariants : call :=
  {| Ping := Some tt; Fuzz := Some demoWarmup; Minimize := None |}.

Definition demoFlaked : fuzzMinimizeInput :=
  {| FuzzMinimizeInput.entry := demoEntry a_;
     FuzzMinimizeInput.crasherMsg := "odd length";
     FuzzMinimizeInput.limit := 0;
     FuzzMinimizeInput.timeout := 0;
     FuzzMinimizeInput.keepCoverage := None |}.

Definition demoStopped : stopped :=
  {| ctxDone := false; interrupted := false; waitErr := None; waitErrIsInterrupt := false |}.

(** ** Vocabulary of the statements on runs and mutations *)

(** Every outcome of [c], a return or not, leaves the state related by [R]
    to the one it started from. *)
Definition advances {S A} (R : S -> S -> Prop) (c : M S A) : Prop :=
  forall s, R s (finalState (c s)).

(** [c] keeps [I] when it returns. *)
Definition maintains {S A} (I : S -> Prop) (c : M S A) : Prop :=
  forall s, I s ->
    match c s with
    | Ret _ s' => I s'
    | Abort _ _ => True
    end.

Section Tally.
Context {C : Collaborators}.


Definition isRun (e : event) : bool :=
  match e with
  | Ran _ => true
  | Mutated _ => false
  end.

(** The runs of the user's function among [evs], and the mutations. *)
Definition runs (evs : list event) : nat := List.length (filter isRun evs).
Definition mutations (evs : list event) : nat :=
  List.length (filter (fun e => negb (isRun e)) evs).

(** From [ws] to [ws'] the log has grown by [evs], and the counter in the
    header by one [count++] for each run among them. *)
Definition countedBy (evs : list event) (ws ws' : workerServer) : Prop :=
  log ws' = log ws ++ evs
  /\ count (header (mem ws')) = Nat.iter (runs evs) GoInt.incr64 (count (header (mem ws))).

Definition counted (ws ws' : workerServer) : Prop := exists evs, countedBy evs ws ws'.

Definition countedM (st st' : minimizing) : Prop := counted (srv st) (srv st').

Definition counts {A} (c : M workerServer A) : Prop := advances counted c.
Definition countsM {A} (c : M minimizing A) : Prop := advances countedM c.

(** The values of the last run in a log, if any. *)
Fixpoint lastRun (evs : list event) : option (list value) :=
  match evs with
  | [] => None
  | e :: tl =>
      match lastRun tl with
      | Some vs => Some vs
      | None =>
          match e with
          | Ran entry => Some (Values entry)
          | Mutated _ => None
          end
      end
  end.

(** The events of rounds of the main loop of fuzz from the values [vs] and
    the PRNG state [r], and the values and the state they end with: every
    round mutates and runs the result, and runs it once more when [d] says
    that it was deflaked. *)
Fixpoint rounds (maxBytes : Z) (vs : list value) (r : prng) (ds : list bool)
    : list event * (list value * prng) :=
  match ds with
  | [] => ([], (vs, r))
  | d :: tl =>
      let (vs', r') := mutate vs maxBytes r in
      let (evs, fin) := rounds maxBytes vs' r' tl in
      (Mutated maxBytes :: Ran (entryOf vs')
         :: (if d then [Ran (entryOf vs')] else []) ++ evs,
       fin)
  end.

(** From [ws] the main loop of fuzz, entered with the values [vs], has gone
    through some rounds to [ws']: the log and the mutator are those of the
    rounds, the mask and the memory but for its counter are kept, no round is deflaked
    without a mask, and under a limit not yet reached the counter has risen
    by the number of runs without passing the limit. *)
Definition traced (limit : Z) (vs : list value) (ws ws' : workerServer) : Prop :=
  exists ds,
    log ws' = log ws ++ fst (rounds (valueCap (mem ws)) vs (mutator ws) ds)
    /\ mutator ws' = snd (snd (rounds (valueCap (mem ws)) vs (mutator ws) ds))
    /\ coverageMask ws' = coverageMask ws
    /\ mem ws' = setCount (count (header (mem ws'))) (mem ws)
    /\ (coverageMask ws = None -> forallb negb ds = true)
    /\ (0 < limit < 2 ^ 63 -> - 2 ^ 63 <= count (header (mem ws)) < limit ->
        count (header (mem ws'))
        = count (header (mem ws))
          + Z.of_nat (runs (fst (rounds (valueCap (mem ws)) vs (mutator ws) ds)))
        /\ count (header (mem ws')) <= limit).

(** The server as fuzz has prepared it when it reaches the warmup run or
    the main loop: the mask installed, the timeout applied, the PRNG state
    saved in the header. *)
Definition prepared (args : fuzzArgs) (ws : workerServer) : workerServer :=
  let ws0 := afterTimeout (FuzzArgs.Timeout args) (installed (FuzzArgs.CoverageData args) ws) in
  withMem (setRand (fst (prngSave (mutator ws0))) (snd (prngSave (mutator ws0)))) ws0.

(** What fuzz does from there: the warmup run or the main loop, and the
    deferred functions. *)
Definition fuzzBody (fuel : nat) (args : fuzzArgs) (vs : list value) (start : Z)
    : M workerServer fuzzResponse :=
  bind (if FuzzArgs.Warmup args then fuzzWarmup vs FuzzResponse.zero
        else fuzzLoop fuel (FuzzArgs.Limit args) vs FuzzResponse.zero) (fun resp =>
  bind (gets (fun ws => count (header (mem ws)))) (fun cnt =>
  bind (gets (fun ws => now (env ws))) (fun finish =>
  ret (FuzzResponse.withTotalDuration (finish - start)
         (FuzzResponse.withCount cnt resp))))).

(** What makes the values [vs] interesting for a minimization, as seen in
    a run of the user's function: in crash mode the run failed with the
    error in hand; in coverage mode, when no error is in hand, the run
    passed and set one of the bits to keep. *)
Definition interesting (keep : option bytes) (vs : list value) (err : option error) : Prop :=
  match keep with
  | None => exists e w w', err = Some e /\ fuzzFn (entryOf vs) w = (Fail e, w')
  | Some k =>
      err = None ->
      exists w w', fuzzFn (entryOf vs) w = (Pass, w')
                   /\ hasCoverageBit k (coverageSnapshot w') = true
  end.

(** The slots keep their dynamic types and the values in them are
    interesting. *)
Definition shrunk (keep : option bytes) (ks : list kind) (st : minimizing) : Prop :=
  map kindOf (vals st) = ks /\ interesting keep (vals st) (retErr st).


(** The dynamic types of the values being minimized. *)
Definition kindsOf (st : minimizing) : list kind := map kindOf (vals st).

(** The law of the PRNG the replay rests on: a state restored from what
    [save] gave is the state saved. *)
Definition restoresSaved : Prop :=
  forall r r' : prng, prngRestore (fst (prngSave r)) (snd (prngSave r)) r' = r.

(** An int64 *)
Definition int64 (z : Z) : Prop := - 2 ^ 63 <= z < 2 ^ 63.

End Tally.

(** A fuzz call on the closed instance with a coverage mask that lacks the
    bit the function sets on byte strings of even length. *)
Definition abc : bytes := list_byte_of_string "abc".

Definition demoMaskArgs : fuzzArgs :=
  {| FuzzArgs.Timeout := 0; FuzzArgs.Limit := 0; FuzzArgs.Warmup := false;
     FuzzArgs.CoverageData := Some [x00] |}.


(** ** The supervisor: the worker process, its pipes and its control *)

(** Modelled from the spec: sys_posix.go and sys_windows.go
    ([isInterruptError], [terminationSignal], [isCrashSignal]) and os/exec
    are not among the sources. The spec gives them as the platform's reading
    of the child's wait error: whether it is an interrupt, the signal that
    terminated the child when there is one, whether that signal is a crash
    signal, and the child's exit code, with 70 reserved; on platforms without
    an interrupt signal stop goes straight to kill. *)
Class Host : Type := {
  (** runtime.GOOS == "windows" *)
  windows : bool;
  isInterruptError : option error -> bool;
  (** terminationSignal(err): the signal's number, when ok *)
  terminationSignal : option error -> option Z;
  isCrashSignal : Z -> bool;
  (** The ExitCode() of err when it is an exec.ExitError *)
  exitCode : option error -> option Z
}.

Definition workerExitCode : Z := 70.

(** os.Interrupt and os.Kill *)
Inductive signal : Type := Interrupt | Kill.

(** The four ends of the pipes fuzz_in and fuzz_out. The coordinator writes
    to [FuzzInW] and reads from [FuzzOutR]. *)
Inductive fd : Type := FuzzInR | FuzzInW | FuzzOutR | FuzzOutW.

Definition fd_eqb (a b : fd) : bool :=
  match a, b with
  | FuzzInR, FuzzInR | FuzzInW, FuzzInW | FuzzOutR, FuzzOutR | FuzzOutW, FuzzOutW => true
  | _, _ => false
  end.

(** What the coordinator process did to its descriptors, in order. This is
    ghost state: a test observes it through the operating system. *)
Inductive fileOp : Type :=
| Opened (d : fd)
| Closed (d : fd)       (* a call of Close on the file *)
| Drained (d : fd).     (* io.Copy(ioutil.Discard, file) *)

Definition delta (d : fd) (op : fileOp) : Z :=
  match op with
  | Opened d' => if fd_eqb d d' then 1 else 0
  | Closed d' => if fd_eqb d d' then -1 else 0
  | Drained _ => 0
  end.

(** How often [d] was opened, less how often it was closed. *)
Fixpoint held (d : fd) (ops : list fileOp) : Z :=
  match ops with
  | [] => 0
  | op :: tl => delta d op + held d tl
  end.

(** What the operating system answers to the three steps of
    workerClient.Close. *)
Record closing : Type := {
  inErr : option error;       (* wc.fuzzIn.Close() *)
  drainErr : option error;    (* io.Copy(ioutil.Discard, wc.fuzzOut) *)
  outErr : option error       (* wc.fuzzOut.Close() *)
}.

Definition fileOperation (op : fileOp) : M (list fileOp) unit :=
  modify (fun ops => ops ++ [op]).

(** workerClient.Close, on the coordinator's descriptors *)
Definition Close (c : closing) : M (list fileOp) (option error) :=
  bind (fileOperation (Closed FuzzInW)) (fun _ =>
  match inErr c with
  | Some err =>
      bind (fileOperation (Closed FuzzOutR)) (fun _ =>
      ret (Some err))
  | None =>
      bind (fileOperation (Drained FuzzOutR)) (fun _ =>
      match drainErr c with
      | Some err =>
          bind (fileOperation (Closed FuzzOutR)) (fun _ =>
          ret (Some err))
      | None =>
          bind (fileOperation (Closed FuzzOutR)) (fun _ =>
          ret (outErr c))
      end)
  end).

(** The fields of [worker] the control functions read and write. [cmd] and
    [client] are whether the pointer is set; [termC] is nil, or the channel,
    open ([false]) or closed ([true]). [files], [signals] and [notices] are
    ghost state: the descriptor operations, the signals sent to the child
    and the lines written to the log. *)
Module Worker.
Record t : Type := {
  cmd : bool;
  client : bool;
  waitErr : option error;
  interrupted : bool;
  termC : option bool;
  files : list fileOp;
  signals : list signal;
  notices : nat
}.
Definition withCmd (b : bool) (w : t) : t :=
  {| cmd := b; client := client w; waitErr := waitErr w; interrupted := interrupted w;
     termC := termC w; files := files w; signals := signals w; notices := notices w |}.
Definition withClient (b : bool) (w : t) : t :=
  {| cmd := cmd w; client := b; waitErr := waitErr w; interrupted := interrupted w;
     termC := termC w; files := files w; signals := signals w; notices := notices w |}.
Definition withWaitErr (e : option error) (w : t) : t :=
  {| cmd := cmd w; client := client w; waitErr := e; interrupted := interrupted w;
     termC := termC w; files := files w; signals := signals w; notices := notices w |}.
Definition withInterrupted (b : bool) (w : t) : t :=
  {| cmd := cmd w; client := client w; waitErr := waitErr w; interrupted := b;
     termC := termC w; files := files w; signals := signals w; notices := notices w |}.
Definition withTermC (c : option bool) (w : t) : t :=
  {| cmd := cmd w; client := client w; waitErr := waitErr w; interrupted := interrupted w;
     termC := c; files := files w; signals := signals w; notices := notices w |}.
Definition withFiles (f : list fileOp) (w : t) : t :=
  {| cmd := cmd w; client := client w; waitErr := waitErr w; interrupted := interrupted w;
     termC := termC w; files := f; signals := signals w; notices := notices w |}.
Definition signalled (s : signal) (w : t) : t :=
  {| cmd := cmd w; client := client w; waitErr := waitErr w; interrupted := interrupted w;
     termC := termC w; files := files w; signals := signals w ++ [s]; notices := notices w |}.
Definition noticed (w : t) : t :=
  {| cmd := cmd w; client := client w; waitErr := waitErr w; interrupted := interrupted w;
     termC := termC w; files := files w; signals := signals w; notices := S (notices w) |}.
(** A worker as newWorker returns it. *)
Definition fresh : t :=
  {| cmd := false; client := false; waitErr := None; interrupted := false;
     termC := None; files := []; signals := []; notices := 0 |}.
End Worker.
Definition worker : Type := Worker.t.

Definition onFiles {A} (c : M (list fileOp) A) : M worker A :=
  zoom Worker.files Worker.withFiles c.

(** w.isRunning() *)
Definition isRunning : M worker bool := gets Worker.cmd.

(** What the operating system answers to start: the two os.Pipe calls and
    cmd.Start(). *)
Record spawn : Type := {
  pipeInErr : option error;
  pipeOutErr : option error;
  startErr : option error
}.

(** worker.start *)
Definition start (os : spawn) : M worker (option error) :=
  bind isRunning (fun running =>
  if running then panic "worker already started"
  else
    bind (modify (fun w =>
            Worker.withTermC None (Worker.withInterrupted false (Worker.withWaitErr None w))))
         (fun _ =>
    match pipeInErr os with
    | Some err => ret (Some err)
    | None =>
        bind (onFiles (fileOperation (Opened FuzzInR))) (fun _ =>
        bind (onFiles (fileOperation (Opened FuzzInW))) (fun _ =>
        (* defer fuzzInR.Close() *)
        let deferred1 := onFiles (fileOperation (Closed FuzzInR)) in
        match pipeOutErr os with
        | Some err =>
            bind (onFiles (fileOperation (Closed FuzzInW))) (fun _ =>
            bind deferred1 (fun _ =>
            ret (Some err)))
        | None =>
            bind (onFiles (fileOperation (Opened FuzzOutR))) (fun _ =>
            bind (onFiles (fileOperation (Opened FuzzOutW))) (fun _ =>
            (* defer fuzzOutW.Close() *)
            let deferred2 := onFiles (fileOperation (Closed FuzzOutW)) in
            match startErr os with
            | Some err =>
                bind (onFiles (fileOperation (Closed FuzzInW))) (fun _ =>
                bind (onFiles (fileOperation (Closed FuzzOutR))) (fun _ =>
                bind deferred2 (fun _ =>
                bind deferred1 (fun _ =>
                ret (Some err)))))
            | None =>
                bind (modify (fun w =>
                        Worker.withClient true
                          (Worker.withTermC (Some false) (Worker.withCmd true w))))
                     (fun _ =>
                bind deferred2 (fun _ =>
                bind deferred1 (fun _ =>
                ret None)))
            end))
        end))
    end)).

(** The goroutine of start, when the child terminates:
    w.waitErr = w.cmd.Wait(); close(w.termC) *)
Definition waited (status : option error) (w : worker) : worker :=
  Worker.withTermC (Some true) (Worker.withWaitErr status w).

(** What the child does while stop waits for it: it terminates before the
    timer has fired [n] times more ([patience = Some n]) or never ([None]),
    with the status cmd.Wait() gives; and how closing the client goes. A
    child that terminated between the call of stop and its first select is
    one of patience 0: the two paths of stop do the same then. *)
Record fate : Type := {
  patience : option nat;
  exitErr : option error;
  closes : closing
}.

Definition elapsed (left : option nat) : option nat :=
  match left with
  | Some n => Some (Nat.pred n)
  | None => None
  end.

(** The loop of stop. [sig] is the signal to send next, [armed] whether the
    timer is running, [left] the child's patience from here on. The client
    is closed by the goroutine stop has started, which has finished when
    [<-closeC] returns. *)
Fixpoint stopWait (fuel : nat) (f : fate) (sig : option signal) (armed : bool)
    (left : option nat) : M worker (option error) :=
  match fuel with
  | O => fun w => Abort Fuel w
  | S fuel' =>
      (* case <-w.termC *)
      let terminated :=
        bind (modify (waited (exitErr f))) (fun _ =>
        bind (onFiles (Close (closes f))) (fun _ =>
        bind (modify (fun w => Worker.withClient false (Worker.withCmd false w))) (fun _ =>
        gets Worker.waitErr))) in
      match left, armed with
      | Some O, _ => terminated
      | Some (S _), false => terminated
      | None, false => fun w => Abort Fuel w
      | _, true =>
          (* case <-t.C *)
          bind (modify (Worker.withInterrupted true)) (fun _ =>
          match sig with
          | Some Interrupt =>
              bind (modify (Worker.signalled Interrupt)) (fun _ =>
              stopWait fuel' f (Some Kill) true (elapsed left))
          | Some Kill =>
              bind (modify (Worker.signalled Kill)) (fun _ =>
              stopWait fuel' f None true (elapsed left))
          | None =>
              bind (modify Worker.noticed) (fun _ =>
              stopWait fuel' f None false (elapsed left))
          end)
      end
  end.

Section Supervisor.
Context {H : Host}.

(** worker.stop *)
Definition stop (fuel : nat) (f : fate) : M worker (option error) :=
  bind (gets Worker.termC) (fun termC =>
  match termC with
  | None => panic "worker was not started successfully"
  | Some true =>
      bind (gets Worker.client) (fun present =>
      if negb present then gets Worker.waitErr
      else
        bind (onFiles (Close (closes f))) (fun _ =>
        bind (modify (fun w => Worker.withClient false (Worker.withCmd false w))) (fun _ =>
        gets Worker.waitErr)))
  | Some false =>
      (* go func() { w.client.Close(); close(closeC) }() *)
      bind (gets Worker.client) (fun present =>
      if negb present then panic "invalid memory address or nil pointer dereference"
      else stopWait fuel f (Some (if windows then Kill else Interrupt)) true (patience f))
  end).

(** The %v verb on an error that may be nil. *)
Definition verbV (e : option error) : string :=
  match e with
  | Some t => t
  | None => "<nil>"
  end.

(** worker.startAndPing. [ctxBefore] and [ctxAfter] are ctx.Err() on entry
    and once stop has returned, [pinged] what w.client.ping(ctx) returns. *)
Definition startAndPing (fuel : nat) (ctxBefore : option error) (os : spawn)
    (pinged : option error) (f : fate) (ctxAfter : option error)
    : M worker (option error) :=
  match ctxBefore with
  | Some cause => ret (Some cause)
  | None =>
      bind (start os) (fun err =>
      match err with
      | Some e => ret (Some e)
      | None =>
          match pinged with
          | Some e =>
              bind (stop fuel f) (fun _ =>
              match ctxAfter with
              | Some cause => ret (Some cause)
              | None =>
                  if isInterruptError (Some e) then ret (Some e)
                  else ret (Some ("fuzzing process terminated without fuzzing: " ++ e)%string)
              end)
          | None => ret None
          end
      end)
  end.

(** Modelled from the spec: fuzz.go, which declares [fuzzInput], is not
    among the sources; the fields are those worker.coordinate reads. *)
Record fuzzInput : Type := {
  inputEntry : CorpusEntry;
  inputTimeout : Z;
  inputLimit : Z;
  inputWarmup : bool;
  inputCoverageData : option bytes
}.

(** The case the select of coordinate takes, with what arrives: the
    context's error; the child's status, stored by the goroutine of start;
    an input and what w.client.fuzz returns on it; an input to minimize and
    what w.client.minimize returns on it. *)
Inductive selected : Type :=
| CtxDone (cause : error)
| TermClosed (status : option error)
| InputReceived (input : fuzzInput) (rpc : CorpusEntry * fuzzResponse * option error)
| MinimizeReceived (input : fuzzMinimizeInput)
    (rpc : CorpusEntry * minimizeResponse * option error).

(** What happens around one round of coordinate's loop. *)
Record turn : Type := {
  ctxAtStart : option error;
  spawned : spawn;
  pinged : option error;
  chosen : selected;
  fated : fate;
  ctxAfterStop : option error
}.

(** The args coordinate builds for w.client.fuzz. *)
Definition fuzzArgsOf (input : fuzzInput) : fuzzArgs :=
  {| FuzzArgs.Limit := inputLimit input;
     FuzzArgs.Timeout := inputTimeout input;
     FuzzArgs.Warmup := inputWarmup input;
     FuzzArgs.CoverageData := inputCoverageData input |}.

(** The result coordinate sends for [input]. *)
Definition fuzzResultOf (input : fuzzInput) (entry : CorpusEntry) (resp : fuzzResponse)
    (canMinimize : bool) : fuzzResult :=
  {| FuzzResult.limit := inputLimit input;
     FuzzResult.count := FuzzResponse.Count resp;
     FuzzResult.totalDuration := FuzzResponse.TotalDuration resp;
     FuzzResult.entryDuration := FuzzResponse.InterestingDuration resp;
     FuzzResult.entry := entry;
     FuzzResult.crasherMsg := FuzzResponse.Err resp;
     FuzzResult.coverageData := FuzzResponse.CoverageData resp;
     FuzzResult.canMinimize := canMinimize |}.

(** How a round of coordinate ends: coordinate returns, or a result goes to
    resultC and the loop goes on. *)
Inductive round : Type :=
| Returned (err : option error)
| Sent (result : fuzzResult).

(** The ctx.Done() case. *)
Definition coordinateDone (fuel : nat) (f : fate) (cause : error) : M worker round :=
  bind (stop fuel f) (fun err =>
  bind (gets Worker.interrupted) (fun interrupted =>
  if negb (isNil err) && negb interrupted && negb (isInterruptError err)
  then ret (Returned err)
  else ret (Returned (Some cause)))).

(** The w.termC case. *)
Definition coordinateTerminated (fuel : nat) (f : fate) : M worker round :=
  bind (stop fuel f) (fun err =>
  bind (gets Worker.interrupted) (fun interrupted =>
  if interrupted then panic "worker interrupted after unexpected termination"
  else if isNil err || isInterruptError err then ret (Returned None)
  else if match exitCode err with
          | Some code => code =? workerExitCode
          | None => false
          end
  then ret (Returned (Some ("fuzzing process exited unexpectedly due to an internal failure: "
                             ++ verbW err)%string))
  else ret (Returned (Some ("fuzzing process terminated unexpectedly: "
                             ++ verbW err)%string)))).

(** The inputC case, from the return of w.client.fuzz on. *)
Definition coordinateInput (fuel : nat) (f : fate) (ctxAfter : option error)
    (input : fuzzInput) (rpc : CorpusEntry * fuzzResponse * option error)
    : M worker round :=
  let '(entry, resp, err) := rpc in
  match err with
  | Some e =>
      bind (stop fuel f) (fun _ =>
      match ctxAfter with
      | Some cause => ret (Returned (Some cause))
      | None =>
          bind (gets Worker.interrupted) (fun interrupted =>
          if interrupted
          then ret (Returned (Some ("communicating with fuzzing process: " ++ e)%string))
          else
            bind (gets Worker.waitErr) (fun waitErr =>
            if isNil waitErr || isInterruptError waitErr then ret (Returned None)
            else if match terminationSignal waitErr with
                    | Some sig => negb (isCrashSignal sig)
                    | None => false
                    end
            then ret (Returned (Some
                   ("fuzzing process terminated by unexpected signal; no crash will be recorded: "
                    ++ verbV waitErr)%string))
            else
              let resp := FuzzResponse.withErr
                            ("fuzzing process terminated unexpectedly: " ++ verbV waitErr)
                            resp in
              ret (Sent (fuzzResultOf input entry resp false))))
      end)
  | None => ret (Sent (fuzzResultOf input entry resp true))
  end.

(** What worker.minimize reads of the worker once w.stop() returned. *)
Definition observed (ctxAfter : option error) (w : worker) : stopped :=
  {| ctxDone := negb (isNil ctxAfter);
     interrupted := Worker.interrupted w;
     waitErr := Worker.waitErr w;
     waitErrIsInterrupt := isInterruptError (Worker.waitErr w) |}.

(** worker.minimize, from the return of w.client.minimize on. *)
Definition minimizeAfter (fuel : nat) (f : fate) (ctxAfter : option error)
    (input : fuzzMinimizeInput) (rpc : CorpusEntry * minimizeResponse * option error)
    : M worker (fuzzResult * option error) :=
  bind (match snd rpc with
        | Some _ => bind (stop fuel f) (fun _ => ret tt)
        | None => ret tt
        end) (fun _ =>
  bind (gets (observed ctxAfter)) (fun after =>
  ret (minimizeResult input rpc after))).

(** The select of coordinate, with the case it takes. *)
Definition coordinateSelect (fuel : nat) (t : turn) : M worker round :=
  match chosen t with
  | CtxDone cause => coordinateDone fuel (fated t) cause
  | TermClosed status =>
      bind (modify (waited status)) (fun _ =>
      coordinateTerminated fuel (fated t))
  | InputReceived input rpc =>
      coordinateInput fuel (fated t) (ctxAfterStop t) input rpc
  | MinimizeReceived input rpc =>
      bind (minimizeAfter fuel (fated t) (ctxAfterStop t) input rpc) (fun r =>
      ret (Sent (coordinateMinimized input r)))
  end.

(** worker.coordinate over the rounds [turns]; [results] are the results
    sent on resultC so far. With no round left coordinate is blocked in its
    select. *)
Fixpoint coordinate (fuel : nat) (turns : list turn) (results : list fuzzResult)
    : M worker (option error * list fuzzResult) :=
  match turns with
  | [] => fun w => Abort Fuel w
  | t :: rest =>
      bind isRunning (fun running =>
      bind (if running then ret None
            else startAndPing fuel (ctxAtStart t) (spawned t) (pinged t)
                   (fated t) (ctxAfterStop t)) (fun err =>
      match err with
      | Some e => ret (Some e, results)
      | None =>
          bind (coordinateSelect fuel t) (fun r =>
          match r with
          | Returned e => ret (e, results)
          | Sent result => coordinate fuel rest (results ++ [result])
          end)
      end))
  end.

End Supervisor.

(** A host for the closed instance: a POSIX system where signal 2 is the
    interrupt and signal 11 a crash. *)
Definition demoHost : Host :=
  {| windows := false;
     isInterruptError := fun e =>
       match e with Some t => String.eqb t "signal: interrupt" | None => false end;
     terminationSignal := fun e =>
       match e with
       | Some t =>
           if String.eqb t "signal: interrupt" then Some 2
           else if String.eqb t "signal: segmentation fault" then Some 11
           else if String.eqb t "signal: killed" then Some 9
           else None
       | None => None
       end;
     isCrashSignal := fun s => s =? 11;
     exitCode := fun e =>
       match e with
       | Some t => if String.eqb t "exit status 70" then Some 70 else None
       | None => None
       end |}.

Definition noErrors : closing := {| inErr := None; drainErr := None; outErr := None |}.

Definition spawns : spawn := {| pipeInErr := None; pipeOutErr := None; startErr := None |}.

(** ** Vocabulary of the supervisor's statements *)

Definition fds : list fd := [FuzzInR; FuzzInW; FuzzOutR; FuzzOutW].

(** No worker process, no client, and every descriptor that was opened has
    been closed once. *)
Definition idle (w : worker) : bool :=
  negb (Worker.cmd w) && negb (Worker.client w)
  && forallb (fun d => held d (Worker.files w) =? 0) fds.

(** A started worker nobody has stopped or signalled: the coordinator holds
    its two ends of the pipes and nothing else. *)
Definition running (w : worker) : bool :=
  Worker.cmd w && Worker.client w
  && match Worker.termC w with Some false => true | _ => false end
  && negb (Worker.interrupted w)
  && forallb (fun d => held d (Worker.files w)
                       =? match d with FuzzInW | FuzzOutR => 1 | _ => 0 end) fds.

(** The signals stop sends, in order, when the child outlives them all. *)
Definition ladder {H : Host} : list signal :=
  if windows then [Kill] else [Interrupt; Kill].

(** The first error of the three steps of Close. *)
Definition firstError (c : closing) : option error :=
  match inErr c with
  | Some e => Some e
  | None =>
      match drainErr c with
      | Some e => Some e
      | None => outErr c
      end
  end.

(** The first error of the three steps of start. *)
Definition spawnError (os : spawn) : option error :=
  match pipeInErr os with
  | Some e => Some e
  | None =>
      match pipeOutErr os with
      | Some e => Some e
      | None => startErr os
      end
  end.

(** The signals still to send when [sig] is the next. *)
Definition rungs (sig : option signal) : list signal :=
  match sig with
  | Some Interrupt => [Interrupt; Kill]
  | Some Kill => [Kill]
  | None => []
  end.

(** The case of the loop of stop where the child has terminated. *)
Definition stopTerminated (f : fate) (w : worker) : worker :=
  Worker.withClient false (Worker.withCmd false
    (Worker.withFiles (finalState (Close (closes f) (Worker.files w)))
       (waited (exitErr f) w))).


(** The result of worker.minimize when it gives the original input back. *)
Definition originalResult (input : fuzzMinimizeInput) : fuzzResult :=
  {| FuzzResult.entry := FuzzMinimizeInput.entry input;
     FuzzResult.crasherMsg := FuzzMinimizeInput.crasherMsg input;
     FuzzResult.canMinimize := false;
     FuzzResult.coverageData := FuzzMinimizeInput.keepCoverage input;
     FuzzResult.limit := FuzzMinimizeInput.limit input;
     FuzzResult.count := 0;
     FuzzResult.totalDuration := 0;
     FuzzResult.entryDuration := 0 |}.

(** The worker of the closed instance once started. *)
Definition demoRunning : worker :=
  {| Worker.cmd := true; Worker.client := true; Worker.waitErr := None;
     Worker.interrupted := false; Worker.termC := Some false;
     Worker.files := [Opened FuzzInR; Opened FuzzInW; Opened FuzzOutR; Opened FuzzOutW;
                      Closed FuzzOutW; Closed FuzzInR];
     Worker.signals := []; Worker.notices := 0 |}.

(** A child that needs the interrupt to terminate, and one that crashes. *)
Definition stubborn : fate :=
  {| patience := Some 1%nat; exitErr := Some "signal: interrupt"; closes := noErrors |}.

Definition crashed : fate :=
  {| patience := Some 0%nat; exitErr := Some "signal: segmentation fault";
     closes := noErrors |}.

Definition demoInput : fuzzInput :=
  {| inputEntry := demoEntry ab; inputTimeout := 0; inputLimit := 1;
     inputWarmup := false; inputCoverageData := None |}.

(** A round in which the child crashes during the fuzz call, and one in
    which the context is cancelled. *)
Definition crashTurn : turn :=
  {| ctxAtStart := None; spawned := spawns; pinged := None;
     chosen := InputReceived demoInput (zeroCorpusEntry, FuzzResponse.zero, Some "EOF");
     fated := crashed; ctxAfterStop := None |}.

Definition cancelTurn : turn :=
  {| ctxAtStart := None; spawned := spawns; pinged := None;
     chosen := CtxDone "context canceled";
     fated := stubborn; ctxAfterStop := Some "context canceled" |}.

Definition exitTurn : turn :=
  {| ctxAtStart := None; spawned := spawns; pinged := None;
     chosen := TermClosed (Some "exit status 70");
     fated := crashed; ctxAfterStop := None |}.

(** The started worker once stop has interrupted the stubborn child. *)
Definition demoInterrupted : worker :=
  {| Worker.cmd := false; Worker.client := false;
     Worker.waitErr := Some "signal: interrupt";
     Worker.interrupted := true; Worker.termC := Some true;
     Worker.files := [Opened FuzzInR; Opened FuzzInW; Opened FuzzOutR; Opened FuzzOutW;
                      Closed FuzzOutW; Closed FuzzInR;
                      Closed FuzzInW; Drained FuzzOutR; Closed FuzzOutR];
     Worker.signals := [Interrupt]; Worker.notices := 0 |}.

(** * Theorems *)

(** ** The content-addressed name: SHA-256 on its test vectors *)

Example sha256_abc :
  hex (Sha256.Sum256 (list_byte_of_string "abc")) =
  "ba7816bf8f01cfea414140de5dae2223b00361a396177a9cb410ff61f20015ad".
Proof. vm_compute. reflexivity. Qed.

Example sha256_two_blocks :
  hex (Sha256.Sum256 (list_byte_of_string
    "abcdbcdecdefdefgefghfghighijhijkijkljklmklmnlmnomnopnopq")) =
  "248d6a61d20638b8e5c026930c3e6039a33ce45964ff2167f6ecedd419db06c1".
Proof. vm_compute. reflexivity. Qed.

Example pathOf_is_eight_hex_digits : pathOf a_ = "ca978112".
Proof. vm_compute. reflexivity. Qed.

(** ** Lists, bytes and the shared memory *)

Lemma setNth_kinds i v prev vs :
  nth_error vs i = Some prev -> kindOf v = kindOf prev ->
  map kindOf (setNth i v vs) = map kindOf vs.
Proof.
  revert i. induction vs as [| hd tl IH]; intros [| i] Hn Hk; cbn in *; try discriminate.
  - injection Hn as ->. now rewrite Hk.
  - f_equal. now apply IH.
Qed.

Lemma setNth_nth i v vs prev :
  nth_error vs i = Some prev -> nth_error (setNth i v vs) i = Some v.
Proof.
  revert i. induction vs as [| hd tl IH]; intros [| i] Hn; cbn in *; try discriminate; auto.
Qed.

Lemma setNth_restore i v vs prev :
  nth_error vs i = Some prev -> setNth i prev (setNth i v vs) = vs.
Proof.
  revert i. induction vs as [| hd tl IH]; intros [| i] Hn; cbn in *; try discriminate.
  - now injection Hn as ->.
  - f_equal. now apply IH.
Qed.

Lemma bytesEqual_refl b : bytesEqual b b = true.
Proof.
  induction b as [| x b IH]; cbn; [reflexivity |].
  rewrite IH, andb_true_r. now apply Byte.byte_dec_lb.
Qed.

Lemma setValue_valueRef b m m' : setValue b m = Some m' -> valueRef m' = b.
Proof.
  unfold setValue. destruct (Z.of_nat (List.length b) >? valueCap m); [discriminate |].
  intros H. injection H as <-. unfold valueRef. cbn.
  rewrite Nat2Z.id. rewrite firstn_app, Nat.sub_diag, firstn_all. cbn. apply app_nil_r.
Qed.

Lemma setValue_fits b m :
  Z.of_nat (List.length b) <= valueCap m -> exists m', setValue b m = Some m'.
Proof.
  intros H. unfold setValue.
  destruct (Z.of_nat (List.length b) >? valueCap m) eqn:E; [lia | eauto].
Qed.

Lemma valueRef_payload m m' : payload m = payload m' -> valueRef m = valueRef m'.
Proof. unfold payload, valueRef. intros H. injection H as -> ->. reflexivity. Qed.

(** ** Frames: what a computation leaves as it was, whatever its outcome *)

Section Frames.
Context {S X : Type} (P : S -> X).

Lemma keeps_ret {A} (a : A) : keeps P (ret a).
Proof. intros s. reflexivity. Qed.

Lemma keeps_panic {A} msg : keeps P (@panic S A msg).
Proof. intros s. reflexivity. Qed.

Lemma keeps_gets {A} (f : S -> A) : keeps P (gets f).
Proof. intros s. reflexivity. Qed.

Lemma keeps_modify (f : S -> S) : (forall s, P (f s) = P s) -> keeps P (modify f).
Proof. intros H s. apply H. Qed.

Lemma keeps_bind {A B} (c : M S A) (k : A -> M S B) :
  keeps P c -> (forall a, keeps P (k a)) -> keeps P (bind c k).
Proof.
  intros Hc Hk s. unfold bind. specialize (Hc s).
  destruct (c s) as [a s' | h s']; cbn in *.
  - rewrite Hk. exact Hc.
  - exact Hc.
Qed.

Lemma keeps_runShrinker {Cand} (sh : shrinker Cand) (try : Cand -> M S bool)
    (stop : M S bool) :
  (forall c, keeps P (try c)) -> keeps P stop -> keeps P (runShrinker sh try stop).
Proof.
  intros Ht Hs. induction sh as [| k IH | c k IH]; cbn.
  - apply keeps_ret.
  - apply keeps_bind; auto.
  - apply keeps_bind; auto.
Qed.
End Frames.

Lemma keeps_zoom {S T X A} (P : S -> X) (Q : T -> X) (from : S -> T) (back : T -> S -> S)
    (c : M T A) :
  (forall s, Q (from s) = P s) -> (forall t s, P (back t s) = Q t) ->
  keeps Q c -> keeps P (zoom from back c).
Proof.
  intros Hf Hb Hc s. unfold zoom. specialize (Hc (from s)).
  destruct (c (from s)); cbn in *; rewrite Hb, Hc; apply Hf.
Qed.

Create HintDb frame.

#[global] Hint Resolve keeps_ret keeps_panic keeps_gets : frame.

Ltac frame :=
  repeat first
    [ solve [eauto with frame]
    | apply keeps_bind; [ | intros ]
    | progress cbv zeta
    | match goal with
      | |- keeps _ (match ?x with _ => _ end) => destruct x
      end ].

Section Facts.
Context {C : Collaborators}.

(** ** The server's steps and the payload *)

Lemma keeps_incrCount : keeps serverPayload incrCount.
Proof. apply keeps_modify. intros ws. reflexivity. Qed.

Lemma keeps_callFuzzFn vs : keeps serverPayload (callFuzzFn vs).
Proof.
  intros ws. unfold callFuzzFn.
  destruct (fuzzFn (entryOf vs) (env ws)) as [r w]. destruct r; reflexivity.
Qed.

Lemma keeps_ctxCancelled : keeps serverPayload ctxCancelled.
Proof. intros ws. unfold ctxCancelled. destruct (ctxErr (env ws)). reflexivity. Qed.

Lemma keeps_applyTimeout d : keeps serverPayload (applyTimeout d).
Proof.
  unfold applyTimeout. destruct (d =? 0).
  - apply keeps_ret.
  - apply keeps_modify. reflexivity.
Qed.

Lemma keeps_onServer {A} (c : M workerServer A) :
  keeps serverPayload c -> keeps minimizingPayload (onServer c).
Proof. intros H. unfold onServer. eapply keeps_zoom; eauto; reflexivity. Qed.

Lemma keeps_setVals vs : keeps minimizingPayload (setVals vs).
Proof. apply keeps_modify. reflexivity. Qed.

Lemma keeps_setRetErr e : keeps minimizingPayload (setRetErr e).
Proof. apply keeps_modify. reflexivity. Qed.

#[local] Hint Resolve keeps_incrCount keeps_callFuzzFn keeps_ctxCancelled
  keeps_applyTimeout keeps_onServer keeps_setVals keeps_setRetErr : frame.

Lemma keeps_shouldStop limit wantError : keeps minimizingPayload (shouldStop limit wantError).
Proof. unfold shouldStop. frame. Qed.

Lemma keeps_tryMinimized keep valI cand : keeps minimizingPayload (tryMinimized keep valI cand).
Proof. unfold tryMinimized. frame. Qed.

#[local] Hint Resolve keeps_shouldStop keeps_tryMinimized : frame.

Lemma keeps_shrinkValue limit keep valI v :
  keeps minimizingPayload (shrinkValue limit keep valI v).
Proof.
  unfold shrinkValue. destruct v; cbv zeta;
    try apply keeps_ret;
    try match goal with |- keeps _ (if ?b then _ else _) => destruct b; [apply keeps_ret | ] end;
    apply keeps_runShrinker; intros; eauto with frame.
Qed.

#[local] Hint Resolve keeps_shrinkValue : frame.

Lemma keeps_shrinkLoop limit keep n : forall valI,
  keeps minimizingPayload (shrinkLoop limit keep n valI).
Proof.
  induction n as [| n IH]; intros valI; cbn.
  - apply keeps_ret.
  - frame.
Qed.

#[local] Hint Resolve keeps_shrinkLoop : frame.

Lemma keeps_minimizeInput limit keep : keeps minimizingPayload (minimizeInput limit keep).
Proof. unfold minimizeInput. frame. Qed.

Lemma keeps_callMinimizeInput vs limit keep :
  keeps serverPayload (callMinimizeInput vs limit keep).
Proof.
  intros ws. unfold callMinimizeInput.
  pose proof (keeps_minimizeInput limit keep {| srv := ws; vals := vs; retErr := None |}) as H.
  destruct (minimizeInput _ _ _); exact H.
Qed.

Lemma applyTimeout_run d ws : applyTimeout d ws = Ret tt (afterTimeout d ws).
Proof. unfold afterTimeout, applyTimeout. destruct (d =? 0); reflexivity. Qed.

Lemma afterTimeout_mem d ws : mem (afterTimeout d ws) = mem ws.
Proof. unfold afterTimeout, applyTimeout. destruct (d =? 0); reflexivity. Qed.

Lemma afterTimeout_env d ws : env (afterTimeout d ws) = timed d (env ws).
Proof. unfold afterTimeout, applyTimeout, timed. destruct (d =? 0); reflexivity. Qed.

Lemma afterTimeout_log d ws : log (afterTimeout d ws) = log ws.
Proof. unfold afterTimeout, applyTimeout. destruct (d =? 0); reflexivity. Qed.

Lemma afterTimeout_mutator d ws : mutator (afterTimeout d ws) = mutator ws.
Proof. unfold afterTimeout, applyTimeout. destruct (d =? 0); reflexivity. Qed.

(** C5: workerServer.minimize writes the payload of the shared memory, with
    the marshalled shrunken values, only when minimizeInput reports success;
    on every other outcome, a response with Success false or no response at
    all, the payload is as the call found it. Success of the response is the
    success minimizeInput returned, Err is the text of its error, and
    CoverageData is the coverage snapshot exactly when it succeeded with a
    nil error, nil otherwise. *)
Theorem minimize_writes_only_on_success (args : minimizeArgs) (ws : workerServer) :
  match minimize args ws with
  | Ret resp ws' =>
      exists success err vs vs' ws1,
        unmarshalCorpusFile (valueCopy (mem ws)) = inr vs
        /\ callMinimizeInput vs (MinimizeArgs.Limit args) (MinimizeArgs.KeepCoverage args)
             (afterTimeout (MinimizeArgs.Timeout args) ws) = Ret (success, err, vs') ws1
        /\ MinimizeResponse.Success resp = success
        /\ (success = true ->
            valueRef (mem ws') = marshalCorpusFile vs' /\ payload (mem ws1) = payload (mem ws))
        /\ (success = false -> payload (mem ws') = payload (mem ws))
        /\ MinimizeResponse.Err resp = match err with Some e => e | None => "" end
        /\ MinimizeResponse.CoverageData resp =
             if success && isNil err then Some (coverageSnapshot (env ws')) else None
  | Abort _ ws' => payload (mem ws') = payload (mem ws)
  end.
Proof.
  unfold minimize, bind, gets.
  destruct (unmarshalCorpusFile (valueCopy (mem ws))) as [e | vs] eqn:Hdec.
  - reflexivity.
  - pose proof (keeps_applyTimeout (MinimizeArgs.Timeout args) ws) as Ht.
    unfold afterTimeout.
    destruct (applyTimeout (MinimizeArgs.Timeout args) ws) as [[] ws0 | h ws0] eqn:Hto;
      cbn in Ht |- *; [ | exact Ht ].
    pose proof (keeps_callMinimizeInput vs (MinimizeArgs.Limit args)
                  (MinimizeArgs.KeepCoverage args) ws0) as Hm.
    destruct (callMinimizeInput vs _ _ ws0) as [[[success err] vs'] ws1 | h ws1] eqn:Hmin;
      cbn in Hm; [ | unfold serverPayload in *; congruence ].
    unfold serverPayload in *.
    destruct success.
    + unfold writeToMem.
      destruct (setValue (marshalCorpusFile vs') (mem ws1)) as [m' |] eqn:Hset; cbn.
      * exists true, err, vs, vs', ws1.
        repeat split; try congruence; try (destruct err; reflexivity).
        now apply setValue_valueRef in Hset.
      * congruence.
    + cbn. exists false, err, vs, vs', ws1.
      repeat split; try congruence; destruct err; reflexivity.
Qed.

(** ** fuzz and the payload *)

Lemma keeps_fuzzOnce vs : keeps serverPayload (fuzzOnce vs).
Proof. unfold fuzzOnce. frame. Qed.

Lemma keeps_mutateVals vs : keeps serverPayload (mutateVals vs).
Proof.
  intros ws. unfold mutateVals.
  destruct (mutate vs (valueCap (mem ws)) (mutator ws)). reflexivity.
Qed.

Lemma keeps_fuzzShouldStop limit : keeps serverPayload (fuzzShouldStop limit).
Proof. apply keeps_gets. Qed.

#[local] Hint Resolve keeps_fuzzOnce keeps_mutateVals keeps_fuzzShouldStop : frame.

Lemma keeps_fuzzWarmup vs resp : keeps serverPayload (fuzzWarmup vs resp).
Proof. unfold fuzzWarmup. frame. Qed.

Lemma keeps_fuzzLoop fuel limit : forall vs resp,
  keeps serverPayload (fuzzLoop fuel limit vs resp).
Proof.
  induction fuel as [| fuel IH]; intros vs resp; cbn.
  - intros ws. reflexivity.
  - frame.
Qed.

Lemma keeps_installCoverage data : keeps serverPayload (installCoverage data).
Proof.
  unfold installCoverage. frame; apply keeps_modify; reflexivity.
Qed.

#[local] Hint Resolve keeps_fuzzWarmup keeps_fuzzLoop keeps_installCoverage : frame.

Lemma keeps_fuzz fuel args : keeps serverPayload (fuzz fuel args).
Proof.
  unfold fuzz. frame.
  apply keeps_modify. intros ws. destruct (prngSave (mutator ws)). reflexivity.
Qed.

Lemma keeps_encode r : keeps serverPayload (encode r).
Proof. intros ws. unfold encode. destruct (pipeWrite (env ws)). reflexivity. Qed.

(** A fuzz call as the serve loop handles it. *)
Lemma keeps_handle_fuzz fuel args :
  keeps serverPayload (handle fuel {| Ping := None; Fuzz := Some args; Minimize := None |}).
Proof.
  unfold handle, dispatch, Fuzz.
  pose proof (keeps_fuzz fuel args). pose proof keeps_encode. frame.
Qed.

Lemma keeps_callLocked_fuzz fuel io args :
  keeps clientPayload
    (callLocked fuel io {| Ping := None; Fuzz := Some args; Minimize := None |}).
Proof.
  unfold callLocked. destruct (sendErr io); [apply keeps_ret |].
  intros wc. pose proof (keeps_handle_fuzz fuel args (peer wc)) as H.
  destruct (handle fuel _ (peer wc)) as [[e | r] ws | h ws]; exact H.
Qed.

Lemma keeps_fuzzReturn entryIn args inp callErr resp :
  keeps clientPayload (fuzzReturn entryIn args inp callErr resp).
Proof.
  unfold fuzzReturn. apply keeps_bind; [apply keeps_gets | intros m]. cbv zeta.
  destruct (negb (bytesEqual inp (valueRef m))); [apply keeps_panic |].
  match goal with |- keeps _ (if ?b then _ else _) => destruct b end; [| apply keeps_ret].
  destruct (unmarshalCorpusFile inp) as [e | vs]; [apply keeps_panic |].
  apply keeps_bind; [apply keeps_gets | intros r0].
  match goal with |- keeps _ (let (_, _) := ?p in _) => destruct p end.
  apply keeps_bind; [apply keeps_modify; reflexivity | intros _; apply keeps_ret].
Qed.

(** The fault of fuzzReturn when the bytes differ, and its absence when
    they do not. *)
Lemma fuzzReturn_modified entryIn args inp callErr resp wc :
  bytesEqual inp (valueRef (mem (peer wc))) = false ->
  fuzzReturn entryIn args inp callErr resp wc
  = Abort (Panic "workerServer.fuzz modified input") wc.
Proof. intros H. unfold fuzzReturn, bind, gets. rewrite H. reflexivity. Qed.

Lemma fuzzReturn_unmodified entryIn args inp callErr resp wc :
  bytesEqual inp (valueRef (mem (peer wc))) = true ->
  notModifiedFault (fuzzReturn entryIn args inp callErr resp wc).
Proof.
  intros H. unfold fuzzReturn, bind, gets. rewrite H. cbn [negb].
  match goal with |- context [if ?b then _ else _] => destruct b end; [| exact I].
  destruct (unmarshalCorpusFile inp) as [e | vs]; [cbn; discriminate |].
  match goal with |- context [let (_, _) := ?p in _] => destruct p end.
  exact I.
Qed.

Lemma clientFuzz_input_kept fuel io entryIn args wc inp :
  closedBefore io = false ->
  CorpusEntryData entryIn = inr inp ->
  Z.of_nat (List.length inp) <= valueCap (mem (peer wc)) ->
  valueRef (mem (peer (finalState (clientFuzz fuel io entryIn args wc)))) = inp.
Proof.
  intros Hopen Hdata Hfit. unfold clientFuzz. rewrite Hopen, Hdata.
  destruct (setValue_fits inp (setCount 0 (mem (peer wc))) Hfit) as [m' Hset].
  unfold bind at 1. unfold onPeer at 1, zoom, modify. cbn [peer].
  unfold bind at 1. unfold clientSetValue, onPeer, zoom. cbn [peer withMem mem].
  rewrite Hset.
  match goal with
  | |- valueRef (mem (peer (finalState (?c ?s)))) = _ =>
      assert (Hk : keeps clientPayload c); [ | specialize (Hk s) ]
  end.
  - apply keeps_bind; [apply keeps_callLocked_fuzz | intros [callErr r]].
    cbv zeta. destruct (closedAfter io); [apply keeps_ret | apply keeps_fuzzReturn].
  - eapply eq_trans; [exact (valueRef_payload _ _ Hk) |]. cbn.
    now apply setValue_valueRef in Hset.
Qed.

Lemma clientFuzz_never_modified fuel io entryIn args wc :
  notModifiedFault (clientFuzz fuel io entryIn args wc).
Proof.
  unfold clientFuzz. destruct (closedBefore io); [exact I |].
  unfold bind at 1. unfold onPeer at 1, zoom, modify. cbn [peer].
  destruct (CorpusEntryData entryIn) as [e | inp]; [exact I |].
  unfold bind at 1. unfold clientSetValue, onPeer, zoom. cbn [peer withMem mem].
  destruct (setValue inp (setCount 0 (mem (peer wc)))) as [m' |] eqn:Hset;
    [ | cbn; discriminate ].
  unfold bind.
  match goal with
  | |- context [callLocked fuel io ?c ?s] =>
      pose proof (keeps_callLocked_fuzz fuel io args s) as Hk;
      destruct (callLocked fuel io c s) as [[callErr r] wc1 | h wc1] eqn:Hcall
  end.
  - cbn in Hk. destruct (closedAfter io); [exact I |].
    apply fuzzReturn_unmodified.
    replace (valueRef (mem (peer wc1))) with inp; [apply bytesEqual_refl |].
    symmetry. eapply eq_trans; [exact (valueRef_payload _ _ Hk) |]. cbn.
    now apply setValue_valueRef in Hset.
  - exfalso. unfold callLocked in Hcall. destruct (sendErr io); [discriminate |].
    destruct (handle _ _ _) as [[? | ?] ? | ? ?]; discriminate.
Qed.

(** C4: a fuzz RPC leaves the payload as the client placed it. The server's
    fuzz handler keeps the payload (length and bytes) through every outcome,
    a response, a panic, a crash of the user's function or a call still
    running; so once workerClient.fuzz has copied the input in, the bytes
    mem.valueRef() gives at the end are that input, and the call never ends
    in the fault "workerServer.fuzz modified input". Were the bytes to
    differ, the client would end in that panic: no error is returned. *)
Theorem fuzz_leaves_payload :
  (forall fuel args ws,
      payload (mem (finalState (fuzz fuel args ws))) = payload (mem ws))
  /\ (forall fuel io entryIn args wc inp,
      closedBefore io = false ->
      CorpusEntryData entryIn = inr inp ->
      Z.of_nat (List.length inp) <= valueCap (mem (peer wc)) ->
      valueRef (mem (peer (finalState (clientFuzz fuel io entryIn args wc)))) = inp)
  /\ (forall fuel io entryIn args wc,
      notModifiedFault (clientFuzz fuel io entryIn args wc))
  /\ (forall entryIn args inp callErr resp wc,
      bytesEqual inp (valueRef (mem (peer wc))) = false ->
      fuzzReturn entryIn args inp callErr resp wc
      = Abort (Panic "workerServer.fuzz modified input") wc).
Proof.
  split; [| split; [| split]].
  - intros fuel args ws. exact (keeps_fuzz fuel args ws).
  - exact clientFuzz_input_kept.
  - exact clientFuzz_never_modified.
  - exact fuzzReturn_modified.
Qed.

(** ** Shrinking in crash mode *)

Lemma castCandidate_accepts candidate prev :
  accepts candidate (kindOf prev) = true ->
  exists v, castCandidate candidate prev = Some v /\ kindOf v = kindOf prev.
Proof.
  destruct candidate, prev; cbn; intros H; try discriminate; eauto.
Qed.

Lemma sound_ret {A} I (a : A) : sound I (ret a).
Proof. intros st H. exact H. Qed.

Lemma sound_bind {A B} I (c : M minimizing A) (k : A -> M minimizing B) :
  sound I c -> (forall a, sound I (k a)) -> sound I (bind c k).
Proof.
  intros Hc Hk st H. unfold bind. specialize (Hc st H).
  destruct (c st) as [a st' | h st']; [now apply Hk | exact Hc].
Qed.

Lemma sound_runShrinker {Cand} I (sh : shrinker Cand) try stop :
  (forall c, sound I (try c)) -> sound I stop -> sound I (runShrinker sh try stop).
Proof.
  intros Ht Hs. induction sh as [| k IH | c k IH]; cbn.
  - apply sound_ret.
  - apply sound_bind; auto.
  - apply sound_bind; auto.
Qed.

Lemma sound_shouldStop ks limit wantError :
  sound (crashInv ks) (shouldStop limit wantError).
Proof.
  intros st H. unfold shouldStop, bind, onServer, zoom, ctxCancelled, gets, ret.
  destruct (ctxErr (env (srv st))). exact H.
Qed.

Lemma sound_tryMinimized ks valI k candidate :
  nth_error ks valI = Some k -> accepts candidate k = true ->
  sound (crashInv ks) (tryMinimized None valI candidate).
Proof.
  intros Hk Hacc st [Hks Herr]. unfold tryMinimized, bind, gets.
  assert (exists prev, nth_error (vals st) valI = Some prev /\ kindOf prev = k)
    as (prev & Hprev & Hkind).
  { rewrite <- Hks in Hk. rewrite nth_error_map in Hk.
    destruct (nth_error (vals st) valI) as [p |]; [| discriminate].
    injection Hk as Hk. eauto. }
  rewrite Hprev. rewrite <- Hkind in Hacc.
  destruct (castCandidate_accepts _ _ Hacc) as (v & -> & Hv).
  unfold setVals, modify, onServer, zoom, incrCount, callFuzzFn, setRetErr, ret. cbn.
  destruct (fuzzFn _ _) as [[| e |] w] eqn:Hrun; cbn.
  - split; cbn; [| exact Herr].
    rewrite (setNth_restore _ v _ _ Hprev). exact Hks.
  - split; cbn; [| discriminate].
    rewrite (setNth_kinds _ _ _ _ Hprev Hv). exact Hks.
  - split; [reflexivity |]. eexists. eexists. rewrite Hrun. reflexivity.
Qed.

Lemma sound_shrinkValue ks limit valI v :
  nth_error ks valI = Some (kindOf v) ->
  sound (crashInv ks) (shrinkValue limit None valI v).
Proof.
  intros Hk. unfold shrinkValue. cbv zeta.
  destruct v; cbn [kindOf] in Hk;
    try apply sound_ret;
    try match goal with |- sound _ (if ?b then _ else _) => destruct b; [apply sound_ret |] end;
    (apply sound_runShrinker;
     [ intros c; eapply sound_tryMinimized; [exact Hk | reflexivity]
     | apply sound_shouldStop ]).
Qed.

Lemma sound_shrinkLoop ks limit n : forall valI,
  (valI + n <= List.length ks)%nat ->
  sound (crashInv ks) (shrinkLoop limit None n valI).
Proof.
  induction n as [| n IH]; intros valI Hle; cbn.
  - apply sound_ret.
  - apply sound_bind; [apply sound_shouldStop | intros stop].
    destruct stop; [apply sound_ret |].
    intros st HI. unfold bind at 1, gets.
    destruct HI as [Hks Herr].
    destruct (nth_error (vals st) valI) as [v |] eqn:Hv.
    + apply sound_bind; [| intros _; apply IH; lia | split; assumption].
      apply sound_shrinkValue. rewrite <- Hks, nth_error_map, Hv. reflexivity.
    + exfalso. apply nth_error_None in Hv.
      rewrite <- Hks, length_map in Hle. lia.
Qed.

Lemma shouldStop_run limit wantError st :
  shouldStop limit wantError st
  = Ret (shouldStopWhen (fst (ctxErr (env (srv st)))) limit
           (count (header (mem (srv st)))) (retErr st) wantError)
        {| srv := withEnv (snd (ctxErr (env (srv st)))) (srv st);
           vals := vals st; retErr := retErr st |}.
Proof.
  unfold shouldStop, bind, onServer, zoom, ctxCancelled, gets, ret.
  destruct (ctxErr (env (srv st))). reflexivity.
Qed.

(** minimizeInput in crash mode, once the run on the original values
    failed: it returns true with an error, unless a later run takes the
    process down. *)
Lemma minimizeInput_crash_mode limit st w1 w2 e :
  ctxErr (env (srv st)) = (false, w1) ->
  (0 <? limit) && (limit <=? count (header (mem (srv st)))) = false ->
  fuzzFn (entryOf (vals st)) w1 = (Fail e, w2) ->
  exists st',
    (exists e', minimizeInput limit None st = Ret (true, Some e') st')
    \/ (minimizeInput limit None st = Abort Crash st' /\ mayDie).
Proof.
  intros Hctx Hlim Hrun.
  remember (minimizeInput limit None st) as out eqn:Hout.
  unfold minimizeInput in Hout. cbv zeta in Hout. cbn [isNil] in Hout.
  unfold bind at 1 in Hout. rewrite shouldStop_run, Hctx in Hout. cbn [fst snd] in Hout.
  unfold shouldStopWhen in Hout. rewrite Hlim in Hout.
  cbn [orb andb negb] in Hout. rewrite andb_false_r in Hout.
  unfold bind at 1 in Hout. unfold onServer at 1, zoom, incrCount, modify in Hout.
  cbn [srv vals retErr] in Hout.
  unfold bind at 1, gets in Hout. cbn [vals] in Hout.
  unfold bind at 1 in Hout. unfold onServer at 1, zoom, callFuzzFn in Hout.
  cbn [srv vals retErr env withMem withEnv] in Hout. rewrite Hrun in Hout.
  unfold bind at 1, setRetErr, modify in Hout. cbn [srv vals retErr] in Hout.
  unfold bind at 1 in Hout. cbn [isNil andb negb] in Hout.
  unfold bind at 1 in Hout.
  match type of Hout with
  | context [shrinkLoop ?l None ?n 0%nat ?s] =>
      pose proof (@sound_shrinkLoop (map kindOf (vals st)) l n 0%nat) as Hs;
      specialize (Hs ltac:(rewrite length_map; lia) s);
      destruct (shrinkLoop l None n 0%nat s) as [[] st' | h st'] eqn:Hloop
  end.
  - destruct Hs as [_ Herr]; [split; [reflexivity | discriminate] |].
    exists st'. left. unfold bind, gets, ret in Hout.
    destruct (retErr st') as [e' |] eqn:He'; [| contradiction].
    exists e'. exact Hout.
  - destruct Hs as [-> Hdie]; [split; [reflexivity | discriminate] |].
    exists st'. right. split; [exact Hout | exact Hdie].
Qed.

(** C9: in crash-preservation mode (KeepCoverage nil), once the run of
    minimizeInput on the original values has produced an error, minimizeInput
    returns success true with an error, whatever the shrinkers try and
    however their candidates fare; the one way not to return is a later run
    of the user's function that takes the process down, so with a function
    that never does, it returns. The minimize RPC then answers with Success
    true, or does not answer (the crash, or the fault of writing a value
    larger than the shared memory); it never answers Success false. *)
Theorem crash_mode_minimize_succeeds (args : minimizeArgs) (ws : workerServer)
    (vs : list value) (w1 w2 : world) (e : error) :
  MinimizeArgs.KeepCoverage args = None ->
  unmarshalCorpusFile (valueCopy (mem ws)) = inr vs ->
  ctxErr (env (afterTimeout (MinimizeArgs.Timeout args) ws)) = (false, w1) ->
  (0 <? MinimizeArgs.Limit args) && (MinimizeArgs.Limit args <=? count (header (mem ws))) = false ->
  fuzzFn (entryOf vs) w1 = (Fail e, w2) ->
  let st := {| srv := afterTimeout (MinimizeArgs.Timeout args) ws;
               vals := vs; retErr := None |} in
  (exists st',
     (exists e', minimizeInput (MinimizeArgs.Limit args) None st = Ret (true, Some e') st')
     \/ (minimizeInput (MinimizeArgs.Limit args) None st = Abort Crash st' /\ mayDie))
  /\ (~ mayDie ->
      exists e' st', minimizeInput (MinimizeArgs.Limit args) None st = Ret (true, Some e') st')
  /\ match minimize args ws with
     | Ret resp _ => MinimizeResponse.Success resp = true
     | Abort h _ => h = Crash \/ h = Panic "value larger than shared memory capacity"
     end.
Proof.
  intros Hkeep Hdec Hctx Hlim Hrun st.
  assert (Hin := minimizeInput_crash_mode (MinimizeArgs.Limit args) st w1 w2 e).
  subst st. cbn [srv vals] in Hin. rewrite afterTimeout_mem in Hin.
  specialize (Hin Hctx Hlim Hrun).
  split; [exact Hin |]. split.
  - intros Hno. destruct Hin as (st' & [(e' & H) | (_ & Hdie)]); [eauto | contradiction].
  - unfold minimize, bind, gets. rewrite Hdec, applyTimeout_run.
    unfold callMinimizeInput. rewrite Hkeep.
    destruct Hin as (st' & [(e' & ->) | (-> & _)]).
    + unfold writeToMem. destruct (setValue _ _); cbn; auto.
    + auto.
Qed.

(** ** Warmup *)

Lemma installCoverage_run data ws :
  maskFits data ws -> installCoverage data ws = Ret tt (installed data ws).
Proof.
  intros H. unfold installCoverage, installed. destruct data as [cov |]; [| reflexivity].
  unfold bind, gets. destruct (coverageMask ws) as [mk |] eqn:Hm; [| reflexivity].
  rewrite (H cov mk eq_refl Hm), Nat.eqb_refl. reflexivity.
Qed.

Lemma installed_frame data ws :
  mem (installed data ws) = mem ws /\ env (installed data ws) = env ws
  /\ log (installed data ws) = log ws /\ mutator (installed data ws) = mutator ws.
Proof. destruct data; repeat split. Qed.

(** C8: a fuzz call with Warmup set, once past the checks at its start (the
    mask lengths agree, count is below a positive limit, the payload
    decodes), runs the user's function exactly once, on the decoded values
    as they are, and mutates nothing: the log gains that one run and no
    mutation, and the PRNG is as before. When the run passes, the response
    has an empty Err, InterestingDuration the duration of the run, and
    CoverageData the snapshot if coverage is enabled; when it errors, the
    response carries the error text (a placeholder for an empty one) and
    neither of the two; when it takes the process down there is no
    response. *)
Theorem fuzz_warmup_runs_once (fuel : nat) (args : fuzzArgs) (ws : workerServer)
    (vs : list value) :
  FuzzArgs.Warmup args = true ->
  maskFits (FuzzArgs.CoverageData args) ws ->
  (0 <? FuzzArgs.Limit args) && (FuzzArgs.Limit args <=? count (header (mem ws))) = false ->
  unmarshalCorpusFile (valueCopy (mem ws)) = inr vs ->
  let w0 := timed (FuzzArgs.Timeout args) (env ws) in
  let out := fuzz fuel args ws in
  log (finalState out) = log ws ++ [Ran (entryOf vs)]
  /\ mutator (finalState out) = mutator ws
  /\ match fst (fuzzFn (entryOf vs) w0) with
     | Died => exists s, out = Abort Crash s
     | Fail e =>
         exists resp s, out = Ret resp s
           /\ FuzzResponse.Err resp
              = (if String.eqb e "" then "fuzz function failed with no input" else e)
           /\ FuzzResponse.Err resp <> ""
           /\ FuzzResponse.InterestingDuration resp = 0
           /\ FuzzResponse.CoverageData resp = None
     | Pass =>
         exists resp s, out = Ret resp s
           /\ FuzzResponse.Err resp = ""
           /\ FuzzResponse.InterestingDuration resp
              = now (snd (fuzzFn (entryOf vs) w0)) - now w0
           /\ FuzzResponse.CoverageData resp
              = (if coverageEnabled
                 then Some (coverageSnapshot (snd (fuzzFn (entryOf vs) w0)))
                 else None)
     end.
Proof.
  intros Hwarm Hfit Hlim Hdec w0 out.
  destruct (installed_frame (FuzzArgs.CoverageData args) ws) as (Hm & He & Hl & Hr).
  remember (afterTimeout (FuzzArgs.Timeout args) (installed (FuzzArgs.CoverageData args) ws))
    as ws0 eqn:Hws0.
  assert (Hm0 : mem ws0 = mem ws) by (subst ws0; now rewrite afterTimeout_mem).
  assert (He0 : env ws0 = w0)
    by (subst ws0 w0; now rewrite afterTimeout_env, He).
  assert (Hl0 : log ws0 = log ws) by (subst ws0; now rewrite afterTimeout_log).
  assert (Hr0 : mutator ws0 = mutator ws) by (subst ws0; now rewrite afterTimeout_mutator).
  assert (Hout : out = fuzz fuel args ws) by reflexivity. clearbody out.
  unfold fuzz in Hout. unfold bind at 1 in Hout.
  rewrite (installCoverage_run _ _ Hfit) in Hout.
  unfold bind at 1, gets in Hout. unfold bind at 1 in Hout.
  rewrite applyTimeout_run, <- Hws0 in Hout.
  unfold bind at 1, modify in Hout. unfold bind at 1, fuzzShouldStop, gets in Hout.
  destruct (prngSave (mutator ws0)) as [st inc].
  cbn [withMem mem setRand header count] in Hout. rewrite Hm0, Hlim in Hout.
  unfold bind at 1 in Hout.
  replace (valueCopy (mem (withMem (setRand st inc) ws0))) with (valueCopy (mem ws)) in Hout
    by (rewrite <- Hm0; reflexivity).
  rewrite Hdec, Hwarm in Hout.
  unfold bind at 1, fuzzWarmup in Hout. unfold bind at 1, fuzzOnce in Hout.
  unfold bind at 1, incrCount, modify in Hout. unfold bind at 1, gets in Hout.
  unfold bind at 1, callFuzzFn in Hout. cbn [env withMem] in Hout. rewrite He0 in Hout.
  destruct (fuzzFn (entryOf vs) w0) as [[| e |] w1] eqn:Hrun; cbn [fst snd].
  - (* Pass *)
    unfold bind, gets, ret in Hout. cbn [env logged withEnv withMem coverageMask] in Hout.
    destruct (coverageMask ws0) as [mk |];
      [destruct (countNewCoverageBits mk (coverageSnapshot w1) >? 0) |];
      cbn [String.eqb negb] in Hout;
      (destruct coverageEnabled; subst out;
       cbn [finalState log mutator logged withEnv withMem];
       rewrite Hl0, Hr0; repeat split; eexists; eexists; repeat split).
  - (* Fail *)
    unfold bind, gets, ret in Hout.
    assert (Hne : (if String.eqb e "" then "fuzz function failed with no input" else e) <> "").
    { destruct (String.eqb_spec e ""); [discriminate | assumption]. }
    destruct (String.eqb (if String.eqb e "" then _ else e) "") eqn:Heq.
    + apply String.eqb_eq in Heq. contradiction.
    + cbn [negb] in Hout. subst out.
      cbn [finalState log mutator logged withEnv withMem].
      rewrite Hl0, Hr0. repeat split. eexists; eexists; repeat split. exact Hne.
  - (* Died *)
    subst out. cbn [finalState log mutator logged withEnv withMem].
    rewrite Hl0, Hr0. repeat split. eexists. reflexivity.
Qed.
(** ** tryMinimized *)

(** tryMinimized, by what its run of the user's function reports. *)
Lemma tryMinimized_run keep valI candidate st prev v :
  nth_error (vals st) valI = Some prev ->
  castCandidate candidate prev = Some v ->
  let tried := setNth valI v (vals st) in
  let ran w := logged (Ran (entryOf tried)) (withEnv w (withMem
                 (fun m => setCount (GoInt.incr64 (count (header m))) m) (srv st))) in
  tryMinimized keep valI candidate st =
  match fuzzFn (entryOf tried) (env (srv st)) with
  | (Died, w) => Abort Crash {| srv := ran w; vals := tried; retErr := retErr st |}
  | (Fail e, w) => Ret (isNil keep) {| srv := ran w; vals := tried; retErr := Some e |}
  | (Pass, w) =>
      if match keep with
         | Some k => hasCoverageBit k (coverageSnapshot w)
         | None => false
         end
      then Ret true {| srv := ran w; vals := tried; retErr := retErr st |}
      else Ret false {| srv := ran w; vals := vals st; retErr := retErr st |}
  end.
Proof.
  intros Hprev Hcast tried ran. subst tried ran.
  unfold tryMinimized, bind, gets. rewrite Hprev, Hcast.
  unfold setVals, modify, onServer, zoom, incrCount, callFuzzFn, setRetErr, ret. cbn.
  destruct (fuzzFn (entryOf (setNth valI v (vals st))) (env (srv st))) as [[| e |] w];
    cbn; try reflexivity.
  destruct keep as [k |]; [destruct (hasCoverageBit k (coverageSnapshot w)) |];
    try reflexivity; cbn [srv vals retErr];
    rewrite (setNth_restore _ v _ _ Hprev); reflexivity.
Qed.

(** A candidate that still satisfies the target stays in its slot. *)
Lemma tryMinimized_true_keeps keep valI candidate st st' :
  tryMinimized keep valI candidate st = Ret true st' ->
  exists prev v,
    nth_error (vals st) valI = Some prev
    /\ castCandidate candidate prev = Some v
    /\ vals st' = setNth valI v (vals st)
    /\ nth_error (vals st') valI = Some v.
Proof.
  intros H.
  destruct (nth_error (vals st) valI) as [prev |] eqn:Hprev;
    [| unfold tryMinimized, bind, gets in H; rewrite Hprev in H; discriminate].
  destruct (castCandidate candidate prev) as [v |] eqn:Hcast;
    [| unfold tryMinimized, bind, gets in H; rewrite Hprev, Hcast in H; discriminate].
  rewrite (tryMinimized_run keep valI candidate st prev v Hprev Hcast) in H. cbv zeta in H.
  exists prev, v.
  assert (Hst : vals st' = setNth valI v (vals st)).
  { destruct (fuzzFn _ _) as [[| e |] w]; try discriminate.
    - destruct keep as [k |]; [destruct (hasCoverageBit _ _) |]; try discriminate.
      injection H as <-. reflexivity.
    - injection H as _ <-. reflexivity. }
  repeat split; trivial. rewrite Hst. eapply setNth_nth; eassumption.
Qed.

(** A candidate whose run passes without keeping the target is taken out
    again: the values are as before the attempt. *)
Lemma tryMinimized_pass_restores keep valI candidate st st' prev v w :
  nth_error (vals st) valI = Some prev ->
  castCandidate candidate prev = Some v ->
  fuzzFn (entryOf (setNth valI v (vals st))) (env (srv st)) = (Pass, w) ->
  tryMinimized keep valI candidate st = Ret false st' ->
  vals st' = vals st.
Proof.
  intros Hprev Hcast Hrun H.
  rewrite (tryMinimized_run keep valI candidate st prev v Hprev Hcast) in H. cbv zeta in H.
  rewrite Hrun in H.
  destruct keep as [k |]; [destruct (hasCoverageBit _ _) |]; try discriminate;
    injection H as <-; reflexivity.
Qed.

(** In coverage-preservation mode a candidate whose run errors is refused
    and stays in its slot: the return on the error comes before the line
    that puts the previous value back. *)
Lemma tryMinimized_error_not_restored k valI candidate st prev v e w :
  nth_error (vals st) valI = Some prev ->
  castCandidate candidate prev = Some v ->
  fuzzFn (entryOf (setNth valI v (vals st))) (env (srv st)) = (Fail e, w) ->
  exists st',
    tryMinimized (Some k) valI candidate st = Ret false st'
    /\ nth_error (vals st') valI = Some v
    /\ retErr st' = Some e.
Proof.
  intros Hprev Hcast Hrun.
  rewrite (tryMinimized_run (Some k) valI candidate st prev v Hprev Hcast). cbv zeta.
  rewrite Hrun. eexists. split; [reflexivity |]. cbn. split; [| reflexivity].
  eapply setNth_nth; eassumption.
Qed.
(** ** shouldStop *)

Lemma shouldStopWhen_true cancelled limit cnt err wantError :
  shouldStopWhen cancelled limit cnt err wantError = true <->
  cancelled = true \/ (0 < limit /\ limit <= cnt) \/ (err <> None /\ wantError = false).
Proof.
  unfold shouldStopWhen. rewrite !orb_true_iff, !andb_true_iff, !negb_true_iff.
  rewrite Z.ltb_lt, Z.leb_le.
  assert (isNil err = false <-> err <> None) as ->
    by (destruct err; cbn; split; congruence).
  tauto.
Qed.

(** C3, as amended: the shouldStop closure of minimizeInput returns true
    exactly when the context is cancelled, or limit > 0 and count has reached
    limit, or, in coverage-preservation mode (wantError false), an error is
    in hand; in crash mode (wantError true) it returns true exactly on
    cancellation or on the limit, an error in hand or not. It changes
    neither the values, nor retErr, nor the shared memory. *)
Theorem shouldStop_halts_exactly (limit : Z) (wantError : bool) (st : minimizing) :
  exists stop st',
    shouldStop limit wantError st = Ret stop st'
    /\ vals st' = vals st /\ retErr st' = retErr st /\ mem (srv st') = mem (srv st)
    /\ (stop = true <->
        fst (ctxErr (env (srv st))) = true
        \/ (0 < limit /\ limit <= count (header (mem (srv st))))
        \/ (retErr st <> None /\ wantError = false))
    /\ (wantError = true ->
        (stop = true <->
         fst (ctxErr (env (srv st))) = true
         \/ (0 < limit /\ limit <= count (header (mem (srv st)))))).
Proof.
  rewrite shouldStop_run. eexists. eexists. split; [reflexivity |].
  cbn [vals retErr srv withEnv mem].
  split; [reflexivity | split; [reflexivity | split; [reflexivity | split]]].
  - apply shouldStopWhen_true.
  - intros Hcrash. rewrite shouldStopWhen_true. subst wantError.
    split; [| tauto].
    intros [Hc | [Hl | [_ Hw]]]; [now left | now right | discriminate].
Qed.

(** ** serve *)

(** C2, as amended: serve calls the method of the first populated variant
    of the call record, in the order Fuzz, Minimize, Ping, whatever the other
    variants hold, and goes on to write its response; with exactly one
    variant populated that is its method. With no variant populated serve
    returns the error "no arguments provided for any call", having called no
    method and written nothing. *)
Theorem serve_dispatches_first_populated (fuel : nat) (c : call)
    (rest : list decoded) (sent : list response) (ws : workerServer) :
  (forall a, Fuzz c = Some a ->
     serve fuel (Decoded c :: rest) sent ws
     = bind (fuzz fuel a) (fun r => reply fuel rest sent (RFuzz r)) ws)
  /\ (forall a, Fuzz c = None -> Minimize c = Some a ->
     serve fuel (Decoded c :: rest) sent ws
     = bind (minimize a) (fun r => reply fuel rest sent (RMinimize r)) ws)
  /\ (forall a, Fuzz c = None -> Minimize c = None -> Ping c = Some a ->
     serve fuel (Decoded c :: rest) sent ws
     = bind (ping a) (fun r => reply fuel rest sent (RPing r)) ws)
  /\ (populated c = 0%nat ->
     serve fuel (Decoded c :: rest) sent ws
     = Ret (Some "no arguments provided for any call", sent) ws).
Proof.
  cbn [serve]. unfold handle, dispatch, reply. repeat split.
  - intros a ->. unfold bind, ret. destruct (fuzz fuel a ws) as [r ws' |]; [| reflexivity].
    destruct (encode (RFuzz r) ws') as [[e |] ? | ? ?]; reflexivity.
  - intros a -> ->. unfold bind, ret. destruct (minimize a ws) as [r ws' |]; [| reflexivity].
    destruct (encode (RMinimize r) ws') as [[e |] ? | ? ?]; reflexivity.
  - intros a -> -> ->. unfold ping. unfold bind, ret.
    destruct (encode (RPing tt) ws) as [[e |] ? | ? ?]; reflexivity.
  - unfold populated. destruct (Ping c), (Fuzz c), (Minimize c); cbn; try discriminate.
    reflexivity.
Qed.
(** ** The entries the client returns *)

Lemma fuzzReturn_entry entryIn args inp callErr resp wc e resp' err wc' :
  fuzzReturn entryIn args inp callErr resp wc = Ret (e, resp', err) wc' ->
  e = zeroCorpusEntry \/ exists dataOut, e = fuzzEntryOut entryIn args dataOut.
Proof.
  unfold fuzzReturn, bind, gets. cbv zeta.
  destruct (negb (bytesEqual inp (valueRef (mem (peer wc))))); [discriminate |].
  match goal with |- context [if ?b then _ else _] => destruct b end.
  - destruct (unmarshalCorpusFile inp) as [msg | valuesOut]; [discriminate |].
    match goal with |- context [let (_, _) := ?p in _] => destruct p as [vs' r2] end.
    unfold setClientMutator, modify, ret. intros H. injection H as <- _ _ _.
    right. eexists. reflexivity.
  - unfold ret. intros H. injection H as <- _ _ _. now left.
Qed.

Lemma clientFuzz_entry fuel io entryIn args wc e resp err wc' :
  clientFuzz fuel io entryIn args wc = Ret (e, resp, err) wc' ->
  e = zeroCorpusEntry \/ exists dataOut, e = fuzzEntryOut entryIn args dataOut.
Proof.
  unfold clientFuzz. destruct (closedBefore io).
  { unfold ret. intros H. injection H as <- _ _ _. now left. }
  unfold bind at 1. unfold onPeer at 1, zoom, modify.
  destruct (CorpusEntryData entryIn) as [msg | inp].
  { unfold ret. intros H. injection H as <- _ _ _. now left. }
  unfold bind at 1. destruct (clientSetValue inp _) as [[] wc1 | h wc1]; [| discriminate].
  unfold bind at 1.
  destruct (callLocked fuel io _ wc1) as [[callErr r] wc2 | h wc2]; [| discriminate].
  destruct (closedAfter io).
  { unfold ret. intros H. injection H as <- _ _ _. now left. }
  apply fuzzReturn_entry.
Qed.

Lemma clientMinimize_entry fuel io entryIn args wc e resp err wc' :
  clientMinimize fuel io entryIn args wc = Ret (e, resp, err) wc' ->
  (MinimizeResponse.Success resp = true
   /\ exists values,
        unmarshalCorpusFile (valueCopy (mem (peer wc'))) = inr values
        /\ e = minimizeEntryOut entryIn (valueCopy (mem (peer wc'))) values)
  \/ (MinimizeResponse.Success resp = false /\ (e = entryIn \/ e = zeroCorpusEntry)).
Proof.
  unfold clientMinimize. destruct (closedBefore io).
  { unfold ret. intros H. injection H as <- <- _ _. right. auto. }
  unfold bind at 1. unfold onPeer at 1, zoom, modify.
  destruct (CorpusEntryData entryIn) as [msg | inp].
  { unfold ret. intros H. injection H as <- <- _ _. right. auto. }
  unfold bind at 1. destruct (clientSetValue inp _) as [[] wc1 | h wc1]; [| discriminate].
  unfold bind at 1.
  destruct (callLocked fuel io _ wc1) as [[callErr r] wc2 | h wc2]; [| discriminate].
  destruct (closedAfter io).
  { unfold ret. intros H. injection H as <- <- _ _. right. auto. }
  unfold bind, gets. cbv zeta.
  match goal with |- context [if ?b then _ else _] => destruct b eqn:Hok end.
  - destruct (unmarshalCorpusFile (valueCopy (mem (peer wc2)))) as [msg | values] eqn:Hdec;
      [discriminate |].
    unfold ret. intros H. injection H as <- <- _ <-. left. split; [exact Hok |].
    exists values. split; [exact Hdec | reflexivity].
  - unfold ret. intros H. injection H as <- <- _ _. right. split; [exact Hok | now left].
Qed.

(** C6: an entry workerClient.fuzz produces (one with Data; otherwise it
    returns the zero entry) and the entry workerClient.minimize produces on
    Success have Path the hex encoding of the first 4 bytes of SHA-256 of
    their Data; on the minimize path Data is the payload read from shared
    memory. *)
Theorem client_path_is_content_address :
  (forall fuel io entryIn args wc e resp err wc',
      clientFuzz fuel io entryIn args wc = Ret (e, resp, err) wc' ->
      match Data e with
      | Some d => Path e = hex (firstn 4 (Sha256.Sum256 d))
      | None => e = zeroCorpusEntry
      end)
  /\ (forall fuel io entryIn args wc e resp err wc',
      clientMinimize fuel io entryIn args wc = Ret (e, resp, err) wc' ->
      MinimizeResponse.Success resp = true ->
      exists d, Data e = Some d /\ d = valueCopy (mem (peer wc'))
                /\ Path e = hex (firstn 4 (Sha256.Sum256 d))).
Proof.
  split.
  - intros fuel io entryIn args wc e resp err wc' H.
    destruct (clientFuzz_entry _ _ _ _ _ _ _ _ _ H) as [-> | (d & ->)]; reflexivity.
  - intros fuel io entryIn args wc e resp err wc' H Hok.
    destruct (clientMinimize_entry _ _ _ _ _ _ _ _ _ H) as [(_ & values & _ & ->) | (Hno & _)].
    + eexists. repeat split.
    + congruence.
Qed.

Lemma nextGeneration_in_range g :
  - 2 ^ (uintSize - 1) <= g + 1 < 2 ^ (uintSize - 1) -> nextGeneration g = g + 1.
Proof.
  intros H. unfold nextGeneration, GoInt.wrapS.
  assert (Hw : 0 < uintSize) by (unfold uintSize; destruct host64; lia).
  replace (2 ^ uintSize) with (2 * 2 ^ (uintSize - 1)).
  - rewrite Z.mod_small by lia. lia.
  - rewrite <- Z.pow_succ_r by lia. f_equal. lia.
Qed.

(** C7: an entry workerClient.fuzz produces has Generation
    entryIn.Generation + 1, the sum being Go's on int (it is the integer sum
    whenever that fits the host's int), and Parent the Path of entryIn; the
    entry workerClient.minimize produces on Success keeps the Generation and
    the Parent of entryIn. *)
Theorem client_generation :
  (forall fuel io entryIn args wc e resp err wc',
      clientFuzz fuel io entryIn args wc = Ret (e, resp, err) wc' ->
      Data e <> None ->
      Generation e = nextGeneration (Generation entryIn)
      /\ Parent e = Path entryIn
      /\ (- 2 ^ (uintSize - 1) <= Generation entryIn + 1 < 2 ^ (uintSize - 1) ->
          Generation e = Generation entryIn + 1))
  /\ (forall fuel io entryIn args wc e resp err wc',
      clientMinimize fuel io entryIn args wc = Ret (e, resp, err) wc' ->
      MinimizeResponse.Success resp = true ->
      Generation e = Generation entryIn /\ Parent e = Parent entryIn).
Proof.
  split.
  - intros fuel io entryIn args wc e resp err wc' H Hd.
    destruct (clientFuzz_entry _ _ _ _ _ _ _ _ _ H) as [-> | (d & ->)]; [now elim Hd |].
    cbn. repeat split. apply nextGeneration_in_range.
  - intros fuel io entryIn args wc e resp err wc' H Hok.
    destruct (clientMinimize_entry _ _ _ _ _ _ _ _ _ H) as [(_ & values & _ & ->) | (Hno & _)].
    + split; reflexivity.
    + congruence.
Qed.
End Facts.

(** ** worker.minimize and coordinate *)

(** C10: when the minimize RPC returns without error but the input had a
    crasher message and the response has an empty Err and Success false,
    worker.minimize returns no result and the error "attempted to minimize
    but could not reproduce"; coordinate then sends a result made of the
    original entry with canMinimize false, and whenever worker.minimize
    returns an error that result has the error text as crasher message if
    the input had none, the input's message otherwise. *)
Theorem flaked_minimize_reports_original (input : fuzzMinimizeInput)
    (entryOut : CorpusEntry) (resp : minimizeResponse) (after : stopped) :
  FuzzMinimizeInput.crasherMsg input <> "" ->
  MinimizeResponse.Err resp = "" ->
  MinimizeResponse.Success resp = false ->
  minimizeResult input (entryOut, resp, None) after
  = (FuzzResult.zero, Some "attempted to minimize but could not reproduce")
  /\ coordinateMinimized input (minimizeResult input (entryOut, resp, None) after)
     = {| FuzzResult.entry := FuzzMinimizeInput.entry input;
          FuzzResult.crasherMsg := FuzzMinimizeInput.crasherMsg input;
          FuzzResult.canMinimize := false;
          FuzzResult.coverageData := None;
          FuzzResult.limit := FuzzMinimizeInput.limit input;
          FuzzResult.count := 0;
          FuzzResult.totalDuration := 0;
          FuzzResult.entryDuration := 0 |}
  /\ (forall r err, snd r = Some err ->
        FuzzResult.entry (coordinateMinimized input r) = FuzzMinimizeInput.entry input
        /\ FuzzResult.canMinimize (coordinateMinimized input r) = false
        /\ FuzzResult.crasherMsg (coordinateMinimized input r)
           = if String.eqb (FuzzMinimizeInput.crasherMsg input) ""
             then err else FuzzMinimizeInput.crasherMsg input).
Proof.
  intros Hmsg Herr Hok.
  assert (Hne : String.eqb (FuzzMinimizeInput.crasherMsg input) "" = false)
    by now apply String.eqb_neq.
  assert (Hres : minimizeResult input (entryOut, resp, None) after
                 = (FuzzResult.zero, Some "attempted to minimize but could not reproduce")).
  { unfold minimizeResult. rewrite Hne, Herr, Hok. reflexivity. }
  split; [exact Hres |]. split.
  - rewrite Hres. unfold coordinateMinimized. cbn [snd FuzzResult.crasherMsg].
    rewrite Hne. reflexivity.
  - intros r err Hr. unfold coordinateMinimized. rewrite Hr. cbn [FuzzResult.crasherMsg].
    destruct (String.eqb (FuzzMinimizeInput.crasherMsg input) ""); cbn; auto.
Qed.

(** The theorem above on the demo input. *)
Lemma flaked_minimize_witness :
  minimizeResult demoFlaked (demoEntry a_, MinimizeResponse.zero, None) demoStopped
  = (FuzzResult.zero, Some "attempted to minimize but could not reproduce").
Proof.
  apply (flaked_minimize_reports_original demoFlaked (demoEntry a_)
           MinimizeResponse.zero demoStopped).
  - discriminate.
  - reflexivity.
  - reflexivity.
Defined.

(** ** Runs of the closed instance *)

(** C1: tryMinimized is to put the original value back in its slot whenever
    it returns false. In coverage-preservation mode, on a candidate whose
    run errors, it does not: the slot held "ab", the candidate "a" fails,
    tryMinimized returns false with the error in retErr and the slot holds
    "a". *)
Theorem tryMinimized_error_leaves_candidate :
  nth_error [VBytes ab] 0 = Some (VBytes ab)
  /\ answer (@tryMinimized demo (Some [x01]) 0 (VBytes a_)
               (@Build_minimizing demo (demoServer ab) [VBytes ab] None)) = Some false
  /\ vals (finalState (@tryMinimized demo (Some [x01]) 0 (VBytes a_)
               (@Build_minimizing demo (demoServer ab) [VBytes ab] None))) = [VBytes a_]
  /\ retErr (finalState (@tryMinimized demo (Some [x01]) 0 (VBytes a_)
               (@Build_minimizing demo (demoServer ab) [VBytes ab] None)))
     = Some "odd length".
Proof. vm_compute. repeat split. Qed.

(** C3, counterexample: in coverage-preservation mode, not cancelled and
    without limit, an error in hand makes the closure return true, where the
    condition as the specification words it (crash mode) is false whether or
    not attempts stopped reproducing; and in crash mode the same error in
    hand leaves the closure false. *)
Lemma shouldStop_differs_from_wording :
  answer (@shouldStop demo 0 false
            (@Build_minimizing demo (demoServer ab) [VBytes ab] (Some "boom"))) = Some true
  /\ specShouldStop false 0 0 (Some "boom") false true = false
  /\ specShouldStop false 0 0 (Some "boom") false false = false
  /\ answer (@shouldStop demo 0 true
               (@Build_minimizing demo (demoServer ab) [VBytes ab] (Some "boom"))) = Some false
  /\ shouldStopWhen false 0 0 (Some "boom") false = true
  /\ shouldStopWhen false 0 0 (Some "boom") true = false.
Proof. vm_compute. repeat split. Qed.

(** C2, counterexample: on a record with both Ping and Fuzz populated
    serve calls fuzz, writes its response and, at the end of the calls,
    returns nil: no framing error. *)
Lemma serve_two_variants_dispatches_fuzz :
  populated twoVariants = 2%nat
  /\ answer (@serve demo 1 [Decoded twoVariants; EndOfCalls] [] (demoServer ab))
     = Some (None,
             [RFuzz {| FuzzResponse.TotalDuration := 1;
                       FuzzResponse.InterestingDuration := 1;
                       FuzzResponse.Count := 1;
                       FuzzResponse.CoverageData := Some [x01];
                       FuzzResponse.Err := "" |}])
  /\ log (finalState (@serve demo 1 [Decoded twoVariants; EndOfCalls] [] (demoServer ab)))
     = [Ran (entryOf [VBytes ab])].
Proof. vm_compute. repeat split. Qed.

(** One round of fuzzing from "ab": the mutator gives "a", which fails; the
    client rebuilds "a" and names the entry after it. *)
Example demo_fuzz_entry :
  answer (@clientFuzz demo 3 quiet (demoEntry ab) demoFuzzArgs (demoClient []))
  = Some ({| Parent := pathOf ab; Path := "ca978112"; Data := Some a_; Values := [];
             Generation := 5; IsSeed := false |},
          {| FuzzResponse.TotalDuration := 1; FuzzResponse.InterestingDuration := 0;
             FuzzResponse.Count := 1; FuzzResponse.CoverageData := None;
             FuzzResponse.Err := "odd length" |},
          None).
Proof. vm_compute. reflexivity. Qed.

(** Minimizing "aba" in crash mode: "a" still fails and is kept, the empty
    candidate passes and is taken out again; the entry is named after "a"
    and keeps the ancestry of the input. *)
Example demo_minimize_entry :
  answer (@clientMinimize demo 3 quiet (demoEntry aba) demoCrashArgs (demoClient []))
  = Some ({| Parent := "seed"; Path := "ca978112"; Data := Some a_;
             Values := [VBytes a_]; Generation := 4; IsSeed := false |},
          {| MinimizeResponse.Success := true; MinimizeResponse.Err := "odd length";
             MinimizeResponse.CoverageData := None; MinimizeResponse.Duration := 3;
             MinimizeResponse.Count := 3 |},
          None).
Proof. vm_compute. reflexivity. Qed.

(** The warmup theorem on the demo worker. *)
Lemma fuzz_warmup_witness :
  log (finalState (@fuzz demo 0 demoWarmup (demoServer ab)))
  = log (demoServer ab) ++ [Ran (entryOf [VBytes ab])].
Proof.
  apply (@fuzz_warmup_runs_once demo 0 demoWarmup (demoServer ab) [VBytes ab]).
  - reflexivity.
  - intros cov mk H. discriminate H.
  - reflexivity.
  - reflexivity.
Defined.

(** The crash-mode theorem on the demo worker. *)
Lemma crash_mode_witness :
  match @minimize demo demoCrashArgs (demoServer a_) with
  | Ret resp _ => MinimizeResponse.Success resp = true
  | Abort h _ => h = Crash \/ h = Panic "value larger than shared memory capacity"
  end.
Proof.
  apply (@crash_mode_minimize_succeeds demo demoCrashArgs (demoServer a_) [VBytes a_]
           demoStart (demoRan [x00] demoStart) "odd length");
    reflexivity.
Defined.

(** The payload through the demo calls: a minimization that cannot keep its
    coverage leaves "ab", one that succeeds writes the shrunken value, a
    fuzz call leaves the input. *)
Example demo_minimize_refused :
  answer (@minimize demo demoLostArgs (demoServer ab))
  = Some {| MinimizeResponse.Success := false; MinimizeResponse.Err := "";
            MinimizeResponse.CoverageData := None; MinimizeResponse.Duration := 1;
            MinimizeResponse.Count := 0 |}
  /\ valueRef (mem (finalState (@minimize demo demoLostArgs (demoServer ab)))) = ab.
Proof. vm_compute. split; reflexivity. Qed.

Example demo_minimize_accepted :
  answer (@minimize demo demoCoverArgs (demoServer ab))
  = Some {| MinimizeResponse.Success := true; MinimizeResponse.Err := "";
            MinimizeResponse.CoverageData := Some [x01]; MinimizeResponse.Duration := 3;
            MinimizeResponse.Count := 0 |}
  /\ valueRef (mem (finalState (@minimize demo demoCoverArgs (demoServer ab)))) = []
  /\ valueRef (mem (finalState (@minimize demo demoCrashArgs (demoServer aba)))) = a_.
Proof. vm_compute. repeat split. Qed.

Example demo_fuzz_keeps_input :
  valueRef (mem (peer (finalState
    (@clientFuzz demo 3 quiet (demoEntry ab) demoFuzzArgs (demoClient []))))) = ab.
Proof. vm_compute. reflexivity. Qed.

(** ** Runs, mutations and the counter *)

Section Advances.
Context {S : Type} (R : S -> S -> Prop).
Hypothesis R_refl : forall s, R s s.
Hypothesis R_trans : forall a b c, R a b -> R b c -> R a c.

Lemma advances_ret {A} (a : A) : advances R (ret a).
Proof. intros s. apply R_refl. Qed.

Lemma advances_panic {A} msg : advances R (@panic S A msg).
Proof. intros s. apply R_refl. Qed.

Lemma advances_gets {A} (f : S -> A) : advances R (gets f).
Proof. intros s. apply R_refl. Qed.

Lemma advances_bind {A B} (c : M S A) (k : A -> M S B) :
  advances R c -> (forall a, advances R (k a)) -> advances R (bind c k).
Proof.
  intros Hc Hk s. unfold bind. specialize (Hc s).
  destruct (c s) as [a s' | h s']; cbn [finalState] in *; [| exact Hc].
  eapply R_trans; [exact Hc | apply Hk].
Qed.

Lemma advances_runShrinker {Cand} (sh : shrinker Cand) (try : Cand -> M S bool)
    (stop : M S bool) :
  (forall c, advances R (try c)) -> advances R stop ->
  advances R (runShrinker sh try stop).
Proof.
  intros Htry Hstop. induction sh as [| k IH | c k IH]; cbn [runShrinker].
  - apply advances_ret.
  - apply advances_bind; [exact Hstop | exact IH].
  - apply advances_bind; [apply Htry | exact IH].
Qed.

End Advances.

Section ServerFacts.
Context {C : Collaborators}.

Lemma runs_app evs evs' : runs (evs ++ evs') = (runs evs + runs evs')%nat.
Proof. unfold runs. rewrite filter_app, length_app. reflexivity. Qed.

Lemma mutations_app evs evs' :
  mutations (evs ++ evs') = (mutations evs + mutations evs')%nat.
Proof. unfold mutations. rewrite filter_app, length_app. reflexivity. Qed.

Lemma iter_add {A} (f : A -> A) n m x :
  Nat.iter (n + m) f x = Nat.iter m f (Nat.iter n f x).
Proof. rewrite Nat.add_comm. apply Nat.iter_add. Qed.

Lemma counted_refl ws : counted ws ws.
Proof. exists []. split; [rewrite app_nil_r; reflexivity | reflexivity]. Qed.

Lemma countedBy_trans evs evs' a b c :
  countedBy evs a b -> countedBy evs' b c -> countedBy (evs ++ evs') a c.
Proof.
  intros [Hl Hc] [Hl' Hc']. split.
  - rewrite Hl', Hl, app_assoc. reflexivity.
  - rewrite Hc', Hc, runs_app, iter_add. reflexivity.
Qed.

Lemma counted_trans a b c : counted a b -> counted b c -> counted a c.
Proof. intros [evs H] [evs' H']. exists (evs ++ evs'). eapply countedBy_trans; eassumption. Qed.

Lemma countedM_refl st : countedM st st.
Proof. apply counted_refl. Qed.

Lemma countedM_trans a b c : countedM a b -> countedM b c -> countedM a c.
Proof. apply counted_trans. Qed.

(** A step that leaves the log and the counter alone. *)
Lemma counted_same ws ws' :
  log ws' = log ws -> count (header (mem ws')) = count (header (mem ws)) -> counted ws ws'.
Proof. intros Hl Hc. exists []. split; [rewrite app_nil_r; exact Hl | exact Hc]. Qed.

Lemma counts_bind {A B} (c : M workerServer A) (k : A -> M workerServer B) :
  counts c -> (forall a, counts (k a)) -> counts (bind c k).
Proof. apply advances_bind. exact counted_trans. Qed.

Lemma countsM_bind {A B} (c : M minimizing A) (k : A -> M minimizing B) :
  countsM c -> (forall a, countsM (k a)) -> countsM (bind c k).
Proof. apply advances_bind. exact countedM_trans. Qed.

Lemma counts_ret {A} (a : A) : counts (ret a).
Proof. apply advances_ret. exact counted_refl. Qed.
Lemma counts_panic {A} msg : counts (@panic workerServer A msg).
Proof. apply advances_panic. exact counted_refl. Qed.
Lemma counts_gets {A} (f : workerServer -> A) : counts (gets f).
Proof. apply advances_gets. exact counted_refl. Qed.
Lemma countsM_ret {A} (a : A) : countsM (ret a).
Proof. apply advances_ret. exact countedM_refl. Qed.
Lemma countsM_panic {A} msg : countsM (@panic minimizing A msg).
Proof. apply advances_panic. exact countedM_refl. Qed.
Lemma countsM_gets {A} (f : minimizing -> A) : countsM (gets f).
Proof. apply advances_gets. exact countedM_refl. Qed.

Lemma counts_ctxCancelled : counts ctxCancelled.
Proof.
  intros ws. unfold ctxCancelled. destruct (ctxErr (env ws)). apply counted_same; reflexivity.
Qed.

Lemma counts_applyTimeout d : counts (applyTimeout d).
Proof.
  intros ws. unfold applyTimeout. destruct (d =? 0); apply counted_same; reflexivity.
Qed.

Lemma counts_mutateVals vs : counts (mutateVals vs).
Proof.
  intros ws. unfold mutateVals. destruct (mutate vs (valueCap (mem ws)) (mutator ws)).
  exists [Mutated (valueCap (mem ws))]. split; reflexivity.
Qed.

Lemma counts_fuzzShouldStop limit : counts (fuzzShouldStop limit).
Proof. apply counts_gets. Qed.

(** count++ and the run it announces. *)
Lemma counted_run vs ws :
  countedBy [Ran (entryOf vs)] ws (finalState (callFuzzFn vs (finalState (incrCount ws)))).
Proof.
  unfold incrCount, modify, callFuzzFn. cbn [finalState].
  destruct (fuzzFn (entryOf vs) (env _)) as [[| e |] w]; split; reflexivity.
Qed.

Lemma counts_fuzzOnce vs : counts (fuzzOnce vs).
Proof.
  intros ws. unfold fuzzOnce.
  pose proof (counted_run vs ws) as Hrun.
  unfold bind at 1. unfold incrCount at 1, modify at 1.
  unfold incrCount, modify in Hrun. cbn [finalState] in Hrun.
  unfold bind at 1, gets at 1. unfold bind at 1.
  destruct (callFuzzFn vs _) as [err ws1 | h ws1]; cbn [finalState] in Hrun.
  - unfold bind at 1, gets at 1.
    destruct err as [e |].
    + exists [Ran (entryOf vs)]. exact Hrun.
    + unfold bind, gets, ret. destruct (coverageMask ws1) as [mk |];
        [destruct (countNewCoverageBits mk (coverageSnapshot (env ws1)) >? 0) |];
        exists [Ran (entryOf vs)]; exact Hrun.
  - exists [Ran (entryOf vs)]. exact Hrun.
Qed.

Lemma counts_installCoverage data : counts (installCoverage data).
Proof.
  intros ws. unfold installCoverage. destruct data as [cov |]; [| apply counted_refl].
  unfold bind, gets. destruct (coverageMask ws) as [mk |].
  - destruct (negb _); apply counted_same; reflexivity.
  - apply counted_same; reflexivity.
Qed.

Create HintDb tally.
#[local] Hint Resolve counts_ret counts_panic counts_gets counts_ctxCancelled
  counts_applyTimeout counts_mutateVals counts_fuzzShouldStop counts_fuzzOnce
  counts_installCoverage countsM_ret countsM_panic countsM_gets : tally.

Ltac tally :=
  repeat first
    [ solve [eauto with tally]
    | apply counts_bind; [ | intros ]
    | apply countsM_bind; [ | intros ]
    | progress cbv zeta
    | match goal with
      | |- counts (match ?x with _ => _ end) => destruct x
      | |- countsM (match ?x with _ => _ end) => destruct x
      | |- advances _ (match ?x with _ => _ end) => destruct x
      end ].

Lemma counts_fuzzWarmup vs resp : counts (fuzzWarmup vs resp).
Proof. unfold fuzzWarmup. tally. Qed.

Lemma counts_fuzzLoop fuel limit : forall vs resp, counts (fuzzLoop fuel limit vs resp).
Proof.
  induction fuel as [| fuel IH]; intros vs resp; cbn [fuzzLoop].
  - intros ws. apply counted_refl.
  - tally.
Qed.

#[local] Hint Resolve counts_fuzzWarmup counts_fuzzLoop : tally.

Lemma counts_fuzz fuel args : counts (fuzz fuel args).
Proof.
  unfold fuzz. tally.
  intros ws. unfold modify. cbn [finalState].
  destruct (prngSave (mutator ws)). apply counted_same; reflexivity.
Qed.


Lemma countsM_onServer {A} (c : M workerServer A) : counts c -> countsM (onServer c).
Proof.
  intros Hc st. unfold onServer, zoom. specialize (Hc (srv st)).
  destruct (c (srv st)); exact Hc.
Qed.

Lemma countsM_setVals vs : countsM (setVals vs).
Proof. intros st. apply counted_refl. Qed.

Lemma countsM_setRetErr e : countsM (setRetErr e).
Proof. intros st. apply counted_refl. Qed.

Lemma countsM_shouldStop limit wantError : countsM (shouldStop limit wantError).
Proof.
  unfold shouldStop. tally. apply countsM_onServer. apply counts_ctxCancelled.
Qed.

(** count++, the run, and what follows it. *)
Lemma countsM_run {A} vs (k : option error -> M minimizing A) :
  (forall e, countsM (k e)) ->
  countsM (bind (onServer incrCount) (fun _ => bind (onServer (callFuzzFn vs)) k)).
Proof.
  intros Hk st. pose proof (counted_run vs (srv st)) as Hrun.
  unfold bind at 1. unfold onServer at 1, zoom. unfold incrCount at 1, modify at 1.
  unfold incrCount, modify in Hrun. cbn [finalState] in Hrun.
  unfold bind at 1. unfold onServer at 1, zoom. cbn [srv].
  destruct (callFuzzFn vs _) as [err ws1 | h ws1]; cbn [finalState] in Hrun.
  - eapply countedM_trans; [| apply Hk].
    exists [Ran (entryOf vs)]. exact Hrun.
  - exists [Ran (entryOf vs)]. exact Hrun.
Qed.

#[local] Hint Resolve countsM_setVals countsM_setRetErr countsM_shouldStop : tally.

Lemma countsM_tryMinimized keep valI candidate : countsM (tryMinimized keep valI candidate).
Proof.
  unfold tryMinimized. cbv zeta.
  apply countsM_bind; [tally |]. intros vs.
  destruct (nth_error vs valI) as [prev |]; [| tally].
  destruct (castCandidate candidate prev) as [v |]; [| tally].
  apply countsM_bind; [tally |]. intros _.
  apply countsM_run. intros err. tally.
Qed.

#[local] Hint Resolve countsM_tryMinimized : tally.

Lemma countsM_shrinkValue limit keep valI v : countsM (shrinkValue limit keep valI v).
Proof.
  assert (Hrun : forall Cand (sh : shrinker Cand) (inj : Cand -> value),
            countsM (runShrinker sh (fun c => tryMinimized keep valI (inj c))
                       (shouldStop limit (isNil keep)))).
  { intros Cand sh inj. apply advances_runShrinker.
    - exact countedM_refl.
    - exact countedM_trans.
    - intros c. apply countsM_tryMinimized.
    - apply countsM_shouldStop. }
  unfold shrinkValue. cbv zeta.
  destruct v; try apply countsM_ret; try apply Hrun.
  - destruct (negb _); [apply countsM_ret |].
    apply (Hrun Z _ (fun c => VUint (GoInt.wrapU uintSize c))).
  - destruct (negb _); [apply countsM_ret |].
    apply (Hrun Z _ (fun c => VUint (GoInt.wrapU uintSize c))).
Qed.

#[local] Hint Resolve countsM_shrinkValue : tally.

Lemma countsM_shrinkLoop limit keep n : forall valI, countsM (shrinkLoop limit keep n valI).
Proof.
  induction n as [| n IH]; intros valI; cbn [shrinkLoop]; tally.
Qed.

#[local] Hint Resolve countsM_shrinkLoop : tally.

Lemma countsM_run_vals {A} (k : list value -> option error -> M minimizing A) :
  (forall vs e, countsM (k vs e)) ->
  countsM (bind (onServer incrCount) (fun _ =>
           bind (gets vals) (fun vs =>
           bind (onServer (callFuzzFn vs)) (k vs)))).
Proof.
  intros Hk st.
  change (countedM st (finalState
            (bind (onServer incrCount) (fun _ =>
             bind (onServer (callFuzzFn (vals st))) (k (vals st))) st))).
  apply countsM_run. intros e. apply Hk.
Qed.

Lemma countsM_minimizeInput limit keep : countsM (minimizeInput limit keep).
Proof.
  unfold minimizeInput. cbv zeta.
  apply countsM_bind; [tally |]. intros stop. destruct stop; [tally |].
  apply countsM_run_vals. intros vs err. tally.
Qed.

Lemma counts_callMinimizeInput vs limit keep : counts (callMinimizeInput vs limit keep).
Proof.
  intros ws. unfold callMinimizeInput.
  pose proof (countsM_minimizeInput limit keep {| srv := ws; vals := vs; retErr := None |}) as H.
  destruct (minimizeInput limit keep _); exact H.
Qed.

Lemma counts_writeToMem vs : counts (writeToMem vs).
Proof.
  intros ws. unfold writeToMem, setValue.
  destruct (Z.of_nat (List.length (marshalCorpusFile vs)) >? valueCap (mem ws));
    apply counted_same; reflexivity.
Qed.

#[local] Hint Resolve counts_callMinimizeInput counts_writeToMem : tally.

Lemma counts_minimize args : counts (minimize args).
Proof.
  unfold minimize. tally.
Qed.

Lemma counts_encode r : counts (encode r).
Proof.
  intros ws. unfold encode. destruct (pipeWrite (env ws)). apply counted_same; reflexivity.
Qed.

#[local] Hint Resolve counts_minimize counts_fuzz counts_encode : tally.

(** Whatever the call, the server's counter rises by one for each run of
    the user's function, and for nothing else. *)
Lemma counts_handle fuel c : counts (handle fuel c).
Proof.
  unfold handle, dispatch, ping. tally.
Qed.


Lemma wrapS_incr k : GoInt.wrapS 64 (GoInt.wrapS 64 k + 1) = GoInt.wrapS 64 (k + 1).
Proof.
  unfold GoInt.wrapS. f_equal.
  replace ((k + 2 ^ (64 - 1)) mod 2 ^ 64 - 2 ^ (64 - 1) + 1 + 2 ^ (64 - 1))
    with ((k + 2 ^ (64 - 1)) mod 2 ^ 64 + 1) by lia.
  rewrite Zplus_mod_idemp_l. f_equal. lia.
Qed.

(** [n] times count++ from zero, in closed form. *)
Lemma iter_incr64 n : Nat.iter n GoInt.incr64 0 = GoInt.wrapS 64 (Z.of_nat n).
Proof.
  induction n as [| n IH]; [reflexivity |].
  change (Nat.iter (S n) GoInt.incr64 0) with (GoInt.incr64 (Nat.iter n GoInt.incr64 0)).
  rewrite IH. unfold GoInt.incr64. rewrite wrapS_incr. f_equal. lia.
Qed.

Lemma clientSetValue_ret inp wc wc1 :
  clientSetValue inp wc = Ret tt wc1 ->
  log (peer wc1) = log (peer wc)
  /\ count (header (mem (peer wc1))) = count (header (mem (peer wc)))
  /\ mutator (peer wc1) = mutator (peer wc)
  /\ coverageMask (peer wc1) = coverageMask (peer wc)
  /\ env (peer wc1) = env (peer wc)
  /\ valueRef (mem (peer wc1)) = inp
  /\ valueCap (mem (peer wc1)) = valueCap (mem (peer wc))
  /\ clientMutator wc1 = clientMutator wc.
Proof.
  unfold clientSetValue, onPeer, zoom.
  destruct (setValue inp (mem (peer wc))) as [m' |] eqn:Hset; [| discriminate].
  intros H. injection H as <-. cbn.
  repeat split.
  - unfold setValue in Hset. destruct (_ >? _); [discriminate |]. injection Hset as <-.
    reflexivity.
  - eapply setValue_valueRef. exact Hset.
  - pose proof Hset as Hfit. unfold setValue in Hset.
    destruct (Z.of_nat (List.length inp) >? valueCap (mem (peer wc))) eqn:Hgt; [discriminate |].
    injection Hset as <-. unfold valueCap in *. cbn [region].
    rewrite length_app, length_skipn. lia.
Qed.

Lemma callLocked_counted fuel io c wc :
  counted (peer wc) (peer (finalState (callLocked fuel io c wc))).
Proof.
  unfold callLocked. destruct (sendErr io); [apply counted_refl |].
  pose proof (counts_handle fuel c (peer wc)) as H.
  destruct (handle fuel c (peer wc)) as [[e | r] ws | h ws]; exact H.
Qed.

Lemma callLocked_clientMutator fuel io c wc :
  clientMutator (finalState (callLocked fuel io c wc)) = clientMutator wc.
Proof.
  unfold callLocked. destruct (sendErr io); [reflexivity |].
  destruct (handle fuel c (peer wc)) as [[e | r] ws | h ws]; reflexivity.
Qed.

Lemma fuzzReturn_count entryIn args inp callErr resp wc e resp' err wc' :
  fuzzReturn entryIn args inp callErr resp wc = Ret (e, resp', err) wc' ->
  FuzzResponse.Count resp' = count (header (mem (peer wc))) /\ peer wc' = peer wc
  /\ FuzzResponse.Err resp' = FuzzResponse.Err resp
  /\ FuzzResponse.CoverageData resp' = FuzzResponse.CoverageData resp
  /\ err = callErr.
Proof.
  unfold fuzzReturn, bind, gets. cbv zeta.
  destruct (negb (bytesEqual inp (valueRef (mem (peer wc))))); [discriminate |].
  match goal with |- context [if ?b then _ else _] => destruct b end.
  - destruct (unmarshalCorpusFile inp) as [msg | valuesOut]; [discriminate |].
    match goal with |- context [let (_, _) := ?p in _] => destruct p as [vs' r2] end.
    unfold setClientMutator, modify, ret. intros H. injection H as _ <- <- <-.
    repeat split.
  - unfold ret. intros H. injection H as _ <- <- <-. repeat split.
Qed.

(** The steps of workerClient.fuzz up to the return of the call. *)
Lemma clientFuzz_steps fuel io entryIn args wc e resp err wc' :
  closedBefore io = false -> closedAfter io = false ->
  clientFuzz fuel io entryIn args wc = Ret (e, resp, err) wc' ->
  (exists msg, CorpusEntryData entryIn = inl msg
               /\ e = zeroCorpusEntry /\ resp = FuzzResponse.zero /\ err = Some msg
               /\ log (peer wc') = log (peer wc)
               /\ count (header (mem (peer wc'))) = 0)
  \/ exists inp wc1 callErr r wc2,
       CorpusEntryData entryIn = inr inp
       /\ clientSetValue inp
            {| peer := withMem (setCount 0) (peer wc); clientMutator := clientMutator wc |}
          = Ret tt wc1
       /\ callLocked fuel io {| Ping := None; Fuzz := Some args; Minimize := None |} wc1
          = Ret (callErr, r) wc2
       /\ fuzzReturn entryIn args inp callErr
            (match r with Some (RFuzz x) => x | _ => FuzzResponse.zero end) wc2
          = Ret (e, resp, err) wc'.
Proof.
  intros Hb Ha. unfold clientFuzz. rewrite Hb.
  unfold bind at 1. unfold onPeer at 1, zoom, modify.
  destruct (CorpusEntryData entryIn) as [msg | inp].
  { unfold ret. intros H. injection H as <- <- <- <-. left. exists msg.
    repeat split. }
  unfold bind at 1.
  destruct (clientSetValue inp _) as [[] wc1 | h wc1] eqn:Hset; [| discriminate].
  unfold bind at 1.
  destruct (callLocked fuel io _ wc1) as [[callErr r] wc2 | h wc2] eqn:Hcall; [| discriminate].
  rewrite Ha. intros Hret. right. exists inp, wc1, callErr, r, wc2.
  split; [reflexivity |]. split; [exact Hset |]. split; [exact Hcall | exact Hret].
Qed.

(** Whenever workerClient.fuzz returns without the shared memory having
    been closed during the call, resp.Count is the number of times the
    user's function was run in the call, as an int64: the client resets the
    counter, the server raises it once before each run and at no other
    time, and the client reads it back. *)
Theorem fuzz_count_is_the_number_of_runs (fuel : nat) (io : surroundings)
    (entryIn : CorpusEntry) (args : fuzzArgs) (wc : workerClient)
    (e : CorpusEntry) (resp : fuzzResponse) (err : option error) (wc' : workerClient) :
  closedAfter io = false ->
  clientFuzz fuel io entryIn args wc = Ret (e, resp, err) wc' ->
  exists evs,
    log (peer wc') = log (peer wc) ++ evs
    /\ FuzzResponse.Count resp = GoInt.wrapS 64 (Z.of_nat (runs evs)).
Proof.
  intros Ha Hret. destruct (closedBefore io) eqn:Hb.
  { unfold clientFuzz in Hret. rewrite Hb in Hret. injection Hret as _ <- _ <-.
    exists []. rewrite app_nil_r. split; reflexivity. }
  destruct (clientFuzz_steps _ _ _ _ _ _ _ _ _ Hb Ha Hret)
    as [(msg & _ & _ & -> & _ & Hlog & _)
       | (inp & wc1 & callErr & r & wc2 & _ & Hset & Hcall & Hfin)].
  { exists []. rewrite app_nil_r. split; [exact Hlog | reflexivity]. }
  apply clientSetValue_ret in Hset. destruct Hset as (Hl1 & Hc1 & _).
  cbn in Hl1, Hc1.
  pose proof (callLocked_counted fuel io
                {| Ping := None; Fuzz := Some args; Minimize := None |} wc1) as [evs [Hl2 Hc2]].
  rewrite Hcall in Hl2, Hc2. cbn [finalState] in Hl2, Hc2.
  apply fuzzReturn_count in Hfin. destruct Hfin as (Hcount & Hpeer & _).
  exists evs. rewrite Hpeer, Hl2, Hl1. split; [reflexivity |].
  rewrite Hcount, Hc2, Hc1. apply iter_incr64.
Qed.


(** The steps of workerClient.minimize up to the return of the call. *)
Lemma clientMinimize_steps fuel io entryIn args wc e resp err wc' :
  closedBefore io = false -> closedAfter io = false ->
  clientMinimize fuel io entryIn args wc = Ret (e, resp, err) wc' ->
  (exists msg, CorpusEntryData entryIn = inl msg
               /\ e = zeroCorpusEntry /\ resp = MinimizeResponse.zero /\ err = Some msg
               /\ log (peer wc') = log (peer wc))
  \/ exists inp wc1 r,
       CorpusEntryData entryIn = inr inp
       /\ clientSetValue inp
            {| peer := withMem (setCount 0) (peer wc); clientMutator := clientMutator wc |}
          = Ret tt wc1
       /\ callLocked fuel io {| Ping := None; Fuzz := None; Minimize := Some args |} wc1
          = Ret (err, r) wc'
       /\ resp = MinimizeResponse.withCount (count (header (mem (peer wc'))))
                   (match r with Some (RMinimize x) => x | _ => MinimizeResponse.zero end)
       /\ (e = entryIn
           \/ exists values,
                unmarshalCorpusFile (valueCopy (mem (peer wc'))) = inr values
                /\ e = minimizeEntryOut entryIn (valueCopy (mem (peer wc'))) values).
Proof.
  intros Hb Ha. unfold clientMinimize. rewrite Hb.
  unfold bind at 1. unfold onPeer at 1, zoom, modify.
  destruct (CorpusEntryData entryIn) as [msg | inp].
  { unfold ret. intros H. injection H as <- <- <- <-. left. exists msg.
    repeat split. }
  unfold bind at 1.
  destruct (clientSetValue inp _) as [[] wc1 | h wc1] eqn:Hset; [| discriminate].
  unfold bind at 1.
  destruct (callLocked fuel io _ wc1) as [[callErr r] wc2 | h wc2] eqn:Hcall; [| discriminate].
  rewrite Ha. unfold bind, gets. cbv zeta.
  match goal with |- context [if ?b then _ else _] => destruct b eqn:Hok end.
  - destruct (unmarshalCorpusFile (valueCopy (mem (peer wc2)))) as [msg | values] eqn:Hdec;
      [discriminate |].
    unfold ret. intros H. injection H as <- <- <- <-. right. exists inp, wc1, r.
    split; [reflexivity |]. split; [exact Hset |]. split; [exact Hcall |].
    split; [reflexivity |]. right. exists values. split; [exact Hdec | reflexivity].
  - unfold ret. intros H. injection H as <- <- <- <-. right. exists inp, wc1, r.
    split; [reflexivity |]. split; [exact Hset |]. split; [exact Hcall |].
    split; [reflexivity |]. left. reflexivity.
Qed.

(** Whenever workerClient.minimize returns without the shared memory
    having been closed during the call, resp.Count is the number of times
    the user's function was run in the call, as an int64: the first run on
    the original values and one run for each candidate tried. *)
Theorem minimize_count_is_the_number_of_runs (fuel : nat) (io : surroundings)
    (entryIn : CorpusEntry) (args : minimizeArgs) (wc : workerClient)
    (e : CorpusEntry) (resp : minimizeResponse) (err : option error)
    (wc' : workerClient) :
  closedAfter io = false ->
  clientMinimize fuel io entryIn args wc = Ret (e, resp, err) wc' ->
  exists evs,
    log (peer wc') = log (peer wc) ++ evs
    /\ MinimizeResponse.Count resp = GoInt.wrapS 64 (Z.of_nat (runs evs)).
Proof.
  intros Ha Hret. destruct (closedBefore io) eqn:Hb.
  { unfold clientMinimize in Hret. rewrite Hb in Hret. injection Hret as _ <- _ <-.
    exists []. rewrite app_nil_r. split; reflexivity. }
  destruct (clientMinimize_steps _ _ _ _ _ _ _ _ _ Hb Ha Hret)
    as [(msg & _ & _ & -> & _ & Hlog) | (inp & wc1 & r & _ & Hset & Hcall & -> & _)].
  { exists []. rewrite app_nil_r. split; [exact Hlog | reflexivity]. }
  apply clientSetValue_ret in Hset. destruct Hset as (Hl1 & Hc1 & _).
  cbn in Hl1, Hc1.
  pose proof (callLocked_counted fuel io
                {| Ping := None; Fuzz := None; Minimize := Some args |} wc1) as [evs [Hl2 Hc2]].
  rewrite Hcall in Hl2, Hc2. cbn [finalState] in Hl2, Hc2.
  exists evs. rewrite Hl2, Hl1. split; [reflexivity |].
  cbn [MinimizeResponse.Count MinimizeResponse.withCount].
  rewrite Hc2, Hc1. apply iter_incr64.
Qed.


(** ** The main loop of fuzz, round by round *)

Lemma ctxCancelled_run ws :
  ctxCancelled ws = Ret (fst (ctxErr (env ws))) (withEnv (snd (ctxErr (env ws))) ws).
Proof. unfold ctxCancelled. destruct (ctxErr (env ws)). reflexivity. Qed.

Lemma mutateVals_run vs ws :
  mutateVals vs ws
  = Ret (fst (mutate vs (valueCap (mem ws)) (mutator ws)))
        (logged (Mutated (valueCap (mem ws)))
           (withMutator (snd (mutate vs (valueCap (mem ws)) (mutator ws))) ws)).
Proof. unfold mutateVals. destruct (mutate vs _ _). reflexivity. Qed.

(** What a run of fuzzOnce leaves, whether it returns or the process dies. *)
Lemma fuzzOnce_final vs ws :
  let ws' := finalState (fuzzOnce vs ws) in
  log ws' = log ws ++ [Ran (entryOf vs)]
  /\ mem ws' = setCount (GoInt.incr64 (count (header (mem ws)))) (mem ws)
  /\ mutator ws' = mutator ws
  /\ coverageMask ws' = coverageMask ws.
Proof.
  cbv zeta. unfold fuzzOnce, bind, incrCount, modify, gets, callFuzzFn.
  cbn [env withMem]. destruct (fuzzFn (entryOf vs) (env ws)) as [[| e |] w]; cbn.
  - destruct (coverageMask ws) as [mk |] eqn:Hm;
      [destruct (countNewCoverageBits mk (coverageSnapshot w) >? 0) |]; cbn;
      rewrite ?Hm; repeat split; reflexivity.
  - repeat split; reflexivity.
  - repeat split; reflexivity.
Qed.

Lemma fuzzOnce_outcome vs ws :
  match fuzzOnce vs ws with
  | Ret (_, cov, _) _ => cov <> None -> coverageMask ws <> None
  | Abort h _ => h = Crash
  end.
Proof.
  unfold fuzzOnce, bind, incrCount, modify, gets, callFuzzFn.
  cbn [env withMem]. destruct (fuzzFn (entryOf vs) (env ws)) as [[| e |] w]; cbn.
  - destruct (coverageMask ws) as [mk |];
      [destruct (countNewCoverageBits mk (coverageSnapshot w) >? 0) |]; cbn; congruence.
  - congruence.
  - reflexivity.
Qed.

Lemma incr64_small z : - 2 ^ 63 <= z < 2 ^ 63 - 1 -> GoInt.incr64 z = z + 1.
Proof.
  intros Hz. unfold GoInt.incr64, GoInt.wrapS.
  replace (2 ^ (64 - 1)) with (2 ^ 63) by reflexivity.
  rewrite Z.mod_small; lia.
Qed.

Lemma setCount_same m : m = setCount (count (header m)) m.
Proof. destruct m as [[c vl st inc] reg]. reflexivity. Qed.

Lemma traced_refl limit vs ws ws' :
  log ws' = log ws -> mem ws' = mem ws -> mutator ws' = mutator ws ->
  coverageMask ws' = coverageMask ws ->
  traced limit vs ws ws'.
Proof.
  intros Hl Hm Hr Hc. exists []. cbn [rounds fst snd forallb].
  rewrite app_nil_r, Hm. repeat split; try assumption; try reflexivity.
  - apply setCount_same.
  - cbn. lia.
  - lia.
Qed.

(** One round, deflaked or not, and the rounds after it. *)
Lemma traced_cons limit vs ws ws1 ws' (d : bool) :
  let cap := valueCap (mem ws) in
  let vs' := fst (mutate vs cap (mutator ws)) in
  log ws1 = log ws ++ Mutated cap :: Ran (entryOf vs')
                        :: (if d then [Ran (entryOf vs')] else []) ->
  mutator ws1 = snd (mutate vs cap (mutator ws)) ->
  coverageMask ws1 = coverageMask ws ->
  mem ws1 = setCount (count (header (mem ws1))) (mem ws) ->
  (d = true -> coverageMask ws <> None) ->
  (0 < limit < 2 ^ 63 -> - 2 ^ 63 <= count (header (mem ws)) < limit ->
   count (header (mem ws1)) = count (header (mem ws)) + (if d then 2 else 1)
   /\ count (header (mem ws1)) <= limit) ->
  (ws' = ws1 \/ (0 < limit -> count (header (mem ws1)) < limit)) ->
  traced limit vs' ws1 ws' ->
  traced limit vs ws ws'.
Proof.
  cbv zeta. intros Hl Hr Hc Hmem Hd Hcount Hnext (ds & Tl & Tr & Tc & Tmem & Td & Tcount).
  assert (Hcap : valueCap (mem ws1) = valueCap (mem ws)) by (rewrite Hmem; reflexivity).
  assert (Hds : ws' = ws1 -> exists ds0,
            log ws' = log ws1 ++ fst (rounds (valueCap (mem ws1))
                                        (fst (mutate vs (valueCap (mem ws)) (mutator ws)))
                                        (mutator ws1) ds0)
            /\ mutator ws' = snd (snd (rounds (valueCap (mem ws1))
                                         (fst (mutate vs (valueCap (mem ws)) (mutator ws)))
                                         (mutator ws1) ds0))
            /\ forallb negb ds0 = true
            /\ runs (fst (rounds (valueCap (mem ws1))
                            (fst (mutate vs (valueCap (mem ws)) (mutator ws)))
                            (mutator ws1) ds0)) = 0%nat
            /\ mem ws' = setCount (count (header (mem ws'))) (mem ws1)).
  { intros ->. exists []. cbn. rewrite app_nil_r. repeat split. apply setCount_same. }
  assert (Hgen : exists ds0,
            log ws' = log ws1 ++ fst (rounds (valueCap (mem ws1))
                                        (fst (mutate vs (valueCap (mem ws)) (mutator ws)))
                                        (mutator ws1) ds0)
            /\ mutator ws' = snd (snd (rounds (valueCap (mem ws1))
                                         (fst (mutate vs (valueCap (mem ws)) (mutator ws)))
                                         (mutator ws1) ds0))
            /\ (coverageMask ws = None -> forallb negb ds0 = true)
            /\ mem ws' = setCount (count (header (mem ws'))) (mem ws1)
            /\ (0 < limit < 2 ^ 63 -> - 2 ^ 63 <= count (header (mem ws)) < limit ->
                count (header (mem ws'))
                = count (header (mem ws1))
                  + Z.of_nat (runs (fst (rounds (valueCap (mem ws1))
                            (fst (mutate vs (valueCap (mem ws)) (mutator ws)))
                            (mutator ws1) ds0)))
                /\ count (header (mem ws')) <= limit)).
  { destruct Hnext as [Heq | Hlt].
    - destruct (Hds Heq) as (ds0 & H1 & H2 & H3 & H4 & H5). exists ds0.
      split; [exact H1 |]. split; [exact H2 |]. split; [intros _; exact H3 |].
      split; [exact H5 |].
      intros Hlim Hrange. rewrite H4, Heq. destruct (Hcount Hlim Hrange) as [_ Hle].
      split; [cbn; lia | exact Hle].
    - exists ds. split; [exact Tl |]. split; [exact Tr |].
      split; [intros Hm; apply Td; congruence |].
      split; [exact Tmem |].
      intros Hlim Hrange. destruct (Hcount Hlim Hrange) as [Hc1 Hle].
      apply Tcount; [exact Hlim |]. split; [| apply Hlt; lia].
      rewrite Hc1. destruct d; lia. }
  destruct Hgen as (ds0 & G1 & G2 & G3 & Gmem & G4).
  exists (d :: ds0). cbn [rounds].
  rewrite Hcap, Hr in G1, G2, G4.
  destruct (mutate vs (valueCap (mem ws)) (mutator ws)) as [vs' r'] eqn:Hmut.
  cbn [fst snd] in *.
  destruct (rounds (valueCap (mem ws)) vs' r' ds0) as [evs fin] eqn:Hrounds.
  cbn [fst snd] in *.
  split.
  { rewrite G1, Hl, <- app_assoc. cbn [app]. destruct d; reflexivity. }
  split; [exact G2 |].
  split; [congruence |].
  split; [rewrite Gmem, Hmem; reflexivity |].
  split.
  { intros Hm. cbn [forallb]. rewrite (G3 Hm). destruct d; [| reflexivity].
    exfalso. apply Hd; [reflexivity | exact Hm]. }
  intros Hlim Hrange. destruct (G4 Hlim Hrange) as [Hc2 Hle].
  destruct (Hcount Hlim Hrange) as [Hc1 _].
  split; [| exact Hle].
  rewrite Hc2, Hc1.
  change (Mutated (valueCap (mem ws)) :: Ran (entryOf vs')
            :: (if d then [Ran (entryOf vs')] else []) ++ evs)
    with ([Mutated (valueCap (mem ws)); Ran (entryOf vs')]
            ++ (if d then [Ran (entryOf vs')] else []) ++ evs).
  rewrite !runs_app. destruct d; cbn; lia.
Qed.

Lemma fuzzShouldStop_run limit ws :
  fuzzShouldStop limit ws
  = Ret ((0 <? limit) && (limit <=? count (header (mem ws)))) ws.
Proof. reflexivity. Qed.

(** The end of a round: stop at the limit, or go round again. *)
Lemma traced_next fuel limit resp vs ws ws1 (d : bool) :
  let cap := valueCap (mem ws) in
  let vs' := fst (mutate vs cap (mutator ws)) in
  (forall ws0, traced limit vs' ws0 (finalState (fuzzLoop fuel limit vs' resp ws0))) ->
  log ws1 = log ws ++ Mutated cap :: Ran (entryOf vs')
                        :: (if d then [Ran (entryOf vs')] else []) ->
  mutator ws1 = snd (mutate vs cap (mutator ws)) ->
  coverageMask ws1 = coverageMask ws ->
  mem ws1 = setCount (count (header (mem ws1))) (mem ws) ->
  (d = true -> coverageMask ws <> None) ->
  (0 < limit < 2 ^ 63 -> - 2 ^ 63 <= count (header (mem ws)) < limit ->
   count (header (mem ws1)) = count (header (mem ws)) + (if d then 2 else 1)
   /\ count (header (mem ws1)) <= limit) ->
  traced limit vs ws
    (finalState
       (bind (fuzzShouldStop limit) (fun stop =>
          if stop then ret resp else fuzzLoop fuel limit vs' resp) ws1)).
Proof.
  cbv zeta. intros IH Hl Hr Hc Hcap Hd Hcount.
  unfold bind. rewrite fuzzShouldStop_run.
  destruct ((0 <? limit) && (limit <=? count (header (mem ws1)))) eqn:Hstop.
  - cbn [ret finalState].
    eapply (traced_cons limit vs ws ws1 ws1 d); try eassumption.
    + left. reflexivity.
    + apply traced_refl; reflexivity.
  - eapply (traced_cons limit vs ws ws1 _ d); try eassumption.
    + right. intros Hpos. apply andb_false_iff in Hstop.
      destruct Hstop as [Hs | Hs]; [apply Z.ltb_ge in Hs; lia | apply Z.leb_gt in Hs; exact Hs].
    + apply IH.
Qed.

(** The rounds of the main loop of fuzz, whatever its outcome. *)
Lemma fuzzLoop_traced fuel limit resp : forall vs ws,
  traced limit vs ws (finalState (fuzzLoop fuel limit vs resp ws)).
Proof.
  induction fuel as [| fuel IH]; intros vs ws; cbn [fuzzLoop].
  { cbn [finalState]. apply traced_refl; reflexivity. }
  unfold bind at 1. rewrite ctxCancelled_run.
  destruct (fst (ctxErr (env ws))).
  { cbn [ret finalState]. apply traced_refl; reflexivity. }
  set (ws0 := withEnv (snd (ctxErr (env ws))) ws).
  unfold bind at 1. rewrite mutateVals_run.
  change (valueCap (mem ws0)) with (valueCap (mem ws)).
  change (mutator ws0) with (mutator ws).
  set (cap := valueCap (mem ws)).
  set (vs' := fst (mutate vs cap (mutator ws))).
  set (ws1 := logged (Mutated cap) (withMutator (snd (mutate vs cap (mutator ws))) ws0)).
  pose proof (fuzzOnce_final vs' ws1) as F1. cbv zeta in F1.
  pose proof (fuzzOnce_outcome vs' ws1) as O1.
  (* the state after the first run of the round *)
  assert (R1 : forall ws2,
             log ws2 = log ws1 ++ [Ran (entryOf vs')] ->
             mem ws2 = setCount (GoInt.incr64 (count (header (mem ws1)))) (mem ws1) ->
             mutator ws2 = mutator ws1 -> coverageMask ws2 = coverageMask ws1 ->
             log ws2 = log ws ++ Mutated cap :: Ran (entryOf vs') :: (if false then [Ran (entryOf vs')] else [])
             /\ mutator ws2 = snd (mutate vs cap (mutator ws))
             /\ coverageMask ws2 = coverageMask ws
             /\ mem ws2 = setCount (count (header (mem ws2))) (mem ws)
             /\ (0 < limit < 2 ^ 63 -> - 2 ^ 63 <= count (header (mem ws)) < limit ->
                 count (header (mem ws2)) = count (header (mem ws)) + 1
                 /\ count (header (mem ws2)) <= limit)).
  { intros ws2 Hl Hm Hr Hc. split; [| split; [| split; [| split]]].
    - rewrite Hl. subst ws1. cbn [log logged withMutator]. rewrite <- app_assoc. reflexivity.
    - rewrite Hr. reflexivity.
    - rewrite Hc. reflexivity.
    - rewrite Hm. reflexivity.
    - intros Hlim Hrange. rewrite Hm. cbn [count header setCount].
      change (mem ws1) with (mem ws). rewrite incr64_small by lia. lia. }
  unfold bind at 1.
  destruct (fuzzOnce vs' ws1) as [[[dur cov] errMsg] ws2 | h ws2]; cbn [finalState] in F1.
  2:{ destruct F1 as (Hl & Hm & Hr & Hc).
      destruct (R1 ws2 Hl Hm Hr Hc) as (A1 & A2 & A3 & A4 & A5).
      cbn [finalState].
      eapply (traced_cons limit vs ws ws2 ws2 false); try eassumption.
      - discriminate.
      - left. reflexivity.
      - apply traced_refl; reflexivity. }
  destruct F1 as (Hl & Hm & Hr & Hc).
  destruct (R1 ws2 Hl Hm Hr Hc) as (A1 & A2 & A3 & A4 & A5).
  destruct (negb (String.eqb errMsg "")).
  { cbn [ret finalState].
    eapply (traced_cons limit vs ws ws2 ws2 false); try eassumption.
    - discriminate.
    - left. reflexivity.
    - apply traced_refl; reflexivity. }
  destruct cov as [c |].
  2:{ apply (traced_next fuel limit resp vs ws ws2 false); try assumption.
      - intros ws3. apply IH.
      - discriminate. }
  (* new coverage: the round is deflaked unless the limit is reached *)
  assert (Hmask : coverageMask ws <> None).
  { intros Hm0. apply O1; [discriminate |]. exact Hm0. }
  unfold bind at 1. rewrite fuzzShouldStop_run.
  destruct ((0 <? limit) && (limit <=? count (header (mem ws2)))) eqn:Hstop; cbn [negb].
  { unfold bind at 1. cbn [ret andb].
    cbn [finalState].
    eapply (traced_cons limit vs ws ws2 ws2 false); try eassumption.
    - discriminate.
    - left. reflexivity.
    - apply traced_refl; reflexivity. }
  pose proof (fuzzOnce_final vs' ws2) as F2. cbv zeta in F2.
  assert (R2 : forall ws3,
             log ws3 = log ws2 ++ [Ran (entryOf vs')] ->
             mem ws3 = setCount (GoInt.incr64 (count (header (mem ws2)))) (mem ws2) ->
             mutator ws3 = mutator ws2 -> coverageMask ws3 = coverageMask ws2 ->
             log ws3 = log ws ++ Mutated cap :: Ran (entryOf vs') :: (if true then [Ran (entryOf vs')] else [])
             /\ mutator ws3 = snd (mutate vs cap (mutator ws))
             /\ coverageMask ws3 = coverageMask ws
             /\ mem ws3 = setCount (count (header (mem ws3))) (mem ws)
             /\ (0 < limit < 2 ^ 63 -> - 2 ^ 63 <= count (header (mem ws)) < limit ->
                 count (header (mem ws3)) = count (header (mem ws)) + 2
                 /\ count (header (mem ws3)) <= limit)).
  { intros ws3 Hl3 Hm3 Hr3 Hc3. split; [| split; [| split; [| split]]].
    - rewrite Hl3, A1, <- app_assoc. reflexivity.
    - rewrite Hr3. exact A2.
    - rewrite Hc3. exact A3.
    - rewrite Hm3, A4. reflexivity.
    - intros Hlim Hrange. destruct (A5 Hlim Hrange) as [Hc2 Hle].
      rewrite Hm3. cbn [count header setCount].
      apply andb_false_iff in Hstop.
      assert (count (header (mem ws2)) < limit).
      { destruct Hstop as [Hs | Hs]; [apply Z.ltb_ge in Hs; lia | apply Z.leb_gt in Hs; exact Hs]. }
      rewrite incr64_small by lia. lia. }
  unfold bind at 1.
  destruct (fuzzOnce vs' ws2) as [[[dur2 cov2] errMsg2] ws3 | h ws3]; cbn [finalState] in F2.
  2:{ destruct F2 as (Hl3 & Hm3 & Hr3 & Hc3).
      destruct (R2 ws3 Hl3 Hm3 Hr3 Hc3) as (B1 & B2 & B3 & B4 & B5).
      cbn [finalState].
      eapply (traced_cons limit vs ws ws3 ws3 true); try eassumption.
      - intros _. exact Hmask.
      - left. reflexivity.
      - apply traced_refl; reflexivity. }
  destruct F2 as (Hl3 & Hm3 & Hr3 & Hc3).
  destruct (R2 ws3 Hl3 Hm3 Hr3 Hc3) as (B1 & B2 & B3 & B4 & B5).
  cbn [andb].
  destruct (negb (String.eqb errMsg2 "")).
  { cbn [ret finalState].
    eapply (traced_cons limit vs ws ws3 ws3 true); try eassumption.
    - intros _. exact Hmask.
    - left. reflexivity.
    - apply traced_refl; reflexivity. }
  destruct cov2 as [c2 |].
  { cbn [ret finalState].
    eapply (traced_cons limit vs ws ws3 ws3 true); try eassumption.
    - intros _. exact Hmask.
    - left. reflexivity.
    - apply traced_refl; reflexivity. }
  apply (traced_next fuel limit resp vs ws ws3 true); try assumption.
  - intros ws4. apply IH.
  - intros _. exact Hmask.
Qed.

(** ** fuzz from its checks to the loop *)

Lemma prepared_frame args ws :
  log (prepared args ws) = log ws
  /\ count (header (mem (prepared args ws))) = count (header (mem ws))
  /\ mutator (prepared args ws) = mutator ws
  /\ valueCap (mem (prepared args ws)) = valueCap (mem ws)
  /\ valueCopy (mem (prepared args ws)) = valueCopy (mem ws)
  /\ payload (mem (prepared args ws)) = payload (mem ws)
  /\ randState (header (mem (prepared args ws))) = fst (prngSave (mutator ws))
  /\ randInc (header (mem (prepared args ws))) = snd (prngSave (mutator ws))
  /\ coverageMask (prepared args ws)
     = match FuzzArgs.CoverageData args with
       | Some cov => Some cov
       | None => coverageMask ws
       end.
Proof.
  unfold prepared. cbv zeta.
  destruct (installed_frame (FuzzArgs.CoverageData args) ws) as (Hm & He & Hl & Hr).
  cbn [log mem mutator withMem setRand header count valueCap region randState randInc
       coverageMask valueCopy valueRef valueLen payload].
  rewrite !afterTimeout_log, !afterTimeout_mem, !afterTimeout_mutator, Hm, Hl, Hr.
  repeat split.
  unfold afterTimeout, applyTimeout.
  destruct (FuzzArgs.Timeout args =? 0), (FuzzArgs.CoverageData args); reflexivity.
Qed.

Lemma installCoverage_cases data ws :
  (exists msg, installCoverage data ws = Abort (Panic msg) ws)
  \/ (maskFits data ws /\ installCoverage data ws = Ret tt (installed data ws)).
Proof.
  destruct data as [cov |].
  - destruct (coverageMask ws) as [mk |] eqn:Hm.
    + destruct (Nat.eqb (List.length cov) (List.length mk)) eqn:Hlen.
      * right. assert (Hfit : maskFits (Some cov) ws).
        { intros cov' mk' [= <-] Hmk. rewrite Hm in Hmk. injection Hmk as <-.
          apply Nat.eqb_eq. exact Hlen. }
        split; [exact Hfit | apply installCoverage_run; exact Hfit].
      * left. eexists. unfold installCoverage, bind, gets. rewrite Hm, Hlen. reflexivity.
    + right. assert (Hfit : maskFits (Some cov) ws).
      { intros cov' mk' _ Hmk. rewrite Hm in Hmk. discriminate. }
      split; [exact Hfit | apply installCoverage_run; exact Hfit].
  - right. assert (Hfit : maskFits None ws) by (intros cov' mk' [=]).
    split; [exact Hfit | reflexivity].
Qed.

(** fuzz either faults in one of its three checks, having run nothing, or
    goes on from the prepared server. *)
Lemma fuzz_cases fuel args ws :
  (exists msg ws',
      fuzz fuel args ws = Abort (Panic msg) ws'
      /\ log ws' = log ws
      /\ count (header (mem ws')) = count (header (mem ws)))
  \/ (exists vs,
        maskFits (FuzzArgs.CoverageData args) ws
        /\ (0 <? FuzzArgs.Limit args)
           && (FuzzArgs.Limit args <=? count (header (mem ws))) = false
        /\ unmarshalCorpusFile (valueCopy (mem ws)) = inr vs
        /\ fuzz fuel args ws
           = fuzzBody fuel args vs (now (env (installed (FuzzArgs.CoverageData args) ws)))
               (prepared args ws)).
Proof.
  destruct (prepared_frame args ws) as (Pl & Pc & _ & _ & Pv & _).
  remember (fuzz fuel args ws) as out eqn:Hout.
  unfold fuzz in Hout. unfold bind at 1 in Hout.
  destruct (installCoverage_cases (FuzzArgs.CoverageData args) ws) as [[msg E] | [Hfit E]];
    rewrite E in Hout; clear E.
  { left. exists msg, ws. repeat split. exact Hout. }
  unfold bind at 1, gets at 1 in Hout. unfold bind at 1 in Hout.
  rewrite applyTimeout_run in Hout.
  unfold bind at 1, modify at 1 in Hout.
  assert (E : (let (st, inc) :=
                 prngSave (mutator (afterTimeout (FuzzArgs.Timeout args)
                                      (installed (FuzzArgs.CoverageData args) ws))) in
               withMem (setRand st inc)
                 (afterTimeout (FuzzArgs.Timeout args)
                    (installed (FuzzArgs.CoverageData args) ws)))
              = prepared args ws).
  { unfold prepared. cbv zeta. destruct (prngSave _). reflexivity. }
  rewrite E in Hout. clear E.
  unfold bind at 1 in Hout. rewrite fuzzShouldStop_run, Pc in Hout.
  destruct ((0 <? FuzzArgs.Limit args)
            && (FuzzArgs.Limit args <=? count (header (mem ws)))) eqn:Hlim.
  { left. eexists. exists (prepared args ws). split; [exact Hout |]. split; assumption. }
  unfold bind at 1, gets at 1 in Hout. rewrite Pv in Hout.
  destruct (unmarshalCorpusFile (valueCopy (mem ws))) as [msg | vs] eqn:Hdec.
  { left. exists msg, (prepared args ws). split; [exact Hout |]. split; assumption. }
  right. exists vs. split; [exact Hfit |]. split; [reflexivity |]. split; [reflexivity |].
  exact Hout.
Qed.

Lemma fuzzBody_final fuel args vs start ws :
  finalState (fuzzBody fuel args vs start ws)
  = finalState ((if FuzzArgs.Warmup args then fuzzWarmup vs FuzzResponse.zero
                 else fuzzLoop fuel (FuzzArgs.Limit args) vs FuzzResponse.zero) ws).
Proof.
  unfold fuzzBody. unfold bind at 1.
  destruct (FuzzArgs.Warmup args).
  - destruct (fuzzWarmup vs FuzzResponse.zero ws); reflexivity.
  - destruct (fuzzLoop fuel (FuzzArgs.Limit args) vs FuzzResponse.zero ws); reflexivity.
Qed.

Lemma fuzzWarmup_final vs resp ws :
  finalState (fuzzWarmup vs resp ws) = finalState (fuzzOnce vs ws).
Proof.
  unfold fuzzWarmup, bind.
  destruct (fuzzOnce vs ws) as [[[dur cov] errMsg] ws1 | h ws1]; [| reflexivity].
  destruct (negb (String.eqb errMsg "")); [reflexivity |].
  destruct coverageEnabled; reflexivity.
Qed.

(** ** The rounds of a trace *)

Lemma rounds_counts maxBytes : forall ds vs r,
  mutations (fst (rounds maxBytes vs r ds)) = List.length ds
  /\ (List.length ds <= runs (fst (rounds maxBytes vs r ds)) <= 2 * List.length ds)%nat
  /\ (forallb negb ds = true -> runs (fst (rounds maxBytes vs r ds)) = List.length ds).
Proof.
  induction ds as [| d tl IH]; intros vs r; cbn [rounds].
  - cbn. repeat split; lia.
  - destruct (mutate vs maxBytes r) as [vs' r'].
    specialize (IH vs' r'). destruct (rounds maxBytes vs' r' tl) as [evs fin].
    cbn [fst] in *. destruct IH as (Hm & Hr & Hp).
    change (Mutated maxBytes :: Ran (entryOf vs')
              :: (if d then [Ran (entryOf vs')] else []) ++ evs)
      with ([Mutated maxBytes; Ran (entryOf vs')]
              ++ (if d then [Ran (entryOf vs')] else []) ++ evs).
    rewrite !runs_app, !mutations_app. cbn [List.length forallb].
    destruct d.
    + cbn. split; [lia |]. split; [lia | discriminate].
    + cbn. split; [lia |]. split; [lia |]. intros Hall. rewrite (Hp Hall). reflexivity.
Qed.

(** The rounds end with the values mutated once for each round, deflaked
    or not. *)
Lemma rounds_replay maxBytes : forall ds vs r,
  snd (rounds maxBytes vs r ds) = replay (List.length ds) maxBytes vs r.
Proof.
  induction ds as [| d tl IH]; intros vs r; cbn [rounds replay List.length].
  - reflexivity.
  - destruct (mutate vs maxBytes r) as [vs' r'].
    specialize (IH vs' r'). destruct (rounds maxBytes vs' r' tl) as [evs fin].
    exact IH.
Qed.

Lemma lastRun_app evs evs' :
  lastRun (evs ++ evs')
  = match lastRun evs' with
    | Some vs => Some vs
    | None => lastRun evs
    end.
Proof.
  induction evs as [| e tl IH]; cbn [app lastRun].
  - destruct (lastRun evs'); reflexivity.
  - rewrite IH. destruct (lastRun evs'); reflexivity.
Qed.

(** The last run of a trace is on the values the rounds end with. *)
Lemma rounds_lastRun maxBytes : forall ds vs r,
  lastRun (fst (rounds maxBytes vs r ds))
  = match ds with
    | [] => None
    | _ :: _ => Some (fst (snd (rounds maxBytes vs r ds)))
    end.
Proof.
  induction ds as [| d tl IH]; intros vs r; cbn [rounds]; [reflexivity |].
  destruct (mutate vs maxBytes r) as [vs' r'].
  specialize (IH vs' r'). destruct (rounds maxBytes vs' r' tl) as [evs fin] eqn:Hr.
  cbn [fst snd] in *.
  change (Mutated maxBytes :: Ran (entryOf vs')
            :: (if d then [Ran (entryOf vs')] else []) ++ evs)
    with (([Mutated maxBytes; Ran (entryOf vs')]
             ++ (if d then [Ran (entryOf vs')] else [])) ++ evs).
  rewrite lastRun_app, IH.
  destruct tl as [| d' tl']; [| reflexivity].
  cbn [rounds] in Hr. injection Hr as <- <-. destruct d; reflexivity.
Qed.

(** The trace of fuzz past its checks, without warmup. *)
Lemma fuzz_traced fuel args ws :
  FuzzArgs.Warmup args = false ->
  exists ds vs0,
    let evs := fst (rounds (valueCap (mem ws)) vs0 (mutator ws) ds) in
    log (finalState (fuzz fuel args ws)) = log ws ++ evs
    /\ (ds <> [] ->
        maskFits (FuzzArgs.CoverageData args) ws
        /\ unmarshalCorpusFile (valueCopy (mem ws)) = inr vs0
        /\ mem (finalState (fuzz fuel args ws))
           = setCount (count (header (mem (finalState (fuzz fuel args ws)))))
               (mem (prepared args ws))
        /\ mutator (finalState (fuzz fuel args ws))
           = snd (snd (rounds (valueCap (mem ws)) vs0 (mutator ws) ds)))
    /\ (FuzzArgs.CoverageData args = None -> coverageMask ws = None ->
        forallb negb ds = true)
    /\ (0 < FuzzArgs.Limit args < 2 ^ 63 -> - 2 ^ 63 <= count (header (mem ws)) ->
        count (header (mem (finalState (fuzz fuel args ws))))
        = count (header (mem ws)) + Z.of_nat (runs evs)
        /\ Z.of_nat (runs evs)
           <= Z.max 0 (FuzzArgs.Limit args - count (header (mem ws)))).
Proof.
  intros Hwarm. destruct (prepared_frame args ws) as (Pl & Pc & Pr & Pcap & Pv & _ & _ & _ & Pm).
  destruct (fuzz_cases fuel args ws)
    as [(msg & ws' & -> & Hl & Hc) | (vs & Hfit & Hlim & Hdec & ->)].
  - exists [], []. cbn [rounds fst finalState]. rewrite app_nil_r.
    split; [exact Hl |]. split; [congruence |]. split; [reflexivity |].
    intros _ _. rewrite Hc. cbn. lia.
  - rewrite fuzzBody_final, Hwarm.
    destruct (fuzzLoop_traced fuel (FuzzArgs.Limit args) FuzzResponse.zero vs
                (prepared args ws)) as (ds & Tl & Tr & Tc & Tmem & Td & Tcount).
    rewrite Pcap, Pr, Pl, Pc in *.
    exists ds, vs. cbv zeta.
    split; [exact Tl |]. split; [intros _; auto |].
    split.
    + intros Hdata Hmask. apply Td. rewrite Pm, Hdata. exact Hmask.
    + intros Hlimit Hrange. apply andb_false_iff in Hlim.
      assert (Hlt : count (header (mem ws)) < FuzzArgs.Limit args).
      { destruct Hlim as [Hs | Hs]; [apply Z.ltb_ge in Hs; lia | apply Z.leb_gt in Hs; exact Hs]. }
      destruct (Tcount Hlimit (conj Hrange Hlt)) as [Hcount Hle].
      split; [exact Hcount | lia].
Qed.

(** Under a positive limit, fuzz never runs the user's function more often
    than the limit leaves room for: the runs of a call, warmup or not and
    deflaking included, number at most Limit less the counter the call
    starts with, and none at all when the counter has reached the limit;
    the counter ends as it started plus the runs. This holds for every
    outcome: a return, a crash, a fault, or a call still running. *)
Theorem fuzz_respects_limit (fuel : nat) (args : fuzzArgs) (ws : workerServer) :
  0 < FuzzArgs.Limit args < 2 ^ 63 ->
  - 2 ^ 63 <= count (header (mem ws)) ->
  exists evs,
    log (finalState (fuzz fuel args ws)) = log ws ++ evs
    /\ count (header (mem (finalState (fuzz fuel args ws))))
       = count (header (mem ws)) + Z.of_nat (runs evs)
    /\ Z.of_nat (runs evs) <= Z.max 0 (FuzzArgs.Limit args - count (header (mem ws))).
Proof.
  intros Hlimit Hrange. destruct (FuzzArgs.Warmup args) eqn:Hwarm.
  - destruct (prepared_frame args ws) as (Pl & Pc & _).
    destruct (fuzz_cases fuel args ws)
      as [(msg & ws' & -> & Hl & Hc) | (vs & Hfit & Hlim & Hdec & ->)].
    + exists []. cbn [finalState]. rewrite app_nil_r, Hc.
      split; [exact Hl |]. cbn. lia.
    + rewrite fuzzBody_final, Hwarm, fuzzWarmup_final.
      destruct (fuzzOnce_final vs (prepared args ws)) as (Hl & Hm & _).
      exists [Ran (entryOf vs)]. rewrite Hl, Hm, Pl, Pc. cbn [count header setCount].
      apply andb_false_iff in Hlim.
      assert (Hlt : count (header (mem ws)) < FuzzArgs.Limit args).
      { destruct Hlim as [Hs | Hs]; [apply Z.ltb_ge in Hs; lia | apply Z.leb_gt in Hs; exact Hs]. }
      rewrite incr64_small by lia. cbn. repeat split; lia.
  - destruct (fuzz_traced fuel args ws Hwarm) as (ds & vs0 & Hl & _ & _ & Hcount).
    cbv zeta in *. eexists. split; [exact Hl |]. apply Hcount; assumption.
Qed.

(** Without warmup, every round of fuzz mutates the values once and runs
    the result once, or twice when it is deflaked: in every outcome the
    runs of the call number at least its mutations and at most twice as
    many. With no coverage mask, neither passed in nor installed before,
    nothing is deflaked: there are as many runs as mutations. *)
Theorem fuzz_runs_each_mutation (fuel : nat) (args : fuzzArgs) (ws : workerServer) :
  FuzzArgs.Warmup args = false ->
  exists evs,
    log (finalState (fuzz fuel args ws)) = log ws ++ evs
    /\ (mutations evs <= runs evs <= 2 * mutations evs)%nat
    /\ (FuzzArgs.CoverageData args = None -> coverageMask ws = None ->
        runs evs = mutations evs).
Proof.
  intros Hwarm. destruct (fuzz_traced fuel args ws Hwarm) as (ds & vs0 & Hl & _ & Hplain & _).
  cbv zeta in *. eexists. split; [exact Hl |].
  destruct (rounds_counts (valueCap (mem ws)) ds vs0 (mutator ws)) as (Hm & Hr & Hp).
  rewrite Hm. split; [exact Hr |].
  intros Hdata Hmask. apply Hp. apply Hplain; assumption.
Qed.

(** ** Replaying the mutations *)

Lemma wrapS_small z : - 2 ^ 63 <= z < 2 ^ 63 -> GoInt.wrapS 64 z = z.
Proof.
  intros Hz. unfold GoInt.wrapS. replace (2 ^ (64 - 1)) with (2 ^ 63) by reflexivity.
  rewrite Z.mod_small; lia.
Qed.

Lemma withEnv_same ws : withEnv (env ws) ws = ws.
Proof. destruct ws. reflexivity. Qed.

(** The server after a fuzz call is the server after fuzz, but for what
    writing the response does to its surroundings. *)
Lemma handle_fuzz_final fuel args ws :
  exists w,
    finalState (handle fuel {| Ping := None; Fuzz := Some args; Minimize := None |} ws)
    = withEnv w (finalState (fuzz fuel args ws)).
Proof.
  unfold handle, dispatch. cbn [Fuzz]. unfold bind at 1. unfold bind at 1.
  destruct (fuzz fuel args ws) as [resp ws' | h ws'].
  - cbn [ret]. unfold bind, encode. destruct (pipeWrite (env ws')) as [[e |] w];
      exists w; reflexivity.
  - exists (env ws'). cbn [finalState]. rewrite withEnv_same. reflexivity.
Qed.

Lemma callLocked_fuzz_final fuel io args wc :
  (sendErr io <> None
   /\ callLocked fuel io {| Ping := None; Fuzz := Some args; Minimize := None |} wc
      = Ret (sendErr io, None) wc)
  \/ (exists w callErr r,
        callLocked fuel io {| Ping := None; Fuzz := Some args; Minimize := None |} wc
        = Ret (callErr, r)
            {| peer := withEnv w (finalState (fuzz fuel args (peer wc)));
               clientMutator := clientMutator wc |}).
Proof.
  unfold callLocked. destruct (sendErr io) as [e |].
  - left. split; [discriminate | reflexivity].
  - right. destruct (handle_fuzz_final fuel args (peer wc)) as [w Hw].
    destruct (handle fuel _ (peer wc)) as [[e | resp] ws | h ws]; cbn [finalState] in Hw;
      rewrite Hw; exists w; eexists; eexists; reflexivity.
Qed.

(** The Data of the entry workerClient.fuzz builds, without warmup. *)
Lemma fuzzReturn_data entryIn args inp callErr resp wc e resp' err wc' dataOut :
  FuzzArgs.Warmup args = false ->
  fuzzReturn entryIn args inp callErr resp wc = Ret (e, resp', err) wc' ->
  Data e = Some dataOut ->
  exists valuesOut,
    unmarshalCorpusFile inp = inr valuesOut
    /\ dataOut
       = marshalCorpusFile
           (fst (replay (Z.to_nat (count (header (mem (peer wc)))))
                   (valueCap (mem (peer wc))) valuesOut
                   (prngRestore (randState (header (mem (peer wc))))
                      (randInc (header (mem (peer wc)))) (clientMutator wc)))).
Proof.
  intros Hwarm. unfold fuzzReturn, bind, gets. cbv zeta. rewrite Hwarm.
  destruct (negb (bytesEqual inp (valueRef (mem (peer wc))))); [discriminate |].
  match goal with |- context [if ?b then _ else _] => destruct b end.
  - destruct (unmarshalCorpusFile inp) as [msg | valuesOut]; [discriminate |].
    destruct (replay _ _ valuesOut _) as [vs' r2] eqn:Hrep.
    unfold setClientMutator, modify, ret. intros H. injection H as <- _ _ _.
    cbn [Data]. intros [= <-]. exists valuesOut. split; [reflexivity |].
    rewrite Hrep. reflexivity.
  - unfold ret. intros H. injection H as <- _ _ _. discriminate.
Qed.

(** What workerClient.fuzz replays, and what the server ran last. *)
Lemma clientFuzz_replay fuel io entryIn args wc e resp err wc' :
  restoresSaved ->
  FuzzArgs.Warmup args = false ->
  closedAfter io = false ->
  clientFuzz fuel io entryIn args wc = Ret (e, resp, err) wc' ->
  exists evs,
    log (peer wc') = log (peer wc) ++ evs
    /\ (mutations evs <= runs evs)%nat
    /\ (FuzzArgs.CoverageData args = None -> coverageMask (peer wc) = None ->
        runs evs = mutations evs)
    /\ (Z.of_nat (runs evs) < 2 ^ 63 ->
        forall dataOut, Data e = Some dataOut ->
          exists inp vs0,
            CorpusEntryData entryIn = inr inp
            /\ unmarshalCorpusFile inp = inr vs0
            /\ dataOut
               = marshalCorpusFile
                   (fst (replay (runs evs) (valueCap (mem (peer wc))) vs0
                           (mutator (peer wc))))
            /\ match lastRun evs with
               | Some vs =>
                   vs = fst (replay (mutations evs) (valueCap (mem (peer wc))) vs0
                               (mutator (peer wc)))
               | None => True
               end).
Proof.
  intros Hlaw Hwarm Ha Hret. destruct (closedBefore io) eqn:Hb.
  { unfold clientFuzz in Hret. rewrite Hb in Hret. injection Hret as <- _ _ <-.
    exists []. rewrite app_nil_r. split; [reflexivity |]. split; [cbn; lia |].
    split; [reflexivity |]. intros _ dataOut [=]. }
  destruct (clientFuzz_steps _ _ _ _ _ _ _ _ _ Hb Ha Hret)
    as [(msg & _ & -> & _ & _ & Hlog & _)
       | (inp & wc1 & callErr & r & wc2 & Hinp & Hset & Hcall & Hfin)].
  { exists []. rewrite app_nil_r. split; [exact Hlog |]. split; [cbn; lia |].
    split; [reflexivity |]. intros _ dataOut [=]. }
  apply clientSetValue_ret in Hset.
  destruct Hset as (Hl1 & Hc1 & Hr1 & Hm1 & _ & Hv1 & Hcap1 & Hcm1).
  cbn [peer clientMutator log mem withMem mutator coverageMask count header setCount]
    in Hl1, Hc1, Hr1, Hm1, Hcm1.
  change (valueCap (mem (peer wc1)) = valueCap (mem (peer wc))) in Hcap1.
  destruct (fuzzReturn_count _ _ _ _ _ _ _ _ _ _ Hfin) as (_ & Hpeer & _).
  destruct (callLocked_fuzz_final fuel io args wc1) as [[_ Hsend] | (w & callErr' & r' & Hrun)];
    rewrite Hcall in *.
  - (* the call was not sent *)
    injection Hsend as _ _ <-.
    exists []. rewrite app_nil_r, Hpeer. split; [exact Hl1 |]. split; [cbn; lia |].
    split; [reflexivity |].
    intros _ dataOut Hd.
    destruct (fuzzReturn_data _ _ _ _ _ _ _ _ _ _ _ Hwarm Hfin Hd) as (valuesOut & Hdec & ->).
    rewrite Hc1. cbn [Z.to_nat replay fst lastRun runs filter List.length].
    exists inp, valuesOut. repeat split; assumption.
  - injection Hrun as _ _ ->.
    destruct (fuzz_traced fuel args (peer wc1) Hwarm) as (ds & vs0 & Tl & Tds & Tplain & _).
    cbv zeta in Tl.
    pose proof (counts_fuzz fuel args (peer wc1)) as (evs' & Cl & Cc).
    rewrite Tl in Cl. apply app_inv_head in Cl. subst evs'.
    rewrite Hc1 in Cc. rewrite iter_incr64 in Cc.
    rewrite Hcap1, Hr1 in *.
    destruct (rounds_counts (valueCap (mem (peer wc))) ds vs0 (mutator (peer wc)))
      as (Hmut & Hrange & Hruns).
    set (evs := fst (rounds (valueCap (mem (peer wc))) vs0 (mutator (peer wc)) ds)) in *.
    exists evs. rewrite Hpeer. cbn [peer log withEnv]. rewrite Tl, Hl1.
    split; [reflexivity |]. split; [lia |].
    split.
    { intros Hdata Hmask. rewrite Hmut. apply Hruns. apply Tplain; congruence. }
    intros Hfew dataOut Hd.
    destruct (fuzzReturn_data _ _ _ _ _ _ _ _ _ _ _ Hwarm Hfin Hd) as (valuesOut & Hdec & ->).
    cbn [peer clientMutator mem withEnv].
    rewrite Cc, wrapS_small by lia. rewrite Nat2Z.id.
    exists inp, valuesOut. split; [exact Hinp |]. split; [exact Hdec |].
    rewrite Hmut.
    pose proof (rounds_lastRun (valueCap (mem (peer wc))) ds vs0 (mutator (peer wc))) as Hlr.
    fold evs in Hlr. rewrite Hlr. clear Hlr.
    destruct ds as [| d tl].
    + split; [| exact I]. cbn [rounds fst runs filter List.length replay]. reflexivity.
    + destruct Tds as (_ & Tdec & Tmem & _); [discriminate |].
      unfold valueCopy in Tdec. rewrite Hv1, Hdec in Tdec. injection Tdec as <-.
      rewrite rounds_replay. split; [| reflexivity].
      rewrite Tmem.
      destruct (prepared_frame args (peer wc1)) as (_ & _ & _ & Pcap & _ & _ & Ps & Pi & _).
      cbn [randState randInc header setCount].
      change (valueCap (setCount (count (header (mem (finalState (fuzz fuel args (peer wc1))))))
                          (mem (prepared args (peer wc1)))))
        with (valueCap (mem (prepared args (peer wc1)))).
      rewrite Ps, Pi, Pcap, Hcap1, Hr1, Hlaw. reflexivity.
Qed.

(** Without warmup, the entry workerClient.fuzz returns holds the input
    mutated as many times as the user's function was run in the call,
    resp.Count times, from the PRNG state the server started with; the
    values the server ran last are the input mutated as many times as the
    server mutated it. The runs are never fewer than the mutations, and
    each deflaked round adds a run without a mutation. This rests on the
    PRNG restoring what it saved, and on fewer than 2^63 runs. *)
Theorem replay_follows_the_count (fuel : nat) (io : surroundings)
    (entryIn : CorpusEntry) (args : fuzzArgs) (wc : workerClient)
    (e : CorpusEntry) (resp : fuzzResponse) (err : option error) (wc' : workerClient) :
  restoresSaved ->
  FuzzArgs.Warmup args = false ->
  closedAfter io = false ->
  clientFuzz fuel io entryIn args wc = Ret (e, resp, err) wc' ->
  exists evs,
    log (peer wc') = log (peer wc) ++ evs
    /\ (mutations evs <= runs evs)%nat
    /\ (Z.of_nat (runs evs) < 2 ^ 63 ->
        forall dataOut, Data e = Some dataOut ->
          exists inp vs0,
            CorpusEntryData entryIn = inr inp
            /\ unmarshalCorpusFile inp = inr vs0
            /\ dataOut
               = marshalCorpusFile
                   (fst (replay (runs evs) (valueCap (mem (peer wc))) vs0
                           (mutator (peer wc))))
            /\ match lastRun evs with
               | Some vs =>
                   vs = fst (replay (mutations evs) (valueCap (mem (peer wc))) vs0
                               (mutator (peer wc)))
               | None => True
               end).
Proof.
  intros Hlaw Hwarm Ha Hret.
  destruct (clientFuzz_replay _ _ _ _ _ _ _ _ _ Hlaw Hwarm Ha Hret)
    as (evs & Hl & Hle & _ & Hrep).
  exists evs. split; [exact Hl |]. split; [exact Hle | exact Hrep].
Qed.

(** With no coverage mask and no warmup, the entry workerClient.fuzz
    returns holds the values of the last run of the user's function in the
    call, the run that failed or took the process down: replaying count
    mutations from the PRNG state the server saved gives the values the
    server had when it stopped. When nothing was run, the entry holds the
    input as it was. This rests on the PRNG restoring what it saved, and
    on fewer than 2^63 runs. *)
Theorem replay_rebuilds_the_values_run (fuel : nat) (io : surroundings)
    (entryIn : CorpusEntry) (args : fuzzArgs) (wc : workerClient)
    (e : CorpusEntry) (resp : fuzzResponse) (err : option error) (wc' : workerClient) :
  restoresSaved ->
  FuzzArgs.Warmup args = false ->
  FuzzArgs.CoverageData args = None ->
  coverageMask (peer wc) = None ->
  closedAfter io = false ->
  clientFuzz fuel io entryIn args wc = Ret (e, resp, err) wc' ->
  exists evs,
    log (peer wc') = log (peer wc) ++ evs
    /\ (Z.of_nat (runs evs) < 2 ^ 63 ->
        forall dataOut, Data e = Some dataOut ->
          match lastRun evs with
          | Some vs => dataOut = marshalCorpusFile vs
          | None =>
              exists inp vs0,
                CorpusEntryData entryIn = inr inp
                /\ unmarshalCorpusFile inp = inr vs0
                /\ dataOut = marshalCorpusFile vs0
          end).
Proof.
  intros Hlaw Hwarm Hdata Hmask Ha Hret.
  destruct (clientFuzz_replay _ _ _ _ _ _ _ _ _ Hlaw Hwarm Ha Hret)
    as (evs & Hl & _ & Heq & Hrep).
  exists evs. split; [exact Hl |].
  intros Hfew dataOut Hd.
  destruct (Hrep Hfew dataOut Hd) as (inp & vs0 & Hinp & Hdec & -> & Hlast).
  specialize (Heq Hdata Hmask).
  destruct (lastRun evs) as [vs |] eqn:Hlr.
  - rewrite Hlast, Heq. reflexivity.
  - exists inp, vs0. split; [exact Hinp |]. split; [exact Hdec |].
    assert (Hz : runs evs = 0%nat).
    { clear - Hlr. induction evs as [| ev tl IH]; [reflexivity |].
      cbn [lastRun] in Hlr. destruct (lastRun tl); [discriminate |].
      destruct ev; [discriminate |]. apply IH. reflexivity. }
    rewrite Hz. reflexivity.
Qed.


(** ** What a successful minimization leaves *)

Lemma maintains_ret {S A} (P : S -> Prop) (a : A) : maintains P (ret a).
Proof. intros s H. exact H. Qed.

Lemma maintains_bind {S A B} (P : S -> Prop) (c : M S A) (k : A -> M S B) :
  maintains P c -> (forall a, maintains P (k a)) -> maintains P (bind c k).
Proof.
  intros Hc Hk s H. unfold bind. specialize (Hc s H).
  destruct (c s) as [a s' | h s']; [apply Hk; exact Hc | exact I].
Qed.

Lemma maintains_runShrinker {S Cand} (P : S -> Prop) (sh : shrinker Cand)
    (try : Cand -> M S bool) (stop : M S bool) :
  (forall c, maintains P (try c)) -> maintains P stop ->
  maintains P (runShrinker sh try stop).
Proof.
  intros Ht Hs. induction sh as [| k IH | c k IH]; cbn [runShrinker].
  - apply maintains_ret.
  - apply maintains_bind; [exact Hs | exact IH].
  - apply maintains_bind; [apply Ht | exact IH].
Qed.

Lemma castCandidate_kind candidate prev v :
  castCandidate candidate prev = Some v -> kindOf v = kindOf prev.
Proof. destruct candidate, prev; cbn; intros [= <-]; reflexivity. Qed.

Lemma maintains_shouldStop keep ks limit wantError :
  maintains (shrunk keep ks) (shouldStop limit wantError).
Proof. intros st H. rewrite shouldStop_run. exact H. Qed.

Lemma maintains_tryMinimized keep ks valI candidate :
  maintains (shrunk keep ks) (tryMinimized keep valI candidate).
Proof.
  intros st [Hks Hint].
  destruct (nth_error (vals st) valI) as [prev |] eqn:Hprev;
    [| unfold tryMinimized, bind, gets; rewrite Hprev; exact I].
  destruct (castCandidate candidate prev) as [v |] eqn:Hcast;
    [| unfold tryMinimized, bind, gets; rewrite Hprev, Hcast; exact I].
  rewrite (tryMinimized_run keep valI candidate st prev v Hprev Hcast). cbv zeta.
  assert (Hkinds : map kindOf (setNth valI v (vals st)) = ks).
  { rewrite (setNth_kinds _ _ _ _ Hprev (castCandidate_kind _ _ _ Hcast)). exact Hks. }
  destruct (fuzzFn (entryOf (setNth valI v (vals st))) (env (srv st))) as [[| e |] w] eqn:Hrun.
  - destruct keep as [k |].
    + destruct (hasCoverageBit k (coverageSnapshot w)) eqn:Hbit.
      * split; [exact Hkinds |]. cbn. intros _. exists (env (srv st)), w. split; assumption.
      * split; [exact Hks | exact Hint].
    + split; [exact Hks | exact Hint].
  - split; [exact Hkinds |]. destruct keep as [k |]; cbn.
    + discriminate.
    + exists e, (env (srv st)), w. split; [reflexivity | exact Hrun].
  - exact I.
Qed.

Lemma maintains_shrinkValue keep ks limit valI v :
  maintains (shrunk keep ks) (shrinkValue limit keep valI v).
Proof.
  assert (Hrun : forall Cand (sh : shrinker Cand) (inj : Cand -> value),
            maintains (shrunk keep ks)
              (runShrinker sh (fun c => tryMinimized keep valI (inj c))
                 (shouldStop limit (isNil keep)))).
  { intros Cand sh inj. apply maintains_runShrinker.
    - intros c. apply maintains_tryMinimized.
    - apply maintains_shouldStop. }
  unfold shrinkValue. cbv zeta.
  destruct v; try apply maintains_ret; try apply Hrun.
  - destruct (negb _); [apply maintains_ret |].
    apply (Hrun Z _ (fun c => VUint (GoInt.wrapU uintSize c))).
  - destruct (negb _); [apply maintains_ret |].
    apply (Hrun Z _ (fun c => VUint (GoInt.wrapU uintSize c))).
Qed.

Lemma maintains_shrinkLoop keep ks limit n : forall valI,
  maintains (shrunk keep ks) (shrinkLoop limit keep n valI).
Proof.
  induction n as [| n IH]; intros valI; cbn [shrinkLoop].
  - apply maintains_ret.
  - apply maintains_bind; [apply maintains_shouldStop | intros stop].
    destruct stop; [apply maintains_ret |].
    apply maintains_bind; [intros st H; exact H | intros vs].
    destruct (nth_error vs valI); [| intros st H; exact I].
    apply maintains_bind; [apply maintains_shrinkValue | intros _; apply IH].
Qed.

(** minimizeInput returns success only with interesting values of the
    types it was given, and then the error it returns is the one in hand. *)
Lemma minimizeInput_success limit keep st e st' :
  retErr st = None ->
  minimizeInput limit keep st = Ret (true, e) st' ->
  shrunk keep (map kindOf (vals st)) st' /\ retErr st' = e.
Proof.
  intros Hnil Hret. unfold minimizeInput in Hret. cbv zeta in Hret.
  unfold bind at 1 in Hret. rewrite shouldStop_run in Hret.
  match type of Hret with
  | context [shouldStopWhen ?a ?b ?c ?d ?f] => destruct (shouldStopWhen a b c d f)
  end; [discriminate |].
  unfold bind at 1 in Hret. unfold onServer at 1, zoom, incrCount, modify in Hret.
  cbn [srv vals retErr] in Hret.
  unfold bind at 1, gets at 1 in Hret. cbn [vals] in Hret.
  unfold bind at 1 in Hret. unfold onServer at 1, zoom, callFuzzFn in Hret.
  cbn [srv vals retErr env withMem withEnv] in Hret.
  destruct (fuzzFn (entryOf (vals st)) (snd (ctxErr (env (srv st))))) as [[| e0 |] w] eqn:Hrun;
    [| | discriminate].
  - (* the first run passes *)
    unfold bind at 1, setRetErr, modify in Hret. cbn [srv vals retErr] in Hret.
    unfold bind at 1, gets at 1 in Hret. cbn [isNil andb negb] in Hret.
    destruct keep as [k |]; cbn [isNil] in Hret; [| discriminate].
    cbn [srv env logged withEnv] in Hret.
    destruct (hasCoverageBit k (coverageSnapshot w)) eqn:Hbit; cbn [negb] in Hret;
      [| discriminate].
    unfold bind at 1 in Hret.
    match type of Hret with
    | context [shrinkLoop ?l ?kp ?n ?i ?s] =>
        pose proof (maintains_shrinkLoop kp (map kindOf (vals st)) l n i s) as Hloop;
        destruct (shrinkLoop l kp n i s) as [[] st1 | h st1]; [| discriminate]
    end.
    unfold bind, gets, ret in Hret. injection Hret as _ <- <-.
    split; [| reflexivity]. apply Hloop. split; [reflexivity |].
    cbn. intros _. eexists. exists w. split; [exact Hrun | exact Hbit].
  - (* the first run fails *)
    unfold bind at 1, setRetErr, modify in Hret. cbn [srv vals retErr] in Hret.
    unfold bind at 1, gets at 1 in Hret. cbn [isNil andb negb] in Hret.
    destruct keep as [k |]; cbn [isNil negb] in Hret; [discriminate |].
    unfold bind at 1 in Hret.
    match type of Hret with
    | context [shrinkLoop ?l ?kp ?n ?i ?s] =>
        pose proof (maintains_shrinkLoop kp (map kindOf (vals st)) l n i s) as Hloop;
        destruct (shrinkLoop l kp n i s) as [[] st1 | h st1]; [| discriminate]
    end.
    unfold bind, gets, ret in Hret. cbn [orb] in Hret. injection Hret as <- <-.
    split; [| reflexivity]. apply Hloop. split; [reflexivity |].
    cbn. exists e0. eexists. exists w. split; [reflexivity | exact Hrun].
Qed.

(** When the minimize call answers Success, the shared memory holds
    values of the same number and dynamic types as the input, on which the
    user's function has been seen to do what the call was to keep: in crash
    mode a run on them failed with the error text in Err; in coverage mode
    a run on them passed and set one of the bits of KeepCoverage, and Err
    is empty. *)
Theorem minimize_success_is_interesting (args : minimizeArgs) (ws : workerServer)
    (resp : minimizeResponse) (ws' : workerServer) :
  minimize args ws = Ret resp ws' ->
  MinimizeResponse.Success resp = true ->
  exists vs0 vs,
    unmarshalCorpusFile (valueCopy (mem ws)) = inr vs0
    /\ valueRef (mem ws') = marshalCorpusFile vs
    /\ map kindOf vs = map kindOf vs0
    /\ match MinimizeArgs.KeepCoverage args with
       | None =>
           exists w w', fuzzFn (entryOf vs) w = (Fail (MinimizeResponse.Err resp), w')
       | Some k =>
           MinimizeResponse.Err resp = ""
           /\ exists w w', fuzzFn (entryOf vs) w = (Pass, w')
                           /\ hasCoverageBit k (coverageSnapshot w') = true
       end.
Proof.
  intros Hret Hok. unfold minimize in Hret.
  unfold bind at 1, gets at 1 in Hret. unfold bind at 1, gets at 1 in Hret.
  destruct (unmarshalCorpusFile (valueCopy (mem ws))) as [msg | vs0] eqn:Hdec; [discriminate |].
  unfold bind at 1 in Hret. rewrite applyTimeout_run in Hret.
  unfold bind at 1 in Hret. unfold callMinimizeInput in Hret.
  destruct (minimizeInput (MinimizeArgs.Limit args) (MinimizeArgs.KeepCoverage args)
              {| srv := afterTimeout (MinimizeArgs.Timeout args) ws;
                 vals := vs0; retErr := None |}) as [[success e] st' | h st'] eqn:Hmin;
    [| discriminate].
  destruct success.
  2:{ exfalso. unfold bind at 1 in Hret. cbn [ret] in Hret.
      unfold bind, gets, ret in Hret. injection Hret as <- _.
      destruct e; cbn in Hok; discriminate. }
  destruct (minimizeInput_success _ _
              {| srv := afterTimeout (MinimizeArgs.Timeout args) ws;
                 vals := vs0; retErr := None |} _ _ eq_refl Hmin) as [[Hkinds Hint] Herr].
  cbn [vals] in Hkinds.
  unfold bind at 1 in Hret. unfold writeToMem in Hret.
  destruct (setValue (marshalCorpusFile (vals st')) (mem (srv st'))) as [m' |] eqn:Hset;
    [| discriminate].
  unfold bind, gets, ret in Hret. injection Hret as <- <-.
  exists vs0, (vals st'). split; [reflexivity |].
  split; [apply (setValue_valueRef _ _ _ Hset) |]. split; [exact Hkinds |].
  unfold interesting in Hint. rewrite Herr in Hint.
  destruct (MinimizeArgs.KeepCoverage args) as [k |].
  - destruct e as [e |].
    + exfalso. (* coverage mode returns success only without an error *)
      revert Hmin. unfold minimizeInput. cbv zeta. cbn [isNil].
      unfold bind at 1. rewrite shouldStop_run.
      match goal with
      | |- context [shouldStopWhen ?a ?b ?c ?d ?f] => destruct (shouldStopWhen a b c d f)
      end; [discriminate |].
      unfold bind at 1. unfold onServer at 1, zoom, incrCount, modify.
      unfold bind at 1, gets at 1. unfold bind at 1. unfold onServer at 1, zoom, callFuzzFn.
      cbn [srv vals retErr env withMem withEnv].
      destruct (fuzzFn _ _) as [[| e0 |] w]; [| discriminate | discriminate].
      unfold bind at 1, setRetErr, modify. unfold bind at 1, gets at 1.
      cbn [isNil andb negb srv env logged withEnv].
      destruct (hasCoverageBit k (coverageSnapshot w)); cbn [negb]; [| discriminate].
      unfold bind at 1.
      match goal with
      | |- context [shrinkLoop ?l ?kp ?n ?i ?s] =>
          destruct (shrinkLoop l kp n i s) as [[] st1 | h st1]; [| discriminate]
      end.
      unfold bind, gets, ret. intros H. injection H as H1 H2 _.
      rewrite H2 in H1. discriminate.
    + cbn. split; [reflexivity |]. apply Hint. reflexivity.
  - destruct Hint as (e1 & w & w' & He & Hrun). subst e. cbn. exists w, w'. exact Hrun.
Qed.


(** The main loop stops short only when the user's function takes the
    process down or the observation ends. *)
Lemma fuzzLoop_outcome fuel limit : forall vs resp ws,
  match fuzzLoop fuel limit vs resp ws with
  | Ret _ _ => True
  | Abort h _ => h = Crash \/ h = Fuel
  end.
Proof.
  induction fuel as [| fuel IH]; intros vs resp ws; cbn [fuzzLoop]; [right; reflexivity |].
  unfold bind at 1. rewrite ctxCancelled_run.
  destruct (fst (ctxErr (env ws))); [exact I |].
  unfold bind at 1. rewrite mutateVals_run.
  set (ws1 := logged _ _). set (vs' := fst (mutate vs _ _)).
  assert (Hnext : forall wsn,
            match bind (fuzzShouldStop limit) (fun stop =>
                    if stop then ret resp else fuzzLoop fuel limit vs' resp) wsn with
            | Ret _ _ => True
            | Abort h _ => h = Crash \/ h = Fuel
            end).
  { intros wsn. unfold bind. rewrite fuzzShouldStop_run.
    destruct ((0 <? limit) && (limit <=? count (header (mem wsn)))); [exact I | apply IH]. }
  unfold bind at 1. pose proof (fuzzOnce_outcome vs' ws1) as O1.
  destruct (fuzzOnce vs' ws1) as [[[dur cov] errMsg] ws2 | h ws2]; [| left; exact O1].
  destruct (negb (String.eqb errMsg "")); [exact I |].
  destruct cov as [c |]; [| apply Hnext].
  unfold bind at 1. rewrite fuzzShouldStop_run.
  destruct ((0 <? limit) && (limit <=? count (header (mem ws2)))); cbn [negb].
  { unfold bind at 1. cbn [ret andb]. exact I. }
  unfold bind at 1. pose proof (fuzzOnce_outcome vs' ws2) as O2.
  destruct (fuzzOnce vs' ws2) as [[[dur2 cov2] errMsg2] ws3 | h ws3]; [| left; exact O2].
  cbn [andb]. destruct (negb (String.eqb errMsg2 "")); [exact I |].
  destruct cov2 as [c2 |]; [exact I | apply Hnext].
Qed.

(** ** The limit as a bound on the rounds *)

Lemma fuzzLoop_not_fuel limit resp : forall fuel vs ws ws',
  0 < limit < 2 ^ 63 ->
  - 2 ^ 63 <= count (header (mem ws)) < limit ->
  limit - count (header (mem ws)) <= Z.of_nat fuel ->
  fuzzLoop fuel limit vs resp ws <> Abort Fuel ws'.
Proof.
  induction fuel as [| fuel IH]; intros vs ws ws' Hlimit Hrange Hfuel; [cbn in Hfuel; lia |].
  cbn [fuzzLoop]. unfold bind at 1. rewrite ctxCancelled_run.
  destruct (fst (ctxErr (env ws))); [discriminate |].
  unfold bind at 1. rewrite mutateVals_run.
  set (ws1 := logged _ _).
  assert (Hc1 : count (header (mem ws1)) = count (header (mem ws))) by reflexivity.
  set (vs' := fst (mutate vs _ _)).
  pose proof (fuzzOnce_final vs' ws1) as F1. cbv zeta in F1.
  pose proof (fuzzOnce_outcome vs' ws1) as O1.
  (* going round again, from a state within the limit *)
  assert (Hnext : forall wsn,
            count (header (mem ws)) + 1 <= count (header (mem wsn)) < 2 ^ 63 ->
            bind (fuzzShouldStop limit) (fun stop =>
              if stop then ret resp else fuzzLoop fuel limit vs' resp) wsn
            <> Abort Fuel ws').
  { intros wsn Hn. unfold bind. rewrite fuzzShouldStop_run.
    destruct ((0 <? limit) && (limit <=? count (header (mem wsn)))) eqn:Hstop; [discriminate |].
    apply andb_false_iff in Hstop.
    assert (count (header (mem wsn)) < limit).
    { destruct Hstop as [Hs | Hs]; [apply Z.ltb_ge in Hs; lia | apply Z.leb_gt in Hs; exact Hs]. }
    apply IH; [exact Hlimit | lia | lia]. }
  unfold bind at 1.
  destruct (fuzzOnce vs' ws1) as [[[dur cov] errMsg] ws2 | h ws2]; cbn [finalState] in F1;
    [| rewrite O1; discriminate].
  destruct F1 as (_ & Hm2 & _).
  assert (Hc2 : count (header (mem ws2)) = count (header (mem ws)) + 1).
  { rewrite Hm2. cbn [count header setCount]. rewrite Hc1, incr64_small by lia. reflexivity. }
  destruct (negb (String.eqb errMsg "")); [discriminate |].
  destruct cov as [c |]; [| apply Hnext; lia].
  unfold bind at 1. rewrite fuzzShouldStop_run.
  destruct ((0 <? limit) && (limit <=? count (header (mem ws2)))) eqn:Hstop; cbn [negb].
  { unfold bind at 1. cbn [ret andb]. discriminate. }
  apply andb_false_iff in Hstop.
  assert (Hlt2 : count (header (mem ws2)) < limit).
  { destruct Hstop as [Hs | Hs]; [apply Z.ltb_ge in Hs; lia | apply Z.leb_gt in Hs; exact Hs]. }
  pose proof (fuzzOnce_final vs' ws2) as F2. cbv zeta in F2.
  pose proof (fuzzOnce_outcome vs' ws2) as O2.
  unfold bind at 1.
  destruct (fuzzOnce vs' ws2) as [[[dur2 cov2] errMsg2] ws3 | h ws3]; cbn [finalState] in F2;
    [| rewrite O2; discriminate].
  destruct F2 as (_ & Hm3 & _).
  assert (Hc3 : count (header (mem ws3)) = count (header (mem ws)) + 2).
  { rewrite Hm3. cbn [count header setCount]. rewrite incr64_small by lia. lia. }
  cbn [andb]. destruct (negb (String.eqb errMsg2 "")); [discriminate |].
  destruct cov2 as [c2 |]; [discriminate |].
  apply Hnext. lia.
Qed.

(** Under a positive limit fuzz comes to an end: observed for as many
    rounds as the limit leaves room for, Limit less the counter at the
    start, the call is not still running. It has returned, or the user's
    function has taken the process down, or one of its checks has
    faulted. *)
Theorem fuzz_ends_within_limit (fuel : nat) (args : fuzzArgs) (ws : workerServer) :
  0 < FuzzArgs.Limit args < 2 ^ 63 ->
  - 2 ^ 63 <= count (header (mem ws)) ->
  FuzzArgs.Limit args - count (header (mem ws)) <= Z.of_nat fuel ->
  match fuzz fuel args ws with
  | Ret _ _ => True
  | Abort h _ => h = Crash \/ exists msg, h = Panic msg
  end.
Proof.
  intros Hlimit Hrange Hfuel.
  destruct (prepared_frame args ws) as (_ & Pc & _).
  destruct (fuzz_cases fuel args ws)
    as [(msg & ws' & -> & _) | (vs & _ & Hlim & _ & ->)].
  { right. exists msg. reflexivity. }
  apply andb_false_iff in Hlim.
  assert (Hlt : count (header (mem ws)) < FuzzArgs.Limit args).
  { destruct Hlim as [Hs | Hs]; [apply Z.ltb_ge in Hs; lia | apply Z.leb_gt in Hs; exact Hs]. }
  unfold fuzzBody. unfold bind at 1.
  destruct (FuzzArgs.Warmup args).
  - unfold fuzzWarmup. unfold bind at 1.
    pose proof (fuzzOnce_outcome vs (prepared args ws)) as O.
    destruct (fuzzOnce vs (prepared args ws)) as [[[dur cov] errMsg] ws1 | h ws1];
      [| left; exact O].
    destruct (negb (String.eqb errMsg "")); [exact I |].
    destruct coverageEnabled; exact I.
  - pose proof (fuzzLoop_not_fuel (FuzzArgs.Limit args) FuzzResponse.zero fuel vs
                  (prepared args ws)) as Hn.
    pose proof (fuzzLoop_outcome fuel (FuzzArgs.Limit args) vs FuzzResponse.zero
                  (prepared args ws)) as Ho.
    destruct (fuzzLoop fuel (FuzzArgs.Limit args) vs FuzzResponse.zero (prepared args ws))
      as [resp ws1 | h ws1]; [exact I |].
    destruct Ho as [-> | ->]; [left; reflexivity |].
    exfalso. apply (Hn ws1); [exact Hlimit | rewrite Pc; lia | rewrite Pc; exact Hfuel |].
    reflexivity.
Qed.

(** ** ping *)



(** ** The types of the values under minimization *)

Lemma keeps_kinds_onServer {A} (c : M workerServer A) : keeps kindsOf (onServer c).
Proof. intros st. unfold onServer, zoom. destruct (c (srv st)); reflexivity. Qed.

Lemma keeps_kinds_setRetErr e : keeps kindsOf (setRetErr e).
Proof. intros st. reflexivity. Qed.

Lemma keeps_kinds_shouldStop limit wantError : keeps kindsOf (shouldStop limit wantError).
Proof. intros st. rewrite shouldStop_run. reflexivity. Qed.

Lemma keeps_kinds_tryMinimized keep valI candidate :
  keeps kindsOf (tryMinimized keep valI candidate).
Proof.
  intros st.
  destruct (nth_error (vals st) valI) as [prev |] eqn:Hprev;
    [| unfold tryMinimized, bind, gets; rewrite Hprev; reflexivity].
  destruct (castCandidate candidate prev) as [v |] eqn:Hcast;
    [| unfold tryMinimized, bind, gets; rewrite Hprev, Hcast; reflexivity].
  rewrite (tryMinimized_run keep valI candidate st prev v Hprev Hcast). cbv zeta.
  pose proof (setNth_kinds _ _ _ _ Hprev (castCandidate_kind _ _ _ Hcast)) as Hk.
  destruct (fuzzFn (entryOf (setNth valI v (vals st))) (env (srv st))) as [[| e |] w];
    try exact Hk.
  destruct keep as [k |]; [destruct (hasCoverageBit k (coverageSnapshot w)) |];
    first [exact Hk | reflexivity].
Qed.

Lemma keeps_kinds_shrinkValue limit keep valI v :
  keeps kindsOf (shrinkValue limit keep valI v).
Proof.
  assert (Hrun : forall Cand (sh : shrinker Cand) (inj : Cand -> value),
            keeps kindsOf
              (runShrinker sh (fun c => tryMinimized keep valI (inj c))
                 (shouldStop limit (isNil keep)))).
  { intros Cand sh inj. apply keeps_runShrinker.
    - intros c. apply keeps_kinds_tryMinimized.
    - apply keeps_kinds_shouldStop. }
  unfold shrinkValue. cbv zeta.
  destruct v; try apply keeps_ret; try apply Hrun.
  - destruct (negb _); [apply keeps_ret |].
    apply (Hrun Z _ (fun c => VUint (GoInt.wrapU uintSize c))).
  - destruct (negb _); [apply keeps_ret |].
    apply (Hrun Z _ (fun c => VUint (GoInt.wrapU uintSize c))).
Qed.

Lemma keeps_kinds_shrinkLoop limit keep n : forall valI,
  keeps kindsOf (shrinkLoop limit keep n valI).
Proof.
  induction n as [| n IH]; intros valI; cbn [shrinkLoop].
  - apply keeps_ret.
  - apply keeps_bind; [apply keeps_kinds_shouldStop | intros stop].
    destruct stop; [apply keeps_ret |].
    apply keeps_bind; [apply keeps_gets | intros vs].
    destruct (nth_error vs valI); [| apply keeps_panic].
    apply keeps_bind; [apply keeps_kinds_shrinkValue | intros _; apply IH].
Qed.

(** minimizeInput never changes the number of the values nor the dynamic
    type of any of them, whatever the shrinkers propose and whatever its
    outcome: a return, a crash of the user's function, or a fault. *)
Theorem minimize_keeps_the_types (limit : Z) (keep : option bytes) (st : minimizing) :
  map kindOf (vals (finalState (minimizeInput limit keep st))) = map kindOf (vals st)
  /\ List.length (vals (finalState (minimizeInput limit keep st))) = List.length (vals st).
Proof.
  assert (Hk : keeps kindsOf (minimizeInput limit keep)).
  { unfold minimizeInput. cbv zeta.
    apply keeps_bind; [apply keeps_kinds_shouldStop | intros stop].
    destruct stop; [apply keeps_ret |].
    apply keeps_bind; [apply keeps_kinds_onServer | intros _].
    apply keeps_bind; [apply keeps_gets | intros vs].
    apply keeps_bind; [apply keeps_kinds_onServer | intros err].
    apply keeps_bind; [apply keeps_kinds_setRetErr | intros _].
    apply keeps_bind; [apply keeps_gets | intros snapshot].
    destruct (isNil err && isNil keep); [apply keeps_ret |].
    destruct (negb (isNil err) && negb (isNil keep)); [apply keeps_ret |].
    match goal with |- keeps _ (if ?b then _ else _) => destruct b end; [apply keeps_ret |].
    apply keeps_bind; [apply keeps_kinds_shrinkLoop | intros _].
    apply keeps_bind; [apply keeps_gets | intros e]. apply keeps_ret. }
  specialize (Hk st). unfold kindsOf in Hk. split; [exact Hk |].
  rewrite <- (length_map kindOf), Hk, length_map. reflexivity.
Qed.

(** ** What workerClient.minimize returns without success *)

Lemma minimize_unsuccessful_payload args ws resp ws' :
  minimize args ws = Ret resp ws' ->
  MinimizeResponse.Success resp = false ->
  payload (mem ws') = payload (mem ws).
Proof.
  intros Hret Hno. unfold minimize in Hret.
  unfold bind at 1, gets at 1 in Hret. unfold bind at 1, gets at 1 in Hret.
  destruct (unmarshalCorpusFile (valueCopy (mem ws))) as [msg | vs0]; [discriminate |].
  unfold bind at 1 in Hret. rewrite applyTimeout_run in Hret.
  unfold bind at 1 in Hret.
  pose proof (keeps_callMinimizeInput vs0 (MinimizeArgs.Limit args)
                (MinimizeArgs.KeepCoverage args)
                (afterTimeout (MinimizeArgs.Timeout args) ws)) as Hk.
  destruct (callMinimizeInput vs0 _ _ _) as [[[success e] vs'] ws1 | h ws1]; [| discriminate].
  cbn [finalState] in Hk. unfold serverPayload in Hk. rewrite afterTimeout_mem in Hk.
  destruct success.
  - exfalso. unfold bind at 1 in Hret.
    destruct (writeToMem vs' ws1) as [[] ws2 | h ws2]; [| discriminate].
    unfold bind, gets, ret in Hret. injection Hret as <- _.
    destruct e; cbn in Hno; discriminate.
  - unfold bind, gets, ret in Hret. injection Hret as _ <-. exact Hk.
Qed.

(** When workerClient.minimize returns a response that is not a success,
    the entry it returns is the input entry itself, untouched; and if the
    call returned no error either, the shared memory still holds the
    input's data. (The memory being closed, or the entry's data unreadable,
    it returns at once with the zero entry.) *)
Theorem minimize_failure_returns_the_input (fuel : nat) (io : surroundings)
    (entryIn : CorpusEntry) (args : minimizeArgs) (wc : workerClient)
    (e : CorpusEntry) (resp : minimizeResponse) (err : option error)
    (wc' : workerClient) (inp : bytes) :
  closedBefore io = false ->
  closedAfter io = false ->
  CorpusEntryData entryIn = inr inp ->
  clientMinimize fuel io entryIn args wc = Ret (e, resp, err) wc' ->
  MinimizeResponse.Success resp = false ->
  e = entryIn /\ (err = None -> valueRef (mem (peer wc')) = inp).
Proof.
  intros Hb Ha Hinp Hret Hno.
  unfold clientMinimize in Hret. rewrite Hb, Hinp in Hret.
  unfold bind at 1 in Hret. unfold onPeer at 1, zoom, modify in Hret.
  unfold bind at 1 in Hret.
  destruct (clientSetValue inp _) as [[] wc1 | h wc1] eqn:Hset; [| discriminate].
  apply clientSetValue_ret in Hset. destruct Hset as (_ & _ & _ & _ & _ & Hv1 & _).
  unfold bind at 1 in Hret.
  destruct (callLocked fuel io _ wc1) as [[callErr r] wc2 | h wc2] eqn:Hcall; [| discriminate].
  rewrite Ha in Hret. unfold bind, gets in Hret. cbv zeta in Hret.
  match type of Hret with context [if ?b then _ else _] => destruct b eqn:Hok end.
  { exfalso.
    destruct (unmarshalCorpusFile (valueCopy (mem (peer wc2)))); [discriminate |].
    unfold ret in Hret. injection Hret as _ <- _ _. rewrite Hok in Hno. discriminate. }
  unfold ret in Hret. injection Hret as <- <- <- <-. split; [reflexivity |].
  intros ->. unfold callLocked in Hcall.
  destruct (sendErr io); [discriminate |].
  unfold handle, dispatch in Hcall. cbn [Fuzz Minimize] in Hcall.
  unfold bind at 1 in Hcall. unfold bind at 1 in Hcall.
  destruct (minimize args (peer wc1)) as [x ws1 | h ws1] eqn:Hmin; [| discriminate].
  cbn [ret] in Hcall. unfold bind, encode in Hcall.
  destruct (pipeWrite (env ws1)) as [[werr |] w]; [discriminate |].
  unfold ret in Hcall. injection Hcall as <- <-.
  cbn [peer mem withEnv].
  cbn [MinimizeResponse.Success MinimizeResponse.withCount] in Hok.
  rewrite <- Hv1. apply valueRef_payload.
  apply (minimize_unsuccessful_payload _ _ _ _ Hmin Hok).
Qed.

(** ** serve and the order of its responses *)



End ServerFacts.

(** ** The supervisor *)

Lemma held_app d ops ops' : held d (ops ++ ops') = held d ops + held d ops'.
Proof. induction ops as [| op tl IH]; cbn [app held]; [reflexivity | rewrite IH; lia]. Qed.

Lemma Close_run c ops :
  Close c ops
  = Ret (firstError c)
        (ops ++ [Closed FuzzInW]
             ++ (if isNil (inErr c) then [Drained FuzzOutR] else [])
             ++ [Closed FuzzOutR]).
Proof.
  unfold Close, firstError, bind, fileOperation, modify, ret.
  destruct (inErr c), (drainErr c); cbn [isNil app]; rewrite <- ?app_assoc; reflexivity.
Qed.

Lemma Close_held c ops d :
  held d (finalState (Close c ops))
  = held d ops - match d with FuzzInW | FuzzOutR => 1 | _ => 0 end.
Proof.
  rewrite Close_run. cbn [finalState]. rewrite held_app.
  destruct (inErr c), d; cbn; lia.
Qed.


Lemma idle_spec w :
  idle w = true
  <-> Worker.cmd w = false /\ Worker.client w = false
      /\ forall d, held d (Worker.files w) = 0.
Proof.
  unfold idle, fds. cbn [forallb]. rewrite !andb_true_iff, !negb_true_iff, !Z.eqb_eq.
  split.
  - intros [[Hc Hl] (H1 & H2 & H3 & H4 & _)]. repeat split; try assumption.
    intros []; assumption.
  - intros (Hc & Hl & Hd). repeat split; try assumption; apply Hd.
Qed.

Lemma running_spec w :
  running w = true
  <-> Worker.cmd w = true /\ Worker.client w = true /\ Worker.termC w = Some false
      /\ Worker.interrupted w = false
      /\ forall d, held d (Worker.files w)
                   = match d with FuzzInW | FuzzOutR => 1 | _ => 0 end.
Proof.
  unfold running, fds. cbn [forallb]. rewrite !andb_true_iff, !negb_true_iff, !Z.eqb_eq.
  split.
  - intros [[[[Hc Hl] Ht] Hi] (H1 & H2 & H3 & H4 & _)].
    destruct (Worker.termC w) as [[] |]; try discriminate.
    repeat split; try assumption. intros []; assumption.
  - intros (Hc & Hl & Ht & Hi & Hd). rewrite Ht.
    repeat split; try assumption;
      [apply (Hd FuzzInR) | apply (Hd FuzzInW) | apply (Hd FuzzOutR) | apply (Hd FuzzOutW)].
Qed.

Lemma onFiles_Close_run c w :
  onFiles (Close c) w
  = Ret (firstError c) (Worker.withFiles (finalState (Close c (Worker.files w))) w).
Proof. unfold onFiles, zoom. rewrite Close_run. reflexivity. Qed.

Lemma stopTerminated_run f w :
  bind (modify (waited (exitErr f))) (fun _ =>
  bind (onFiles (Close (closes f))) (fun _ =>
  bind (modify (fun w => Worker.withClient false (Worker.withCmd false w))) (fun _ =>
  gets Worker.waitErr))) w
  = Ret (exitErr f) (stopTerminated f w).
Proof.
  unfold bind at 1. unfold modify at 1. unfold bind at 1.
  rewrite onFiles_Close_run. unfold bind, modify, gets. reflexivity.
Qed.

Lemma stopWait_terminated fuel f sig armed left w :
  (left = Some O \/ (armed = false /\ left <> None)) ->
  stopWait (S fuel) f sig armed left w = Ret (exitErr f) (stopTerminated f w).
Proof.
  intros Hl. cbn [stopWait].
  destruct Hl as [-> | [-> Hl]].
  - destruct armed; apply stopTerminated_run.
  - destruct left as [[| n] |];
      [apply stopTerminated_run | apply stopTerminated_run | congruence].
Qed.

Lemma stopWait_timer fuel f sig left w :
  left <> Some O ->
  stopWait (S fuel) f sig true left w
  = match sig with
    | Some Interrupt =>
        stopWait fuel f (Some Kill) true (elapsed left)
          (Worker.signalled Interrupt (Worker.withInterrupted true w))
    | Some Kill =>
        stopWait fuel f None true (elapsed left)
          (Worker.signalled Kill (Worker.withInterrupted true w))
    | None =>
        stopWait fuel f None false (elapsed left)
          (Worker.noticed (Worker.withInterrupted true w))
    end.
Proof.
  intros Hl. cbn [stopWait].
  destruct left as [[| n] |]; [congruence | |]; destruct sig as [[] |]; reflexivity.
Qed.

(** Every return of the loop of stop is through the termination case. *)
Lemma stopWait_outcome fuel f : forall sig armed left w,
  match stopWait fuel f sig armed left w with
  | Ret e w' =>
      e = exitErr f /\ Worker.waitErr w' = exitErr f /\ Worker.termC w' = Some true
      /\ Worker.cmd w' = false /\ Worker.client w' = false
      /\ (forall d, held d (Worker.files w')
                    = held d (Worker.files w)
                      - match d with FuzzInW | FuzzOutR => 1 | _ => 0 end)
      /\ Worker.interrupted w'
         = match left, armed with
           | Some O, _ => Worker.interrupted w
           | _, false => Worker.interrupted w
           | _, true => true
           end
  | Abort h _ => h = Fuel
  end.
Proof.
  induction fuel as [| fuel IH]; intros sig armed left w; [reflexivity |].
  destruct left as [[| n] |].
  - rewrite stopWait_terminated by auto.
    repeat split; try reflexivity. intros d. apply Close_held.
  - destruct armed.
    + rewrite stopWait_timer by discriminate.
      destruct sig as [[] |];
        match goal with
        | |- context [stopWait fuel f ?s ?a ?l ?w0] =>
            specialize (IH s a l w0); destruct (stopWait fuel f s a l w0) as [e w' | h w']
        end; try exact IH;
        destruct IH as (He & Hw & Ht & Hcm & Hcl & Hd & Hi);
        repeat split; try assumption;
        rewrite Hi; cbn [elapsed Nat.pred]; destruct n; reflexivity.
    + rewrite stopWait_terminated by (right; split; [reflexivity | discriminate]).
      repeat split; try reflexivity. intros d. apply Close_held.
  - destruct armed; [| reflexivity].
    rewrite stopWait_timer by discriminate.
    destruct sig as [[] |];
      match goal with
      | |- context [stopWait fuel f ?s ?a ?l ?w0] =>
          specialize (IH s a l w0); destruct (stopWait fuel f s a l w0) as [e w' | h w']
      end; try exact IH;
      destruct IH as (He & Hw & Ht & Hcm & Hcl & Hd & Hi);
      repeat split; try assumption;
      rewrite Hi; reflexivity.
Qed.

Section SupervisorFacts.
Context {H : Host}.

Lemma ladder_rungs : ladder = rungs (Some (if windows then Kill else Interrupt)).
Proof. unfold ladder. destruct windows; reflexivity. Qed.

(** The signals and notices of the loop of stop, whatever its outcome. *)
Lemma stopWait_signals fuel f : forall sig armed left w,
  let w' := finalState (stopWait fuel f sig armed left w) in
  (exists k, Worker.signals w' = Worker.signals w ++ firstn k (rungs sig))
  /\ (Worker.notices w' <= Worker.notices w + (if armed then 1 else 0))%nat.
Proof.
  induction fuel as [| fuel IH]; intros sig armed left w; cbn zeta.
  - cbn. split; [exists O; rewrite app_nil_r; reflexivity | lia].
  - assert (Q : let w' := finalState (bind (modify (waited (exitErr f))) (fun _ =>
                bind (onFiles (Close (closes f))) (fun _ =>
                bind (modify (fun w => Worker.withClient false (Worker.withCmd false w))) (fun _ =>
                gets Worker.waitErr))) w) in
              (exists k, Worker.signals w' = Worker.signals w ++ firstn k (rungs sig))
              /\ (Worker.notices w' <= Worker.notices w + (if armed then 1 else 0))%nat).
    { cbn zeta. rewrite stopTerminated_run. cbn.
      split; [exists O; cbn; rewrite app_nil_r; reflexivity | lia]. }
    cbn [stopWait].
    destruct left as [[| n] |]; [destruct armed; exact Q | |].
    + destruct armed; [| exact Q].
      destruct sig as [[] |]; unfold bind, modify; cbn beta iota;
        match goal with
        | |- context [stopWait fuel f ?s ?a ?l ?w0] =>
            destruct (IH s a l w0) as [[k Hk] Hn]
        end; cbn [Worker.signals Worker.notices Worker.signalled Worker.noticed
                  Worker.withInterrupted] in Hk, Hn.
      * split; [exists (S k); rewrite Hk, <- app_assoc; reflexivity | lia].
      * split; [exists (S k); rewrite Hk, <- app_assoc; reflexivity | lia].
      * split; [exists O; rewrite Hk; destruct k; reflexivity | lia].
    + destruct armed.
      2:{ cbn. split; [exists O; rewrite app_nil_r; reflexivity | lia]. }
      destruct sig as [[] |]; unfold bind, modify; cbn beta iota;
        match goal with
        | |- context [stopWait fuel f ?s ?a ?l ?w0] =>
            destruct (IH s a l w0) as [[k Hk] Hn]
        end; cbn [Worker.signals Worker.notices Worker.signalled Worker.noticed
                  Worker.withInterrupted] in Hk, Hn.
      * split; [exists (S k); rewrite Hk, <- app_assoc; reflexivity | lia].
      * split; [exists (S k); rewrite Hk, <- app_assoc; reflexivity | lia].
      * split; [exists O; rewrite Hk; destruct k; reflexivity | lia].
Qed.

Lemma stop_after_termination fuel f w :
  Worker.termC w = Some true ->
  stop fuel f w
  = Ret (Worker.waitErr w)
        (if Worker.client w
         then Worker.withClient false (Worker.withCmd false
                (Worker.withFiles (finalState (Close (closes f) (Worker.files w))) w))
         else w).
Proof.
  intros Ht. unfold stop, bind at 1, gets at 1. rewrite Ht.
  unfold bind at 1, gets at 1.
  destruct (Worker.client w) eqn:Hc; cbn [negb]; [| reflexivity].
  unfold bind at 1. rewrite onFiles_Close_run. reflexivity.
Qed.

Lemma stop_while_running fuel f w :
  Worker.termC w = Some false ->
  Worker.client w = true ->
  stop fuel f w
  = stopWait fuel f (Some (if windows then Kill else Interrupt)) true (patience f) w.
Proof. intros Ht Hc. unfold stop, bind, gets. rewrite Ht, Hc. reflexivity. Qed.

Lemma stop_without_client fuel f w :
  Worker.termC w = Some false ->
  Worker.client w = false ->
  stop fuel f w = Abort (Panic "invalid memory address or nil pointer dereference") w.
Proof. intros Ht Hc. unfold stop, bind, gets. rewrite Ht, Hc. reflexivity. Qed.

(** stop never sends the child more than its ladder of signals, interrupt
    then kill (kill alone on Windows), each at most once and in this order,
    and it writes the notice that it is waiting at most once, whether the
    child terminates or not and however long stop is observed. *)
Theorem stop_sends_at_most_the_ladder (fuel : nat) (f : fate) (w : worker) :
  (exists k, Worker.signals (finalState (stop fuel f w))
             = Worker.signals w ++ firstn k ladder)
  /\ (Worker.notices (finalState (stop fuel f w)) <= Worker.notices w + 1)%nat.
Proof.
  destruct (Worker.termC w) as [[] |] eqn:Ht.
  - rewrite stop_after_termination by exact Ht. cbn [finalState].
    destruct (Worker.client w); cbn;
      (split; [exists O; cbn; rewrite app_nil_r; reflexivity | lia]).
  - destruct (Worker.client w) eqn:Hc.
    + rewrite stop_while_running by assumption. rewrite ladder_rungs.
      apply stopWait_signals.
    + rewrite stop_without_client by assumption. cbn.
      split; [exists O; rewrite app_nil_r; reflexivity | lia].
  - unfold stop, bind, gets. rewrite Ht. cbn.
    split; [exists O; rewrite app_nil_r; reflexivity | lia].
Qed.


Lemma stop_run (fuel : nat) (f : fate) (n : nat) (w : worker) :
  Worker.termC w = Some false ->
  Worker.client w = true ->
  patience f = Some n ->
  (4 <= fuel)%nat ->
  exists w',
    stop fuel f w = Ret (exitErr f) w'
    /\ Worker.signals w' = Worker.signals w ++ firstn n ladder
    /\ Worker.notices w'
       = (Worker.notices w + if (List.length ladder <? n)%nat then 1 else 0)%nat
    /\ Worker.interrupted w' = Worker.interrupted w || negb (n =? 0)%nat
    /\ Worker.waitErr w' = exitErr f
    /\ Worker.cmd w' = false /\ Worker.client w' = false.
Proof.
  intros Ht Hc Hp Hfuel.
  rewrite stop_while_running by assumption. rewrite Hp. unfold ladder.
  destruct fuel as [| [| [| [| fuel]]]]; try lia.
  destruct windows.
  - destruct n as [| [| n]].
    + rewrite stopWait_terminated by auto. eexists. split; [reflexivity |].
      cbn. rewrite app_nil_r, Nat.add_0_r, orb_false_r. repeat split; reflexivity.
    + rewrite stopWait_timer by discriminate. cbn [elapsed Nat.pred].
      rewrite stopWait_terminated by auto. eexists. split; [reflexivity |].
      cbn. rewrite Nat.add_0_r, orb_true_r. repeat split; reflexivity.
    + rewrite stopWait_timer by discriminate. cbn [elapsed Nat.pred].
      rewrite stopWait_timer by discriminate. cbn [elapsed Nat.pred].
      rewrite stopWait_terminated by (right; split; [reflexivity | discriminate]).
      eexists. split; [reflexivity |].
      cbn. rewrite orb_true_r. repeat split; try reflexivity; lia.
  - destruct n as [| [| [| n]]].
    + rewrite stopWait_terminated by auto. eexists. split; [reflexivity |].
      cbn. rewrite app_nil_r, Nat.add_0_r, orb_false_r. repeat split; reflexivity.
    + rewrite stopWait_timer by discriminate. cbn [elapsed Nat.pred].
      rewrite stopWait_terminated by auto. eexists. split; [reflexivity |].
      cbn. rewrite Nat.add_0_r, orb_true_r. repeat split; reflexivity.
    + rewrite stopWait_timer by discriminate. cbn [elapsed Nat.pred].
      rewrite stopWait_timer by discriminate. cbn [elapsed Nat.pred].
      rewrite stopWait_terminated by auto. eexists. split; [reflexivity |].
      cbn. rewrite <- app_assoc, Nat.add_0_r, orb_true_r. repeat split; reflexivity.
    + rewrite stopWait_timer by discriminate. cbn [elapsed Nat.pred].
      rewrite stopWait_timer by discriminate. cbn [elapsed Nat.pred].
      rewrite stopWait_timer by discriminate. cbn [elapsed Nat.pred].
      rewrite stopWait_terminated by (right; split; [reflexivity | discriminate]).
      eexists. split; [reflexivity |].
      cbn. rewrite <- app_assoc, orb_true_r. repeat split; try reflexivity; lia.
Qed.

(** Against a child that terminates, stop returns the child's status once
    observed for four rounds of its loop. If the child outlives [n] timer
    periods, stop has sent it the first [n] signals of the ladder, has
    written its notice once if the whole ladder did not suffice, and has
    set interrupted exactly if n > 0; the worker is left without process
    and client, with waitErr the status returned. *)
Theorem stop_escalates (fuel : nat) (f : fate) (n : nat) (w : worker) :
  Worker.termC w = Some false ->
  Worker.client w = true ->
  patience f = Some n ->
  (4 <= fuel)%nat ->
  exists w',
    stop fuel f w = Ret (exitErr f) w'
    /\ Worker.signals w' = Worker.signals w ++ firstn n ladder
    /\ Worker.notices w'
       = (Worker.notices w + if (List.length ladder <? n)%nat then 1 else 0)%nat
    /\ Worker.interrupted w' = Worker.interrupted w || negb (n =? 0)%nat
    /\ Worker.waitErr w' = exitErr f
    /\ Worker.cmd w' = false /\ Worker.client w' = false.
Proof.
  intros Ht Hc Hp Hfuel.
  rewrite stop_while_running by assumption. rewrite Hp. unfold ladder.
  destruct fuel as [| [| [| [| fuel]]]]; try lia.
  destruct windows.
  - destruct n as [| [| n]].
    + rewrite stopWait_terminated by auto. eexists. split; [reflexivity |].
      cbn. rewrite app_nil_r, Nat.add_0_r, orb_false_r. repeat split; reflexivity.
    + rewrite stopWait_timer by discriminate. cbn [elapsed Nat.pred].
      rewrite stopWait_terminated by auto. eexists. split; [reflexivity |].
      cbn. rewrite Nat.add_0_r, orb_true_r. repeat split; reflexivity.
    + rewrite stopWait_timer by discriminate. cbn [elapsed Nat.pred].
      rewrite stopWait_timer by discriminate. cbn [elapsed Nat.pred].
      rewrite stopWait_terminated by (right; split; [reflexivity | discriminate]).
      eexists. split; [reflexivity |].
      cbn. rewrite orb_true_r. repeat split; try reflexivity; lia.
  - destruct n as [| [| [| n]]].
    + rewrite stopWait_terminated by auto. eexists. split; [reflexivity |].
      cbn. rewrite app_nil_r, Nat.add_0_r, orb_false_r. repeat split; reflexivity.
    + rewrite stopWait_timer by discriminate. cbn [elapsed Nat.pred].
      rewrite stopWait_terminated by auto. eexists. split; [reflexivity |].
      cbn. rewrite Nat.add_0_r, orb_true_r. repeat split; reflexivity.
    + rewrite stopWait_timer by discriminate. cbn [elapsed Nat.pred].
      rewrite stopWait_timer by discriminate. cbn [elapsed Nat.pred].
      rewrite stopWait_terminated by auto. eexists. split; [reflexivity |].
      cbn. rewrite <- app_assoc, Nat.add_0_r, orb_true_r. repeat split; reflexivity.
    + rewrite stopWait_timer by discriminate. cbn [elapsed Nat.pred].
      rewrite stopWait_timer by discriminate. cbn [elapsed Nat.pred].
      rewrite stopWait_timer by discriminate. cbn [elapsed Nat.pred].
      rewrite stopWait_terminated by (right; split; [reflexivity | discriminate]).
      eexists. split; [reflexivity |].
      cbn. rewrite <- app_assoc, orb_true_r. repeat split; try reflexivity; lia.
Qed.

Lemma stopWait_ret fuel f : forall sig armed left w e w',
  stopWait fuel f sig armed left w = Ret e w' ->
  Worker.waitErr w' = e /\ Worker.termC w' = Some true /\ Worker.client w' = false.
Proof.
  induction fuel as [| fuel IH]; intros sig armed left w e w' Hr; [discriminate |].
  assert (T : left = Some O \/ (armed = false /\ left <> None) ->
              Worker.waitErr w' = e /\ Worker.termC w' = Some true
              /\ Worker.client w' = false).
  { intros Hl. rewrite stopWait_terminated in Hr by assumption.
    injection Hr as <- <-. repeat split. }
  destruct left as [[| n] |]; [apply T; auto | |].
  - destruct armed; [| apply T; right; split; congruence].
    rewrite stopWait_timer in Hr by discriminate.
    destruct sig as [[] |]; eapply IH; exact Hr.
  - destruct armed; [| discriminate].
    rewrite stopWait_timer in Hr by discriminate.
    destruct sig as [[] |]; eapply IH; exact Hr.
Qed.

Lemma stop_ret fuel f w e w' :
  stop fuel f w = Ret e w' ->
  Worker.waitErr w' = e /\ Worker.termC w' = Some true /\ Worker.client w' = false.
Proof.
  intros Hr. destruct (Worker.termC w) as [[] |] eqn:Ht.
  - rewrite stop_after_termination in Hr by exact Ht. injection Hr as <- <-.
    destruct (Worker.client w) eqn:Hc; cbn; auto.
  - destruct (Worker.client w) eqn:Hc.
    + rewrite stop_while_running in Hr by assumption. eapply stopWait_ret; exact Hr.
    + rewrite stop_without_client in Hr by assumption. discriminate.
  - unfold stop, bind, gets in Hr. rewrite Ht in Hr. discriminate.
Qed.

(** Once stop has returned, calling it again returns the same status at
    once and changes nothing: no signal, no notice, no descriptor closed a
    second time. *)
Theorem stop_again_changes_nothing (fuel : nat) (f : fate) (w : worker)
    (e : option error) (w' : worker) (fuel2 : nat) (f2 : fate) :
  stop fuel f w = Ret e w' ->
  stop fuel2 f2 w' = Ret e w'.
Proof.
  intros Hr. destruct (stop_ret _ _ _ _ _ Hr) as (He & Ht & Hc).
  rewrite stop_after_termination by exact Ht. rewrite Hc, He. reflexivity.
Qed.

Lemma start_run (os : spawn) (w : worker) :
  Worker.cmd w = false ->
  exists w',
    start os w = Ret (spawnError os) w'
    /\ Worker.waitErr w' = None /\ Worker.interrupted w' = false
    /\ Worker.cmd w' = isNil (spawnError os)
    /\ Worker.termC w' = (if isNil (spawnError os) then Some false else None)
    /\ Worker.client w' = (if isNil (spawnError os) then true else Worker.client w)
    /\ Worker.signals w' = Worker.signals w
    /\ forall d, held d (Worker.files w')
                 = held d (Worker.files w)
                   + if isNil (spawnError os)
                     then match d with FuzzInW | FuzzOutR => 1 | _ => 0 end
                     else 0.
Proof.
  intros Hc. unfold start, spawnError, isRunning, bind at 1, gets at 1. rewrite Hc.
  unfold bind at 1, modify at 1.
  destruct (pipeInErr os) as [e1 |].
  { eexists. split; [reflexivity |]. cbn. repeat split; try assumption. intros d; lia. }
  destruct (pipeOutErr os) as [e2 |].
  { eexists. split; [reflexivity |]. cbn.
    repeat split; try assumption. intros d. rewrite !held_app. destruct d; cbn; lia. }
  destruct (startErr os) as [e3 |].
  { eexists. split; [reflexivity |]. cbn.
    repeat split; try assumption. intros d. rewrite !held_app. destruct d; cbn; lia. }
  eexists. split; [reflexivity |]. cbn.
  repeat split. intros d. rewrite !held_app. destruct d; cbn; lia.
Qed.

(** start on a worker that is not running always returns, with the first
    error of its three system calls. On an error every descriptor it opened
    is closed again and no process is recorded; on success the coordinator
    keeps exactly its two ends of the pipes, the write end of fuzz_in and
    the read end of fuzz_out, and the child's two ends are closed. In both
    cases waitErr and interrupted are cleared. *)
Theorem start_keeps_only_the_client_pipes (os : spawn) (w : worker) :
  Worker.cmd w = false ->
  exists w',
    start os w = Ret (spawnError os) w'
    /\ Worker.waitErr w' = None /\ Worker.interrupted w' = false
    /\ Worker.cmd w' = isNil (spawnError os)
    /\ Worker.termC w' = (if isNil (spawnError os) then Some false else None)
    /\ Worker.client w' = (if isNil (spawnError os) then true else Worker.client w)
    /\ Worker.signals w' = Worker.signals w
    /\ forall d, held d (Worker.files w')
                 = held d (Worker.files w)
                   + if isNil (spawnError os)
                     then match d with FuzzInW | FuzzOutR => 1 | _ => 0 end
                     else 0.
Proof.
  intros Hc. unfold start, spawnError, isRunning, bind at 1, gets at 1. rewrite Hc.
  unfold bind at 1, modify at 1.
  destruct (pipeInErr os) as [e1 |].
  { eexists. split; [reflexivity |]. cbn. repeat split; try assumption. intros d; lia. }
  destruct (pipeOutErr os) as [e2 |].
  { eexists. split; [reflexivity |]. cbn.
    repeat split; try assumption. intros d. rewrite !held_app. destruct d; cbn; lia. }
  destruct (startErr os) as [e3 |].
  { eexists. split; [reflexivity |]. cbn.
    repeat split; try assumption. intros d. rewrite !held_app. destruct d; cbn; lia. }
  eexists. split; [reflexivity |]. cbn.
  repeat split. intros d. rewrite !held_app. destruct d; cbn; lia.
Qed.

Lemma stop_running fuel f w :
  running w = true ->
  match stop fuel f w with
  | Ret e w' =>
      e = exitErr f /\ Worker.waitErr w' = exitErr f /\ idle w' = true
      /\ Worker.interrupted w' = match patience f with Some O => false | _ => true end
  | Abort h _ => h = Fuel /\ ((4 <= fuel)%nat -> patience f = None)
  end.
Proof.
  intros Hr. apply running_spec in Hr. destruct Hr as (Hcmd & Hc & Ht & Hi & Hd).
  destruct (stop fuel f w) as [e w' | h w'] eqn:Hs.
  - rewrite stop_while_running in Hs by assumption.
    pose proof (stopWait_outcome fuel f (Some (if windows then Kill else Interrupt)) true
                  (patience f) w) as Ho.
    rewrite Hs in Ho. destruct Ho as (He & Hw & _ & Hcm & Hcl & Hh & Hin).
    repeat split; try assumption.
    + apply idle_spec. repeat split; try assumption.
      intros d. rewrite Hh, Hd. destruct d; reflexivity.
    + rewrite Hin, Hi. destruct (patience f) as [[| n] |]; reflexivity.
  - split.
    + rewrite stop_while_running in Hs by assumption.
      pose proof (stopWait_outcome fuel f (Some (if windows then Kill else Interrupt)) true
                    (patience f) w) as Ho.
      rewrite Hs in Ho. exact Ho.
    + intros Hf. destruct (patience f) as [n |] eqn:Hp; [| reflexivity].
      destruct (stop_run fuel f n w Ht Hc Hp Hf) as (w1 & Hw1 & _). congruence.
Qed.

Lemma stop_after_exit fuel f status w :
  running w = true ->
  exists w',
    stop fuel f (waited status w) = Ret status w'
    /\ idle w' = true /\ Worker.interrupted w' = false /\ Worker.waitErr w' = status
    /\ Worker.signals w' = Worker.signals w /\ Worker.notices w' = Worker.notices w.
Proof.
  intros Hr. apply running_spec in Hr. destruct Hr as (Hcmd & Hc & Ht & Hi & Hd).
  rewrite stop_after_termination by reflexivity.
  cbn [waited Worker.client Worker.withTermC Worker.withWaitErr Worker.waitErr].
  rewrite Hc. eexists. split; [reflexivity |].
  repeat split; try assumption.
  apply idle_spec. repeat split.
  intros d. cbn [Worker.files Worker.withClient Worker.withCmd Worker.withFiles].
  rewrite Close_held. cbn [Worker.files Worker.withTermC Worker.withWaitErr].
  rewrite Hd. destruct d; reflexivity.
Qed.

Lemma start_idle os w :
  idle w = true ->
  exists w',
    start os w = Ret (spawnError os) w'
    /\ (if isNil (spawnError os) then running w' else idle w') = true.
Proof.
  intros Hi. apply idle_spec in Hi. destruct Hi as (Hcmd & Hc & Hd).
  destruct (start_run os w Hcmd) as (w' & Hs & Hw & Hin & Hcm & Ht & Hcl & _ & Hh).
  exists w'. split; [exact Hs |].
  destruct (spawnError os) as [e |]; cbn [isNil] in *.
  - apply idle_spec. repeat split; try congruence.
    intros d. rewrite Hh, Hd. reflexivity.
  - apply running_spec. repeat split; try assumption.
    intros d. rewrite Hh, Hd. destruct d; reflexivity.
Qed.

Lemma startAndPing_outcome fuel ctxBefore os pinged f ctxAfter w :
  idle w = true ->
  match startAndPing fuel ctxBefore os pinged f ctxAfter w with
  | Ret None w' =>
      running w' = true /\ ctxBefore = None /\ spawnError os = None /\ pinged = None
  | Ret (Some _) w' => idle w' = true
  | Abort h _ => h = Fuel /\ ((4 <= fuel)%nat -> patience f = None)
  end.
Proof.
  intros Hi. unfold startAndPing.
  destruct ctxBefore as [cause |]; [exact Hi |].
  unfold bind at 1. destruct (start_idle os w Hi) as (w1 & -> & Hw1).
  destruct (spawnError os) as [e |]; cbn [isNil] in Hw1; [exact Hw1 |].
  destruct pinged as [e |]; [| cbn; auto].
  unfold bind at 1. pose proof (stop_running fuel f w1 Hw1) as Hs.
  destruct (stop fuel f w1) as [e' w2 | h w2]; [| exact Hs].
  destruct Hs as (_ & _ & Hidle & _).
  destruct ctxAfter; [exact Hidle |].
  destruct (isInterruptError (Some e)); exact Hidle.
Qed.

(** startAndPing on a worker without process never faults, and it leaves
    either a running worker or none: when it returns nil the worker runs,
    unsignalled, the coordinator holding its two pipe ends; when it returns
    an error, whichever step failed, no process and no client are left and
    every descriptor opened is closed. It does not return only while stop
    waits for the child: for ever, if observed for four rounds of stop's
    loop. *)
Theorem startAndPing_leaves_no_process_behind (fuel : nat) (ctxBefore : option error)
    (os : spawn) (pinged : option error) (f : fate) (ctxAfter : option error)
    (w : worker) :
  idle w = true ->
  match startAndPing fuel ctxBefore os pinged f ctxAfter w with
  | Ret None w' =>
      running w' = true /\ ctxBefore = None /\ spawnError os = None /\ pinged = None
  | Ret (Some _) w' => idle w' = true
  | Abort h _ => h = Fuel /\ ((4 <= fuel)%nat -> patience f = None)
  end.
Proof.
  intros Hi. unfold startAndPing.
  destruct ctxBefore as [cause |]; [exact Hi |].
  unfold bind at 1. destruct (start_idle os w Hi) as (w1 & -> & Hw1).
  destruct (spawnError os) as [e |]; cbn [isNil] in Hw1; [exact Hw1 |].
  destruct pinged as [e |]; [| cbn; auto].
  unfold bind at 1. pose proof (stop_running fuel f w1 Hw1) as Hs.
  destruct (stop fuel f w1) as [e' w2 | h w2]; [| exact Hs].
  destruct Hs as (_ & _ & Hidle & _).
  destruct ctxAfter; [exact Hidle |].
  destruct (isInterruptError (Some e)); exact Hidle.
Qed.

Lemma coordinateDone_outcome fuel f cause w :
  running w = true ->
  match coordinateDone fuel f cause w with
  | Ret (Returned _) w' => idle w' = true
  | Ret (Sent _) _ => False
  | Abort h _ => h = Fuel
  end.
Proof.
  intros Hr. unfold coordinateDone, bind at 1.
  pose proof (stop_running fuel f w Hr) as Hs.
  destruct (stop fuel f w) as [e w1 | h w1]; [| apply Hs].
  destruct Hs as (_ & _ & Hidle & _).
  unfold bind, gets.
  destruct (negb (isNil e) && negb (Worker.interrupted w1) && negb (isInterruptError e));
    exact Hidle.
Qed.

Lemma coordinateTerminated_run fuel f status w :
  running w = true ->
  exists w',
    coordinateTerminated fuel f (waited status w)
    = Ret (Returned
             (if isNil status || isInterruptError status then None
              else if match exitCode status with
                      | Some code => code =? workerExitCode
                      | None => false
                      end
              then Some ("fuzzing process exited unexpectedly due to an internal failure: "
                         ++ verbW status)%string
              else Some ("fuzzing process terminated unexpectedly: "
                         ++ verbW status)%string)) w'
    /\ idle w' = true
    /\ Worker.signals w' = Worker.signals w /\ Worker.notices w' = Worker.notices w.
Proof.
  intros Hr. destruct (stop_after_exit fuel f status w Hr) as (w' & Hs & Hidle & Hi & _ & Hsig & Hn).
  exists w'. split; [| auto].
  unfold coordinateTerminated, bind at 1. rewrite Hs.
  unfold bind, gets. rewrite Hi.
  destruct (isNil status || isInterruptError status); [reflexivity |].
  destruct (match exitCode status with Some code => code =? workerExitCode | None => false end);
    reflexivity.
Qed.

Lemma coordinateInput_outcome fuel f ctxAfter input rpc w :
  running w = true ->
  match coordinateInput fuel f ctxAfter input rpc w with
  | Ret (Returned _) w' => idle w' = true
  | Ret (Sent _) w' => idle w' || running w' = true
  | Abort h _ => h = Fuel
  end.
Proof.
  intros Hr. destruct rpc as [[entry resp] [e |]]; cbn [coordinateInput].
  2:{ cbn. rewrite Hr. apply orb_true_r. }
  unfold bind at 1. pose proof (stop_running fuel f w Hr) as Hs.
  destruct (stop fuel f w) as [e' w1 | h w1]; [| apply Hs].
  destruct Hs as (_ & _ & Hidle & _).
  destruct ctxAfter; [exact Hidle |].
  unfold bind at 1, gets at 1. destruct (Worker.interrupted w1); [exact Hidle |].
  unfold bind at 1, gets at 1.
  destruct (isNil (Worker.waitErr w1) || isInterruptError (Worker.waitErr w1)); [exact Hidle |].
  destruct (match terminationSignal (Worker.waitErr w1) with
            | Some sig => negb (isCrashSignal sig) | None => false end); [exact Hidle |].
  cbn. rewrite Hidle. reflexivity.
Qed.

Lemma minimizeAfter_outcome fuel f ctxAfter input rpc w :
  running w = true ->
  match minimizeAfter fuel f ctxAfter input rpc w with
  | Ret _ w' => idle w' || running w' = true
  | Abort h _ => h = Fuel
  end.
Proof.
  intros Hr. unfold minimizeAfter. destruct (snd rpc).
  - unfold bind at 1. unfold bind at 1.
    pose proof (stop_running fuel f w Hr) as Hs.
    destruct (stop fuel f w) as [e' w1 | h w1]; [| apply Hs].
    destruct Hs as (_ & _ & Hidle & _). cbn. rewrite Hidle. reflexivity.
  - cbn. rewrite Hr. apply orb_true_r.
Qed.

Lemma coordinateSelect_outcome fuel t w :
  running w = true ->
  match coordinateSelect fuel t w with
  | Ret (Returned _) w' => idle w' = true
  | Ret (Sent _) w' => idle w' || running w' = true
  | Abort h _ => h = Fuel
  end.
Proof.
  intros Hr. unfold coordinateSelect. destruct (chosen t) as [cause | status | input rpc | input rpc].
  - pose proof (coordinateDone_outcome fuel (fated t) cause w Hr) as Hd.
    destruct (coordinateDone fuel (fated t) cause w) as [[e | r] w' | h w']; tauto.
  - unfold bind, modify.
    destruct (coordinateTerminated_run fuel (fated t) status w Hr) as (w' & -> & Hidle & _).
    exact Hidle.
  - apply coordinateInput_outcome. exact Hr.
  - unfold bind at 1.
    pose proof (minimizeAfter_outcome fuel (fated t) (ctxAfterStop t) input rpc w Hr) as Hm.
    destruct (minimizeAfter fuel (fated t) (ctxAfterStop t) input rpc w) as [r w' | h w'];
      exact Hm.
Qed.

(** coordinate, started on a worker without process or on a running one,
    never faults: none of the panics of start, stop and coordinate is
    reached, whatever the system, the child and the coordinator do. When
    it returns, with an error or nil, no worker process and no client are
    left and every pipe descriptor opened is closed; the results sent are
    those sent before and at most one for each earlier round. It does not
    return only while it waits, in its select or in stop. *)
Theorem coordinate_never_faults (fuel : nat) (turns : list turn)
    (results : list fuzzResult) (w : worker) :
  idle w || running w = true ->
  match coordinate fuel turns results w with
  | Ret (e, rs) w' =>
      idle w' = true
      /\ exists more, rs = results ++ more /\ (List.length more < List.length turns)%nat
  | Abort h _ => h = Fuel
  end.
Proof.
  revert results w. induction turns as [| t rest IH]; intros results w Hw; [reflexivity |].
  cbn [coordinate]. unfold bind at 1, isRunning, gets at 1.
  assert (Hstart :
    match (if Worker.cmd w then ret None
           else startAndPing fuel (ctxAtStart t) (spawned t) (pinged t)
                  (fated t) (ctxAfterStop t)) w with
    | Ret None w' => running w' = true
    | Ret (Some _) w' => idle w' = true
    | Abort h _ => h = Fuel
    end).
  { destruct (Worker.cmd w) eqn:Hcmd.
    - cbn. apply orb_true_iff in Hw. destruct Hw as [Hw | Hw]; [| exact Hw].
      apply idle_spec in Hw. destruct Hw as (Hc & _). congruence.
    - apply orb_true_iff in Hw. destruct Hw as [Hw | Hw].
      + pose proof (startAndPing_outcome fuel (ctxAtStart t) (spawned t) (pinged t)
                      (fated t) (ctxAfterStop t) w Hw) as Hs.
        destruct (startAndPing fuel (ctxAtStart t) (spawned t) (pinged t)
                    (fated t) (ctxAfterStop t) w) as [[e |] w' | h w']; tauto.
      + apply running_spec in Hw. destruct Hw as (Hc & _). congruence. }
  unfold bind at 1.
  destruct ((if Worker.cmd w then ret None
             else startAndPing fuel (ctxAtStart t) (spawned t) (pinged t)
                    (fated t) (ctxAfterStop t)) w) as [[e |] w1 | h w1].
  - cbn. split; [exact Hstart |]. exists []. rewrite app_nil_r. split; [reflexivity | cbn; lia].
  - unfold bind at 1.
    pose proof (coordinateSelect_outcome fuel t w1 Hstart) as Hsel.
    destruct (coordinateSelect fuel t w1) as [[e | result] w2 | h w2].
    + cbn. split; [exact Hsel |]. exists []. rewrite app_nil_r. split; [reflexivity | cbn; lia].
    + specialize (IH (results ++ [result]) w2 Hsel).
      destruct (coordinate fuel rest (results ++ [result]) w2) as [[e rs] w3 | h w3];
        [| exact IH].
      destruct IH as (Hidle & more & -> & Hlen). split; [exact Hidle |].
      exists (result :: more). rewrite <- app_assoc. split; [reflexivity | cbn; lia].
    + exact Hsel.
  - exact Hstart.
Qed.

Lemma stop_sends_no_signal_before_timer fuel f w :
  Worker.client w = true ->
  patience f = Some O ->
  Worker.signals (finalState (stop fuel f w)) = Worker.signals w.
Proof.
  intros Hc Hp. destruct (Worker.termC w) as [[] |] eqn:Ht.
  - rewrite stop_after_termination by exact Ht. rewrite Hc. reflexivity.
  - rewrite stop_while_running by assumption. rewrite Hp.
    destruct fuel as [| fuel]; [reflexivity |].
    rewrite stopWait_terminated by auto. reflexivity.
  - unfold stop, bind, gets. rewrite Ht. reflexivity.
Qed.

(** A fuzz call that failed is recorded as a crasher of its input only if
    the child terminated by itself, before stop's timer fired, with a status
    that is an error, not an interrupt and not a signal other than a crash
    signal, and the context is not done. The result then carries the
    entry and the counters of the call, the termination text as crasher
    message and canMinimize false; stop has sent no signal, and the worker
    is left without process, to be started again. *)
Theorem crasher_only_for_a_crash_of_the_child (fuel : nat) (f : fate)
    (ctxAfter : option error) (input : fuzzInput) (entry : CorpusEntry)
    (resp : fuzzResponse) (e : error) (w : worker) (result : fuzzResult) (w' : worker) :
  running w = true ->
  coordinateInput fuel f ctxAfter input (entry, resp, Some e) w = Ret (Sent result) w' ->
  patience f = Some O /\ ctxAfter = None
  /\ isNil (exitErr f) = false /\ isInterruptError (exitErr f) = false
  /\ (forall sig, terminationSignal (exitErr f) = Some sig -> isCrashSignal sig = true)
  /\ result = fuzzResultOf input entry
                (FuzzResponse.withErr
                   ("fuzzing process terminated unexpectedly: " ++ verbV (exitErr f)) resp)
                false
  /\ idle w' = true /\ Worker.signals w' = Worker.signals w.
Proof.
  intros Hr Hc. cbn [coordinateInput] in Hc. unfold bind at 1 in Hc.
  pose proof (stop_running fuel f w Hr) as Hs.
  pose proof (stop_sends_no_signal_before_timer fuel f w) as Hq.
  destruct (stop fuel f w) as [e' w1 | h w1]; [| discriminate].
  destruct Hs as (_ & Hw & Hidle & Hi).
  destruct ctxAfter; [discriminate |].
  unfold bind at 1, gets at 1 in Hc.
  destruct (Worker.interrupted w1) eqn:Hint; [discriminate |].
  unfold bind at 1, gets at 1 in Hc. rewrite Hw in Hc.
  destruct (isNil (exitErr f) || isInterruptError (exitErr f)) eqn:Hnil; [discriminate |].
  apply orb_false_iff in Hnil. destruct Hnil as [Hnil Hintr].
  destruct (terminationSignal (exitErr f)) as [sig |] eqn:Hsig.
  - destruct (isCrashSignal sig) eqn:Hcrash; [| discriminate].
    cbn in Hc. injection Hc as <- <-.
    assert (Hp : patience f = Some O) by (destruct (patience f) as [[| n] |]; congruence).
    repeat split; try assumption.
    + intros sig' [= <-]. exact Hcrash.
    + apply Hq; [apply running_spec in Hr; tauto | exact Hp].
  - cbn in Hc. injection Hc as <- <-.
    assert (Hp : patience f = Some O) by (destruct (patience f) as [[| n] |]; congruence).
    repeat split; try assumption.
    + intros sig' [=].
    + apply Hq; [apply running_spec in Hr; tauto | exact Hp].
Qed.

(** When the child terminates on its own while coordinate waits in its
    select, coordinate returns without fault: nil if the child's status is
    nil or an interrupt, the internal-failure error if it is the reserved
    exit code 70, the terminated-unexpectedly error otherwise. stop sends
    the dead child no signal and writes no notice, and the client's pipes
    are closed. *)
Theorem unexpected_termination_is_classified (fuel : nat) (t : turn)
    (status : option error) (w : worker) :
  running w = true ->
  chosen t = TermClosed status ->
  exists w',
    coordinateSelect fuel t w
    = Ret (Returned
             (if isNil status || isInterruptError status then None
              else if match exitCode status with
                      | Some code => code =? 70
                      | None => false
                      end
              then Some ("fuzzing process exited unexpectedly due to an internal failure: "
                         ++ verbW status)%string
              else Some ("fuzzing process terminated unexpectedly: "
                         ++ verbW status)%string)) w'
    /\ idle w' = true
    /\ Worker.signals w' = Worker.signals w /\ Worker.notices w' = Worker.notices w.
Proof.
  intros Hr Ht. unfold coordinateSelect. rewrite Ht. unfold bind, modify.
  apply coordinateTerminated_run. exact Hr.
Qed.

(** When the minimize call failed and stop had to wait for its timer
    before the child terminated, worker.minimize returns the original
    input as its result, with the input's crasher message, the coverage to
    keep and canMinimize false, and no error: stop has set interrupted, and
    nothing is reported of the child's status. *)
Theorem minimize_interrupted_returns_original (fuel : nat) (f : fate)
    (ctxAfter : option error) (input : fuzzMinimizeInput)
    (rpc : CorpusEntry * minimizeResponse * option error) (n : nat) (w : worker) :
  running w = true ->
  snd rpc <> None ->
  patience f = Some (S n) ->
  (4 <= fuel)%nat ->
  exists w',
    minimizeAfter fuel f ctxAfter input rpc w = Ret (originalResult input, None) w'
    /\ idle w' = true /\ Worker.interrupted w' = true.
Proof.
  intros Hr Hrpc Hp Hfuel. unfold minimizeAfter.
  destruct rpc as [[entryOut resp] [e |]]; [| contradiction]. cbn [snd].
  unfold bind at 1. unfold bind at 1.
  pose proof (stop_running fuel f w Hr) as Hs.
  destruct (stop fuel f w) as [e' w1 | h w1].
  - destruct Hs as (_ & _ & Hidle & Hi). rewrite Hp in Hi.
    exists w1. split; [| auto].
    unfold bind, gets, ret. unfold minimizeResult, observed.
    cbn [ctxDone interrupted waitErrIsInterrupt]. rewrite Hi, orb_true_r. reflexivity.
  - destruct Hs as [_ Hs]. specialize (Hs Hfuel). congruence.
Qed.

End SupervisorFacts.

(** ** The server and the client on the closed instance *)

(** A round that finds new coverage and is deflaked: from "abc" the
    mutator gives "ab", which is run twice; the counter is 2, and the
    client, replaying two mutations, returns an entry holding "a". *)
Example demo_deflaked_entry :
  answer (@clientFuzz demo 3 quiet (demoEntry abc) demoMaskArgs (demoClient []))
  = Some ({| Parent := pathOf abc; Path := "ca978112"; Data := Some a_; Values := [];
             Generation := 5; IsSeed := false |},
          {| FuzzResponse.TotalDuration := 2; FuzzResponse.InterestingDuration := 1;
             FuzzResponse.Count := 2; FuzzResponse.CoverageData := Some [x01];
             FuzzResponse.Err := "" |},
          None)
  /\ log (peer (finalState
       (@clientFuzz demo 3 quiet (demoEntry abc) demoMaskArgs (demoClient []))))
     = [Mutated 16; Ran (entryOf [VBytes ab]); Ran (entryOf [VBytes ab])].
Proof. vm_compute. split; reflexivity. Qed.

Lemma fuzz_count_witness :
  exists e resp err wc' evs,
    @clientFuzz demo 3 quiet (demoEntry ab) demoFuzzArgs (demoClient [])
    = Ret (e, resp, err) wc'
    /\ log (peer wc') = log (peer (demoClient [])) ++ evs
    /\ FuzzResponse.Count resp = GoInt.wrapS 64 (Z.of_nat (runs evs)).
Proof.
  destruct (@clientFuzz demo 3 quiet (demoEntry ab) demoFuzzArgs (demoClient []))
    as [[[e resp] err] wc' | h wc'] eqn:E.
  - destruct (@fuzz_count_is_the_number_of_runs demo 3 quiet (demoEntry ab) demoFuzzArgs
                (demoClient []) e resp err wc' eq_refl E) as (evs & Hl & Hc).
    exists e, resp, err, wc', evs. repeat split; assumption.
  - exfalso. pose proof demo_fuzz_entry as D. rewrite E in D. discriminate D.
Defined.

Lemma minimize_count_witness :
  exists e resp err wc' evs,
    @clientMinimize demo 3 quiet (demoEntry aba) demoCrashArgs (demoClient [])
    = Ret (e, resp, err) wc'
    /\ log (peer wc') = log (peer (demoClient [])) ++ evs
    /\ MinimizeResponse.Count resp = GoInt.wrapS 64 (Z.of_nat (runs evs)).
Proof.
  destruct (@clientMinimize demo 3 quiet (demoEntry aba) demoCrashArgs (demoClient []))
    as [[[e resp] err] wc' | h wc'] eqn:E.
  - destruct (@minimize_count_is_the_number_of_runs demo 3 quiet (demoEntry aba)
                demoCrashArgs (demoClient []) e resp err wc' eq_refl E) as (evs & Hl & Hc).
    exists e, resp, err, wc', evs. repeat split; assumption.
  - exfalso. pose proof demo_minimize_entry as D. rewrite E in D. discriminate D.
Defined.

Lemma fuzz_limit_witness :
  exists evs,
    log (finalState (@fuzz demo 3 demoFuzzArgs (demoServer ab))) = log (demoServer ab) ++ evs
    /\ Z.of_nat (runs evs) <= 1.
Proof.
  destruct (@fuzz_respects_limit demo 3 demoFuzzArgs (demoServer ab))
    as (evs & Hl & _ & Hr); [cbn; lia | cbn; lia |].
  exists evs. split; [exact Hl | exact Hr].
Defined.

Lemma fuzz_mutation_witness :
  exists evs,
    log (finalState (@fuzz demo 3 demoMaskArgs (demoServer abc))) = log (demoServer abc) ++ evs
    /\ (mutations evs <= runs evs <= 2 * mutations evs)%nat.
Proof.
  destruct (@fuzz_runs_each_mutation demo 3 demoMaskArgs (demoServer abc) eq_refl)
    as (evs & Hl & Hr & _).
  exists evs. split; [exact Hl | exact Hr].
Defined.

Lemma demo_restoresSaved : @restoresSaved demo.
Proof. intros r r'. reflexivity. Qed.

Lemma replay_count_witness :
  exists e resp err wc' evs,
    @clientFuzz demo 3 quiet (demoEntry abc) demoMaskArgs (demoClient [])
    = Ret (e, resp, err) wc'
    /\ log (peer wc') = log (peer (demoClient [])) ++ evs
    /\ (mutations evs <= runs evs)%nat.
Proof.
  destruct (@clientFuzz demo 3 quiet (demoEntry abc) demoMaskArgs (demoClient []))
    as [[[e resp] err] wc' | h wc'] eqn:E.
  - destruct (@replay_follows_the_count demo 3 quiet (demoEntry abc) demoMaskArgs
                (demoClient []) e resp err wc' demo_restoresSaved eq_refl eq_refl E)
      as (evs & Hl & Hle & _).
    exists e, resp, err, wc', evs. repeat split; assumption.
  - exfalso. pose proof demo_deflaked_entry as [D _]. rewrite E in D. discriminate D.
Defined.

Lemma replay_values_witness :
  exists e resp err wc' evs,
    @clientFuzz demo 3 quiet (demoEntry ab) demoFuzzArgs (demoClient [])
    = Ret (e, resp, err) wc'
    /\ log (peer wc') = log (peer (demoClient [])) ++ evs.
Proof.
  destruct (@clientFuzz demo 3 quiet (demoEntry ab) demoFuzzArgs (demoClient []))
    as [[[e resp] err] wc' | h wc'] eqn:E.
  - destruct (@replay_rebuilds_the_values_run demo 3 quiet (demoEntry ab) demoFuzzArgs
                (demoClient []) e resp err wc' demo_restoresSaved eq_refl eq_refl eq_refl
                eq_refl E) as (evs & Hl & _).
    exists e, resp, err, wc', evs. split; [reflexivity | exact Hl].
  - exfalso. pose proof demo_fuzz_entry as D. rewrite E in D. discriminate D.
Defined.

Lemma minimize_interesting_witness :
  exists resp ws' vs,
    @minimize demo demoCoverArgs (demoServer ab) = Ret resp ws'
    /\ valueRef (mem ws') = @marshalCorpusFile demo vs.
Proof.
  destruct (@minimize demo demoCoverArgs (demoServer ab)) as [resp ws' | h ws'] eqn:E.
  - pose proof demo_minimize_accepted as [D _]. rewrite E in D. cbn [answer] in D.
    injection D as D.
    destruct (@minimize_success_is_interesting demo demoCoverArgs (demoServer ab) resp ws' E)
      as (vs0 & vs & _ & Hv & _); [rewrite D; reflexivity |].
    exists resp, ws', vs. split; [reflexivity | exact Hv].
  - exfalso. pose proof demo_minimize_accepted as [D _]. rewrite E in D. discriminate D.
Defined.

Lemma fuzz_ends_witness :
  match @fuzz demo 3 demoFuzzArgs (demoServer ab) with
  | Ret _ _ => True
  | Abort h _ => h = Crash \/ exists msg, h = Panic msg
  end.
Proof.
  apply (@fuzz_ends_within_limit demo 3 demoFuzzArgs (demoServer ab)); cbn; lia.
Defined.


(** A minimization that cannot keep its coverage gives the input back. *)
Example demo_client_minimize_refused :
  answer (@clientMinimize demo 3 quiet (demoEntry ab) demoLostArgs (demoClient []))
  = Some (demoEntry ab,
          {| MinimizeResponse.Success := false; MinimizeResponse.Err := "";
             MinimizeResponse.CoverageData := None; MinimizeResponse.Duration := 1;
             MinimizeResponse.Count := 1 |},
          None).
Proof. vm_compute. reflexivity. Qed.

Lemma minimize_failure_witness :
  exists e resp err wc',
    @clientMinimize demo 3 quiet (demoEntry ab) demoLostArgs (demoClient [])
    = Ret (e, resp, err) wc'
    /\ e = demoEntry ab
    /\ (err = None -> valueRef (mem (peer wc')) = ab).
Proof.
  destruct (@clientMinimize demo 3 quiet (demoEntry ab) demoLostArgs (demoClient []))
    as [[[e resp] err] wc' | h wc'] eqn:E.
  - pose proof demo_client_minimize_refused as D. rewrite E in D. cbn [answer] in D.
    injection D as _ D _.
    destruct (@minimize_failure_returns_the_input demo 3 quiet (demoEntry ab) demoLostArgs
                (demoClient []) e resp err wc' ab eq_refl eq_refl eq_refl E)
      as [He Hv]; [rewrite D; reflexivity |].
    exists e, resp, err, wc'. split; [reflexivity |]. split; [exact He | exact Hv].
  - exfalso. pose proof demo_client_minimize_refused as D. rewrite E in D. discriminate D.
Defined.


(** ** The supervisor on the closed instance *)

Lemma stop_escalates_witness :
  exists w',
    @stop demoHost 4 stubborn demoRunning = Ret (Some "signal: interrupt") w'
    /\ Worker.signals w' = [Interrupt] /\ Worker.interrupted w' = true.
Proof.
  destruct (@stop_escalates demoHost 4 stubborn 1 demoRunning)
    as (w' & Hs & Hsig & _ & Hi & _); [reflexivity | reflexivity | reflexivity | lia |].
  exists w'. split; [exact Hs |]. split; [exact Hsig | exact Hi].
Defined.

Lemma stop_again_witness :
  @stop demoHost 0 crashed demoInterrupted = Ret (Some "signal: interrupt") demoInterrupted.
Proof.
  apply (@stop_again_changes_nothing demoHost 4 stubborn demoRunning). reflexivity.
Defined.

Lemma start_witness :
  exists w', start spawns Worker.fresh = Ret None w' /\ Worker.cmd w' = true.
Proof.
  destruct (start_keeps_only_the_client_pipes spawns Worker.fresh eq_refl)
    as (w' & Hs & _ & _ & Hc & _).
  exists w'. split; [exact Hs | exact Hc].
Defined.

Lemma startAndPing_witness :
  idle (finalState (@startAndPing demoHost 4 None spawns (Some "EOF") stubborn None
                      Worker.fresh)) = true.
Proof.
  pose proof (@startAndPing_leaves_no_process_behind demoHost 4 None spawns (Some "EOF")
                stubborn None Worker.fresh eq_refl) as Hs.
  destruct (@startAndPing demoHost 4 None spawns (Some "EOF") stubborn None Worker.fresh)
    as [[e |] w' | h w']; cbn [finalState].
  - exact Hs.
  - destruct Hs as (_ & _ & _ & Hs). discriminate.
  - destruct Hs as [_ Hs]. specialize (Hs (le_n 4)). discriminate.
Defined.

Lemma coordinate_witness :
  exists e rs w',
    @coordinate demoHost 4 [crashTurn; cancelTurn] [] Worker.fresh = Ret (e, rs) w'
    /\ idle w' = true.
Proof.
  pose proof (@coordinate_never_faults demoHost 4 [crashTurn; cancelTurn] [] Worker.fresh
                eq_refl) as Hc.
  destruct (@coordinate demoHost 4 [crashTurn; cancelTurn] [] Worker.fresh)
    as [[e rs] w' | h w'] eqn:E.
  - exists e, rs, w'. split; [reflexivity | apply Hc].
  - vm_compute in E. discriminate.
Defined.

Lemma crasher_witness :
  exists result w',
    @coordinateInput demoHost 1 crashed None demoInput
      (zeroCorpusEntry, FuzzResponse.zero, Some "EOF") demoRunning = Ret (Sent result) w'
    /\ FuzzResult.crasherMsg result
       = "fuzzing process terminated unexpectedly: signal: segmentation fault"
    /\ FuzzResult.canMinimize result = false
    /\ idle w' = true.
Proof.
  destruct (@coordinateInput demoHost 1 crashed None demoInput
              (zeroCorpusEntry, FuzzResponse.zero, Some "EOF") demoRunning)
    as [[e | result] w' | h w'] eqn:E.
  - vm_compute in E. discriminate.
  - destruct (@crasher_only_for_a_crash_of_the_child demoHost 1 crashed None demoInput
                zeroCorpusEntry FuzzResponse.zero "EOF" demoRunning result w' eq_refl E)
      as (_ & _ & _ & _ & _ & -> & Hidle & _).
    eexists. exists w'. split; [reflexivity |]. split; [reflexivity |].
    split; [reflexivity | exact Hidle].
  - vm_compute in E. discriminate.
Defined.

Lemma unexpected_termination_witness :
  exists w',
    @coordinateSelect demoHost 0 exitTurn demoRunning
    = Ret (Returned (Some
        "fuzzing process exited unexpectedly due to an internal failure: exit status 70")) w'
    /\ idle w' = true.
Proof.
  destruct (@unexpected_termination_is_classified demoHost 0 exitTurn
              (Some "exit status 70") demoRunning eq_refl eq_refl)
    as (w' & Hs & Hi & _).
  exists w'. split; [exact Hs | exact Hi].
Defined.

Lemma minimize_interrupted_witness :
  exists w',
    @minimizeAfter demoHost 4 stubborn None demoFlaked
      (zeroCorpusEntry, MinimizeResponse.zero, Some "EOF") demoRunning
    = Ret (originalResult demoFlaked, None) w'.
Proof.
  destruct (@minimize_interrupted_returns_original demoHost 4 stubborn None demoFlaked
              (zeroCorpusEntry, MinimizeResponse.zero, Some "EOF") 0 demoRunning)
    as (w' & Hs & _); [reflexivity | discriminate | reflexivity | lia |].
  exists w'. exact Hs.
Defined.
